(** * The AVL index of [avl_tree_production.py], embedded and verified

    The file follows the Python module top-down: the exceptions, the keys a
    tree can hold (Python values and their rich comparisons), the node
    container, the rotations and the rebalancing step, the recursive insert
    and delete procedures with the [_size] counter they update, and the
    public methods of [AVLTree].  Then come the vocabulary of the
    specification, the proofs, and the properties of the specification one
    by one.

    After the tree comes its collaborator, [CandidateScoreTracker] of
    [candidate_score_tracker.py]: the dictionary of records, the score tree
    and the domain trees, with the methods that file, remove, rank and list
    candidates.  The last two parts of the file prove further properties of
    the tree module and of the tracker.

    What is left out of the model.  The lock and the logging calls of the
    public methods have no effect on the tree: every method is read as one
    atomic step on the fields [root], [_size], [_max_size] and [_max_depth].
    Python's own limits on memory and on the interpreter stack are not
    modelled; the recursive procedures go as deep as the tree is high.
    [__repr__] and [print_tree] build and print text and are not modelled,
    nor are the methods of the tracker that compute with floating-point
    numbers (percentiles, averages, the score distribution, the report). *)

From Stdlib Require Import ZArith List Lia Bool String Ascii.
From Stdlib Require Import Sorting.Sorted Sorting.Permutation.
From Stdlib Require OrderedTypeEx.
Import ListNotations.
Local Open Scope Z_scope.

(** ** Exceptions *)

(** The three exceptions of the module, and the two built-in ones that the
    statements of the module can raise: [TypeError] from a comparison of
    keys, [AttributeError] from a field access on [None]. *)
Inductive exn : Type :=
| AVLTreeCapacityError
| AVLTreeDepthError
| AVLTreeKeyError
| TypeError
| AttributeError.

(** A Python expression either returns a value or raises. *)
Inductive outcome (A : Type) : Type :=
| Return (a : A)
| Raise (e : exn).

Arguments Return {A} a.
Arguments Raise {A} e.

Definition bind {A B : Type} (c : outcome A) (k : A -> outcome B) : outcome B :=
  match c with
  | Return a => k a
  | Raise e => Raise e
  end.

Notation "x <- c ;; k" := (bind c (fun x => k))
  (at level 61, c at next level, right associativity).

(** ** Keys: Python values and their comparisons *)

(** The values used as keys here: [None], integers, the two infinite floats
    that [is_valid_avl] passes as bounds, strings, tuples (the collaborator
    stores [(score, candidate_id)] pairs) and instances of a class that
    defines no ordering ([object()]).  A finite float orders like the number
    it denotes; the integers stand for the finite numbers. *)
#[warnings="-register-all"]
Inductive value : Type :=
| VNone
| VInt (n : Z)
| VFloatInf (positive : bool)
| VStr (s : string)
| VTuple (items : list value)
| VObject (id : positive).

(** [a == b].  It never raises on these values: values of unrelated types
    are unequal, objects are equal to themselves only. *)
Fixpoint py_eq (a b : value) : bool :=
  match a, b with
  | VNone, VNone => true
  | VInt m, VInt n => m =? n
  | VFloatInf p, VFloatInf q => Bool.eqb p q
  | VStr s, VStr t => String.eqb s t
  | VTuple xs, VTuple ys =>
      (fix eq_items (xs ys : list value) : bool :=
         match xs, ys with
         | [], [] => true
         | x :: xs', y :: ys' => py_eq x y && eq_items xs' ys'
         | _, _ => false
         end) xs ys
  | VObject i, VObject j => Pos.eqb i j
  | _, _ => false
  end.

(** The four ordering operators. *)
Inductive cmp_op : Type := OpLt | OpGt | OpLe | OpGe.

Definition int_op (op : cmp_op) (m n : Z) : bool :=
  match op with
  | OpLt => m <? n
  | OpGt => m >? n
  | OpLe => m <=? n
  | OpGe => m >=? n
  end.

(** On the infinite floats, [float('-inf') < float('inf')]. *)
Definition inf_op (op : cmp_op) (p q : bool) : bool :=
  match op with
  | OpLt => negb p && q
  | OpGt => p && negb q
  | OpLe => negb p || q
  | OpGe => p || negb q
  end.

(** An integer lies strictly between the two infinite floats. *)
Definition int_inf_op (op : cmp_op) (q : bool) : bool :=
  match op with
  | OpLt | OpLe => q
  | OpGt | OpGe => negb q
  end.

Definition inf_int_op (op : cmp_op) (p : bool) : bool :=
  match op with
  | OpLt | OpLe => negb p
  | OpGt | OpGe => p
  end.

(** Strings compare lexicographically by code point. *)
Definition str_op (op : cmp_op) (s t : string) : bool :=
  match op, String.compare s t with
  | OpLt, Lt => true
  | OpGt, Gt => true
  | OpLe, (Lt | Eq) => true
  | OpGe, (Gt | Eq) => true
  | _, _ => false
  end.

(** [a op b] for an ordering operator.  Numbers compare by value, strings and
    tuples lexicographically; a tuple comparison skips the leading items that
    are [==] and applies the operator to the first pair that differs, or to
    the lengths when one tuple runs out.  Every other pair of operands raises
    [TypeError]. *)
Fixpoint richcmp (op : cmp_op) (a b : value) : outcome bool :=
  match a, b with
  | VInt m, VInt n => Return (int_op op m n)
  | VInt _, VFloatInf q => Return (int_inf_op op q)
  | VFloatInf p, VInt _ => Return (inf_int_op op p)
  | VFloatInf p, VFloatInf q => Return (inf_op op p q)
  | VStr s, VStr t => Return (str_op op s t)
  | VTuple xs, VTuple ys =>
      (fix cmp_items (xs ys : list value) : outcome bool :=
         match xs, ys with
         | x :: xs', y :: ys' =>
             if py_eq x y then cmp_items xs' ys' else richcmp op x y
         | _, _ =>
             Return (int_op op (Z.of_nat (List.length xs))
                            (Z.of_nat (List.length ys)))
         end) xs ys
  | _, _ => Raise TypeError
  end.

Definition py_lt : value -> value -> outcome bool := richcmp OpLt.
Definition py_gt : value -> value -> outcome bool := richcmp OpGt.
Definition py_le : value -> value -> outcome bool := richcmp OpLe.
Definition py_ge : value -> value -> outcome bool := richcmp OpGe.

(** ** Nodes *)

(** A reference to a node: [Absent] is Python's [None] in a child slot or in
    [root]; [Node] carries the four slots of [AVLNode], with [L] and [R] for
    [left] and [right].  Every node has one owner (its parent's slot or
    [root]), so the object graph is a tree and an assignment to a slot is the
    construction of the updated node. *)
Inductive AVLNode : Type :=
| Absent
| Node (val : value) (L R : AVLNode) (height : Z).

(** [AVLNode.__init__]: no children, height 1. *)
Definition AVLNode_init (key : value) : AVLNode := Node key Absent Absent 1.

Definition _get_height (node : AVLNode) : Z :=
  match node with
  | Absent => 0
  | Node _ _ _ height => height
  end.

Definition _get_balance_factor (node : AVLNode) : Z :=
  match node with
  | Absent => 0
  | Node _ L R _ => _get_height L - _get_height R
  end.

(** ** Rotations *)

(** [_rotate_right(z)].  Reading [z.left] of [None], or [y.right] when [y] is
    [None], raises before any slot is written. *)
Definition _rotate_right (z : AVLNode) : outcome AVLNode :=
  match z with
  | Absent => Raise AttributeError
  | Node zval y zright _ =>
      match y with
      | Absent => Raise AttributeError
      | Node yval yleft T3 _ =>
          let z' :=
            Node zval T3 zright (1 + Z.max (_get_height T3) (_get_height zright)) in
          Return
            (Node yval yleft z' (1 + Z.max (_get_height yleft) (_get_height z')))
      end
  end.

(** [_rotate_left(z)], the mirror image. *)
Definition _rotate_left (z : AVLNode) : outcome AVLNode :=
  match z with
  | Absent => Raise AttributeError
  | Node zval zleft y _ =>
      match y with
      | Absent => Raise AttributeError
      | Node yval T2 yright _ =>
          let z' :=
            Node zval zleft T2 (1 + Z.max (_get_height zleft) (_get_height T2)) in
          Return
            (Node yval z' yright (1 + Z.max (_get_height z') (_get_height yright)))
      end
  end.

(** [_rebalance(node)].  On [None] the balance factor is 0 and the argument
    is returned as it is. *)
Definition _rebalance (node : AVLNode) : outcome AVLNode :=
  match node with
  | Absent => Return Absent
  | Node val L R height =>
      let balance := _get_balance_factor node in
      if balance >? 1 then
        let left_balance := _get_balance_factor L in
        if left_balance >=? 0 then _rotate_right node
        else
          new_left <- _rotate_left L ;;
          _rotate_right (Node val new_left R height)
      else if balance <? -1 then
        let right_balance := _get_balance_factor R in
        if right_balance <=? 0 then _rotate_left node
        else
          new_right <- _rotate_right R ;;
          _rotate_left (Node val L new_right height)
      else Return node
  end.

(** ** The recursive procedures *)

(** What a call of a recursive procedure leaves behind.  [Done node size]: it
    returned [node], the new root of the subtree.  [Failed e node size]: it
    raised [e]; the caller's slot still holds the subtree it passed, and
    [node] is that subtree with the writes the call made before raising.
    [size] is the value of [self._size] at that moment. *)
Inductive walk : Type :=
| Done (node : AVLNode) (size : Z)
| Failed (e : exn) (node : AVLNode) (size : Z).

(** The two statements that end both procedures:
    [node.height = 1 + max(...)] and [return self._rebalance(node)].
    [_rebalance] writes a slot of [node] only in a double rotation, between
    its two rotation calls, and its second rotation cannot raise then (see
    [second_rotation_returns]); so when it raises, [node] is as it was
    passed. *)
Definition _update_height (node : AVLNode) : AVLNode :=
  match node with
  | Absent => Absent
  | Node val L R _ =>
      Node val L R (1 + Z.max (_get_height L) (_get_height R))
  end.

Definition _update_and_rebalance (node : AVLNode) (size : Z) : walk :=
  let node := _update_height node in
  match _rebalance node with
  | Return new_root => Done new_root size
  | Raise e => Failed e node size
  end.

(** [_insert_recursive(node, key, depth)], with [self._max_depth] and the
    current [self._size] as further arguments. *)
Fixpoint _insert_recursive (_max_depth : Z) (node : AVLNode) (key : value)
    (depth : Z) (_size : Z) : walk :=
  if depth >? _max_depth then Failed AVLTreeDepthError node _size
  else
    match node with
    | Absent => Done (AVLNode_init key) (_size + 1)
    | Node val L R height =>
        match py_lt key val with
        | Raise e => Failed e node _size
        | Return true =>
            match _insert_recursive _max_depth L key (depth + 1) _size with
            | Failed e L' size' => Failed e (Node val L' R height) size'
            | Done L' size' =>
                _update_and_rebalance (Node val L' R height) size'
            end
        | Return false =>
            match py_gt key val with
            | Raise e => Failed e node _size
            | Return true =>
                match _insert_recursive _max_depth R key (depth + 1) _size with
                | Failed e R' size' =>
                    Failed e (Node val L R' height) size'
                | Done R' size' =>
                    _update_and_rebalance (Node val L R' height) size'
                end
            | Return false => Done node _size
            end
        end
    end.

(** [_get_min_node(node)]: the leftmost node; [node.left] on [None] raises. *)
Fixpoint _get_min_node (node : AVLNode) : outcome AVLNode :=
  match node with
  | Absent => Raise AttributeError
  | Node _ L _ _ =>
      match L with
      | Absent => Return node
      | Node _ _ _ _ => _get_min_node L
      end
  end.

(** [node.val]. *)
Definition get_val (node : AVLNode) : outcome value :=
  match node with
  | Absent => Raise AttributeError
  | Node val _ _ _ => Return val
  end.

(** [_delete_recursive(node, key)], with the current [self._size].  In the
    two-child case the successor's key is written into [node.val] before the
    recursive call on the right subtree. *)
Fixpoint _delete_recursive (node : AVLNode) (key : value) (_size : Z) : walk :=
  match node with
  | Absent => Done Absent _size
  | Node val L R height =>
      match py_lt key val with
      | Raise e => Failed e node _size
      | Return true =>
          match _delete_recursive L key _size with
          | Failed e L' size' => Failed e (Node val L' R height) size'
          | Done L' size' =>
              _update_and_rebalance (Node val L' R height) size'
          end
      | Return false =>
          match py_gt key val with
          | Raise e => Failed e node _size
          | Return true =>
              match _delete_recursive R key _size with
              | Failed e R' size' =>
                  Failed e (Node val L R' height) size'
              | Done R' size' =>
                  _update_and_rebalance (Node val L R' height) size'
              end
          | Return false =>
              match L, R with
              | Absent, _ => Done R (_size - 1)
              | Node _ _ _ _, Absent => Done L (_size - 1)
              | Node _ _ _ _, Node _ _ _ _ =>
                  match successor <- _get_min_node R ;; get_val successor with
                  | Raise e => Failed e node _size
                  | Return successor_val =>
                      match _delete_recursive R successor_val _size with
                      | Failed e R' size' =>
                          Failed e (Node successor_val L R' height) size'
                      | Done R' size' =>
                          _update_and_rebalance
                            (Node successor_val L R' height) size'
                      end
                  end
              end
          end
      end
  end.

(** [_search_unlocked(node, key)]: the loop descends one level per round. *)
Fixpoint _search_unlocked (node : AVLNode) (key : value) : outcome AVLNode :=
  match node with
  | Absent => Return Absent
  | Node val L R _ =>
      if py_eq key val then Return node
      else
        below <- py_lt key val ;;
        if below then _search_unlocked L key else _search_unlocked R key
  end.

(** [_in_order_traversal(node, output)]: the list [output] after the call. *)
Fixpoint _in_order_traversal (node : AVLNode) (output : list value) : list value :=
  match node with
  | Absent => output
  | Node val L R _ =>
      _in_order_traversal R (_in_order_traversal L output ++ [val])
  end.

(** [_validate_avl(node, min_val, max_val)], with the short-circuit
    evaluation of [or] and [and]. *)
Fixpoint _validate_avl (node : AVLNode) (min_val max_val : value) : outcome bool :=
  match node with
  | Absent => Return true
  | Node val L R height =>
      too_small <- py_le val min_val ;;
      if too_small then Return false
      else
        too_large <- py_ge val max_val ;;
        if too_large then Return false
        else
          let balance := _get_balance_factor node in
          if Z.abs balance >? 1 then Return false
          else
            let expected_height :=
              1 + Z.max (_get_height L) (_get_height R) in
            if negb (height =? expected_height) then Return false
            else
              left_valid <- _validate_avl L min_val val ;;
              if left_valid then _validate_avl R val max_val
              else Return false
  end.

(** ** The tree object and its public methods *)

(** The fields of [AVLTree] that the methods read and write. *)
Record AVLTree : Type := mkAVLTree {
  root : AVLNode;
  _size : Z;
  _max_size : option Z;
  _max_depth : Z
}.

(** [AVLTree(max_size, max_depth)]; [AVLTree()] is
    [AVLTree_init None default_max_depth]. *)
Definition AVLTree_init (max_size : option Z) (max_depth : Z) : AVLTree :=
  mkAVLTree Absent 0 max_size max_depth.

Definition default_max_depth : Z := 1000.

(** The tree after a recursive procedure has run: [self.root] is assigned
    the returned node, or still holds the old root with the writes made. *)
Definition with_root (self : AVLTree) (node : AVLNode) (size : Z) : AVLTree :=
  mkAVLTree node size (_max_size self) (_max_depth self).

(** [_validate_key(key)]: a [TypeError] from [key < key] or [key > key]
    becomes [AVLTreeKeyError]. *)
Definition _validate_key (key : value) : outcome unit :=
  match key with
  | VNone => Raise AVLTreeKeyError
  | _ =>
      match (_ <- py_lt key key ;; py_gt key key) with
      | Return _ => Return tt
      | Raise TypeError => Raise AVLTreeKeyError
      | Raise e => Raise e
      end
  end.

(** [self._max_size is not None and self._size >= self._max_size]. *)
Definition at_capacity (self : AVLTree) : bool :=
  match _max_size self with
  | None => false
  | Some max_size => _size self >=? max_size
  end.

(** [insert(key)]: the tree afterwards, and the boolean returned or the
    exception raised. *)
Definition insert (self : AVLTree) (key : value) : AVLTree * outcome bool :=
  match _validate_key key with
  | Raise e => (self, Raise e)
  | Return _ =>
      if at_capacity self then (self, Raise AVLTreeCapacityError)
      else
        let current_height := _get_height (root self) in
        if current_height >=? _max_depth self then (self, Raise AVLTreeDepthError)
        else
          let original_size := _size self in
          match
            _insert_recursive (_max_depth self) (root self) key 0 (_size self)
          with
          | Failed e node size => (with_root self node size, Raise e)
          | Done node size =>
              (with_root self node size, Return (size >? original_size))
          end
  end.

(** [delete(key)]. *)
Definition delete (self : AVLTree) (key : value) : AVLTree * outcome bool :=
  match _validate_key key with
  | Raise e => (self, Raise e)
  | Return _ =>
      let original_size := _size self in
      match _delete_recursive (root self) key (_size self) with
      | Failed e node size => (with_root self node size, Raise e)
      | Done node size =>
          (with_root self node size, Return (size <? original_size))
      end
  end.

(** [search(key)]: the node found, or [Absent] for [None]. *)
Definition search (self : AVLTree) (key : value) : AVLTree * outcome AVLNode :=
  match _validate_key key with
  | Raise e => (self, Raise e)
  | Return _ => (self, _search_unlocked (root self) key)
  end.

(** [in_order_traversal()] and [to_list()]. *)
Definition in_order_traversal (self : AVLTree) : list value :=
  _in_order_traversal (root self) [].

Definition to_list (self : AVLTree) : list value := in_order_traversal self.

(** [clear()]. *)
Definition clear (self : AVLTree) : AVLTree :=
  mkAVLTree Absent 0 (_max_size self) (_max_depth self).

(** The loop [for key in keys: self.insert(key)]: an exception from [insert]
    ends it. *)
Fixpoint insert_each (self : AVLTree) (keys : list value) : AVLTree * outcome unit :=
  match keys with
  | [] => (self, Return tt)
  | key :: keys' =>
      match insert self key with
      | (self', Return _) => insert_each self' keys'
      | (self', Raise e) => (self', Raise e)
      end
  end.

(** [from_list(keys)]: [self.root = None; self._size = 0], then the loop. *)
Definition from_list (self : AVLTree) (keys : list value) : AVLTree * outcome unit :=
  insert_each (mkAVLTree Absent 0 (_max_size self) (_max_depth self)) keys.

(** [is_valid_avl()]. *)
Definition is_valid_avl (self : AVLTree) : outcome bool :=
  _validate_avl (root self) (VFloatInf false) (VFloatInf true).

(** [height]. *)
Definition height (self : AVLTree) : Z := _get_height (root self).

(** A caller making one [insert] call per key, whatever each call does: the
    final tree and what every call returned or raised. *)
Fixpoint insert_calls (self : AVLTree) (keys : list value)
  : AVLTree * list (outcome bool) :=
  match keys with
  | [] => (self, [])
  | key :: keys' =>
      let (self', result) := insert self key in
      let (final, results) := insert_calls self' keys' in
      (final, result :: results)
  end.

(** ** The other methods of [AVLTree] *)

(** [__len__()] and the [size] property. *)
Definition __len__ (self : AVLTree) : Z := _size self.

Definition size (self : AVLTree) : Z := _size self.

(** The [is_empty] property: [self.root is None]. *)
Definition is_empty (self : AVLTree) : bool :=
  match root self with
  | Absent => true
  | Node _ _ _ _ => false
  end.

(** [__contains__(key)]: [self._search_unlocked(self.root, key) is not None].
    The key is not validated. *)
Definition __contains__ (self : AVLTree) (key : value) : outcome bool :=
  found <- _search_unlocked (root self) key ;;
  Return (match found with Absent => false | Node _ _ _ _ => true end).

(** [__iter__()]: the values the generator yields, in order; they are taken
    from a snapshot made when the iteration starts. *)
Definition __iter__ (self : AVLTree) : list value :=
  _in_order_traversal (root self) [].

(** [_pre_order_traversal(node, output)] and [pre_order_traversal()]. *)
Fixpoint _pre_order_traversal (node : AVLNode) (output : list value) : list value :=
  match node with
  | Absent => output
  | Node val L R _ =>
      _pre_order_traversal R (_pre_order_traversal L (output ++ [val]))
  end.

Definition pre_order_traversal (self : AVLTree) : list value :=
  _pre_order_traversal (root self) [].

(** [_post_order_traversal(node, output)] and [post_order_traversal()]. *)
Fixpoint _post_order_traversal (node : AVLNode) (output : list value) : list value :=
  match node with
  | Absent => output
  | Node val L R _ =>
      _post_order_traversal R (_post_order_traversal L output) ++ [val]
  end.

Definition post_order_traversal (self : AVLTree) : list value :=
  _post_order_traversal (root self) [].

(** [_get_max_node(node)]: the rightmost node; [node.right] on [None]
    raises. *)
Fixpoint _get_max_node (node : AVLNode) : outcome AVLNode :=
  match node with
  | Absent => Raise AttributeError
  | Node _ _ R _ =>
      match R with
      | Absent => Return node
      | Node _ _ _ _ => _get_max_node R
      end
  end.

(** [get_min()] and [get_max()]: [None] on the empty tree, else the key of
    the leftmost, of the rightmost node. *)
Definition get_min (self : AVLTree) : outcome (option value) :=
  match root self with
  | Absent => Return None
  | Node _ _ _ _ =>
      node <- _get_min_node (root self) ;;
      val <- get_val node ;;
      Return (Some val)
  end.

Definition get_max (self : AVLTree) : outcome (option value) :=
  match root self with
  | Absent => Return None
  | Node _ _ _ _ =>
      node <- _get_max_node (root self) ;;
      val <- get_val node ;;
      Return (Some val)
  end.

(** ** The collaborator: [CandidateScoreTracker] *)

(** What a method of the tracker raises: [ValueError], [KeyError], or one of
    the exceptions of the tree module's list, the [TypeError] of a
    comparison included. *)
Inductive tracker_exn : Type :=
| ValueError
| KeyError
| Raised (e : exn).

Inductive result (A : Type) : Type :=
| Ok (a : A)
| Error (e : tracker_exn).

Arguments Ok {A} a.
Arguments Error {A} e.

(** A Python [dict] with string keys: its items in insertion order, no key
    twice. *)
Definition dict (V : Type) : Type := list (string * V).

(** [d.get(k)]. *)
Fixpoint dict_get {V : Type} (d : dict V) (k : string) : option V :=
  match d with
  | [] => None
  | (k', v) :: d' => if String.eqb k k' then Some v else dict_get d' k
  end.

(** [k in d]. *)
Definition dict_contains {V : Type} (d : dict V) (k : string) : bool :=
  match dict_get d k with
  | Some _ => true
  | None => false
  end.

(** [d[k] = v]: in place when [k] is a key, at the end otherwise. *)
Fixpoint dict_set {V : Type} (d : dict V) (k : string) (v : V) : dict V :=
  match d with
  | [] => [(k, v)]
  | (k', v') :: d' =>
      if String.eqb k k' then (k', v) :: d' else (k', v') :: dict_set d' k v
  end.

(** [del d[k]], for a key that is there. *)
Fixpoint dict_del {V : Type} (d : dict V) (k : string) : dict V :=
  match d with
  | [] => []
  | (k', v') :: d' =>
      if String.eqb k k' then d' else (k', v') :: dict_del d' k
  end.

(** The dataclass [CandidateScore].  [timestamp] is the reading of the clock
    when the record is made. *)
Record CandidateScore : Type := mkCandidateScore {
  candidate_id : string;
  name : string;
  score : value;
  domain_scores : dict value;
  timestamp : Z;
  passed : bool
}.

(** The fields of [CandidateScoreTracker]. *)
Record CandidateScoreTracker : Type := mkCandidateScoreTracker {
  passing_threshold : value;
  max_candidates : Z;
  _score_tree : AVLTree;
  _candidates : dict CandidateScore;
  _domain_trees : dict AVLTree
}.

Definition DOMAINS : list string :=
  ["mechanical"; "electrical"; "hydraulics"; "plcs"; "safety";
   "troubleshooting"]%string.

(** [CandidateScoreTracker(passing_threshold, max_candidates)]; the defaults
    are 70.0 and 10000. *)
Definition CandidateScoreTracker_init (passing_threshold : value)
    (max_candidates : Z) : CandidateScoreTracker :=
  mkCandidateScoreTracker passing_threshold max_candidates
    (AVLTree_init (Some max_candidates) default_max_depth)
    []
    (map (fun domain =>
            (domain, AVLTree_init (Some max_candidates) default_max_depth))
       DOMAINS).

(** The loop of [add_candidate] over [domain_scores.items()]: the trees
    afterwards; an exception from [insert] ends it. *)
Fixpoint insert_domain_scores (trees : dict AVLTree)
    (items : list (string * value)) (candidate_id : string)
  : dict AVLTree * outcome unit :=
  match items with
  | [] => (trees, Return tt)
  | (domain, domain_score) :: items' =>
      match dict_get trees domain with
      | None => insert_domain_scores trees items' candidate_id
      | Some tree =>
          match insert tree (VTuple [domain_score; VStr candidate_id]) with
          | (tree', Return _) =>
              insert_domain_scores (dict_set trees domain tree') items'
                candidate_id
          | (tree', Raise e) => (dict_set trees domain tree', Raise e)
          end
      end
  end.

(** [add_candidate(candidate_id, name, overall_score, domain_scores)]: the
    tracker afterwards, and the record returned or the exception raised.
    [now] is what [datetime.now()] gives. *)
Definition add_candidate (self : CandidateScoreTracker)
    (candidate_id name : string) (overall_score : value)
    (domain_scores : dict value) (now : Z)
  : CandidateScoreTracker * result CandidateScore :=
  if dict_contains (_candidates self) candidate_id then (self, Error ValueError)
  else
    match py_ge overall_score (passing_threshold self) with
    | Raise e => (self, Error (Raised e))
    | Return passed =>
        let candidate :=
          mkCandidateScore candidate_id name overall_score domain_scores now
            passed in
        let candidates := dict_set (_candidates self) candidate_id candidate in
        match insert (_score_tree self) (VTuple [overall_score; VStr candidate_id]) with
        | (tree, Raise e) =>
            (mkCandidateScoreTracker (passing_threshold self)
               (max_candidates self) tree candidates (_domain_trees self),
             Error (Raised e))
        | (tree, Return _) =>
            match
              insert_domain_scores (_domain_trees self) domain_scores
                candidate_id
            with
            | (trees, Raise e) =>
                (mkCandidateScoreTracker (passing_threshold self)
                   (max_candidates self) tree candidates trees,
                 Error (Raised e))
            | (trees, Return _) =>
                (mkCandidateScoreTracker (passing_threshold self)
                   (max_candidates self) tree candidates trees,
                 Ok candidate)
            end
        end
    end.

(** [get_candidate(candidate_id)]. *)
Definition get_candidate (self : CandidateScoreTracker) (candidate_id : string)
  : option CandidateScore :=
  dict_get (_candidates self) candidate_id.

(** The loop of [remove_candidate] over [candidate.domain_scores.items()]. *)
Fixpoint delete_domain_scores (trees : dict AVLTree)
    (items : list (string * value)) (candidate_id : string)
  : dict AVLTree * outcome unit :=
  match items with
  | [] => (trees, Return tt)
  | (domain, domain_score) :: items' =>
      match dict_get trees domain with
      | None => delete_domain_scores trees items' candidate_id
      | Some tree =>
          match delete tree (VTuple [domain_score; VStr candidate_id]) with
          | (tree', Return _) =>
              delete_domain_scores (dict_set trees domain tree') items'
                candidate_id
          | (tree', Raise e) => (dict_set trees domain tree', Raise e)
          end
      end
  end.

(** [remove_candidate(candidate_id)]. *)
Definition remove_candidate (self : CandidateScoreTracker)
    (candidate_id : string) : CandidateScoreTracker * result bool :=
  match dict_get (_candidates self) candidate_id with
  | None => (self, Ok false)
  | Some candidate =>
      match delete (_score_tree self) (VTuple [score candidate; VStr candidate_id]) with
      | (tree, Raise e) =>
          (mkCandidateScoreTracker (passing_threshold self)
             (max_candidates self) tree (_candidates self) (_domain_trees self),
           Error (Raised e))
      | (tree, Return _) =>
          match
            delete_domain_scores (_domain_trees self) (domain_scores candidate)
              candidate_id
          with
          | (trees, Raise e) =>
              (mkCandidateScoreTracker (passing_threshold self)
                 (max_candidates self) tree (_candidates self) trees,
               Error (Raised e))
          | (trees, Return _) =>
              (mkCandidateScoreTracker (passing_threshold self)
                 (max_candidates self) tree
                 (dict_del (_candidates self) candidate_id) trees,
               Ok true)
          end
      end
  end.

(** The unpacking [score, cid = item] of a loop or comprehension target.  A
    tuple of two items unpacks, and so does a string of two characters; a
    tuple or string of another length raises [ValueError], a value that is
    not iterable [TypeError]. *)
Definition unpack_pair (item : value) : result (value * value) :=
  match item with
  | VTuple [a; b] => Ok (a, b)
  | VTuple _ => Error ValueError
  | VStr (String a (String b EmptyString)) =>
      Ok (VStr (String a EmptyString), VStr (String b EmptyString))
  | VStr _ => Error ValueError
  | _ => Error (Raised TypeError)
  end.

(** The loop of [get_rank]: [i] is the index of the first item. *)
Fixpoint find_rank (all_scores : list value) (candidate_id : string) (i : Z)
  : result (option Z) :=
  match all_scores with
  | [] => Ok None
  | item :: all_scores' =>
      match unpack_pair item with
      | Error e => Error e
      | Ok (_, cid) =>
          if py_eq cid (VStr candidate_id) then Ok (Some (i + 1))
          else find_rank all_scores' candidate_id (i + 1)
      end
  end.

(** [get_rank(candidate_id)]. *)
Definition get_rank (self : CandidateScoreTracker) (candidate_id : string)
  : result (option Z) :=
  if negb (dict_contains (_candidates self) candidate_id) then Ok None
  else
    find_rank (rev (in_order_traversal (_score_tree self))) candidate_id 0.

(** The slice [l[:n]]: a negative [n] counts from the end. *)
Definition slice_to {A : Type} (l : list A) (n : Z) : list A :=
  if n <? 0 then firstn (List.length l - Z.to_nat (- n)) l
  else firstn (Z.to_nat n) l.

(** [[cid for _, cid in items]]. *)
Fixpoint second_items (items : list value) : result (list value) :=
  match items with
  | [] => Ok []
  | item :: items' =>
      match unpack_pair item with
      | Error e => Error e
      | Ok (_, cid) =>
          match second_items items' with
          | Error e => Error e
          | Ok cids => Ok (cid :: cids)
          end
      end
  end.

(** [self._candidates[cid]]: the keys of the dictionary are strings. *)
Definition candidates_getitem (candidates : dict CandidateScore) (cid : value)
  : result CandidateScore :=
  match cid with
  | VStr candidate_id =>
      match dict_get candidates candidate_id with
      | Some candidate => Ok candidate
      | None => Error KeyError
      end
  | _ => Error KeyError
  end.

(** [[self._candidates[cid] for cid in ids]]. *)
Fixpoint candidates_of (candidates : dict CandidateScore) (ids : list value)
  : result (list CandidateScore) :=
  match ids with
  | [] => Ok []
  | cid :: ids' =>
      match candidates_getitem candidates cid with
      | Error e => Error e
      | Ok candidate =>
          match candidates_of candidates ids' with
          | Error e => Error e
          | Ok found => Ok (candidate :: found)
          end
      end
  end.

(** [get_top_candidates(n)] and [get_bottom_candidates(n)]. *)
Definition get_top_candidates (self : CandidateScoreTracker) (n : Z)
  : result (list CandidateScore) :=
  let all_scores := rev (in_order_traversal (_score_tree self)) in
  match second_items (slice_to all_scores n) with
  | Error e => Error e
  | Ok top_ids => candidates_of (_candidates self) top_ids
  end.

Definition get_bottom_candidates (self : CandidateScoreTracker) (n : Z)
  : result (list CandidateScore) :=
  let all_scores := in_order_traversal (_score_tree self) in
  match second_items (slice_to all_scores n) with
  | Error e => Error e
  | Ok bottom_ids => candidates_of (_candidates self) bottom_ids
  end.

(** The properties [total_candidates], [passing_count] and
    [failing_count]. *)
Definition total_candidates (self : CandidateScoreTracker) : Z :=
  Z.of_nat (List.length (_candidates self)).

Definition passing_count (self : CandidateScoreTracker) : Z :=
  Z.of_nat (List.length (filter (fun item => passed (snd item)) (_candidates self))).

Definition failing_count (self : CandidateScoreTracker) : Z :=
  Z.of_nat
    (List.length (filter (fun item => negb (passed (snd item))) (_candidates self))).

(** [bool(v)], the truth value that [or] tests. *)
Definition py_truthy (v : value) : bool :=
  match v with
  | VNone => false
  | VInt n => negb (n =? 0)
  | VFloatInf _ => true
  | VStr EmptyString => false
  | VStr _ => true
  | VTuple [] => false
  | VTuple _ => true
  | VObject _ => true
  end.

(** [[cid for score, cid in all_scores if test(score)]]: an exception from
    the unpacking or from the test ends the comprehension. *)
Fixpoint ids_where (test : value -> outcome bool) (all_scores : list value)
  : result (list value) :=
  match all_scores with
  | [] => Ok []
  | item :: all_scores' =>
      match unpack_pair item with
      | Error e => Error e
      | Ok (item_score, cid) =>
          match test item_score with
          | Raise e => Error (Raised e)
          | Return keep =>
              match ids_where test all_scores' with
              | Error e => Error e
              | Ok ids => Ok (if keep then cid :: ids else ids)
              end
          end
      end
  end.

(** The chained comparison [min_score <= score <= max_score]. *)
Definition score_in_range (min_score max_score item_score : value)
  : outcome bool :=
  above <- py_le min_score item_score ;;
  if above then py_le item_score max_score else Return false.

(** [get_candidates_in_range(min_score, max_score)]. *)
Definition get_candidates_in_range (self : CandidateScoreTracker)
    (min_score max_score : value) : result (list CandidateScore) :=
  let all_scores := in_order_traversal (_score_tree self) in
  match ids_where (score_in_range min_score max_score) all_scores with
  | Error e => Error e
  | Ok in_range_ids => candidates_of (_candidates self) in_range_ids
  end.

(** [candidates.sort(key=lambda c: c.score, reverse=True)].  The sort of
    Python is stable, also when reversed, and compares keys with [<] only:
    on keys that are totally ordered it gives the one list in descending
    order of score in which records of equal score keep the order they had.
    That list is built here by insertion from the left, each record going
    behind the records whose score is not smaller; a comparison that raises
    ends the sort. *)
Fixpoint insert_by_score (candidate : CandidateScore)
    (sorted : list CandidateScore) : outcome (list CandidateScore) :=
  match sorted with
  | [] => Return [candidate]
  | first :: sorted' =>
      smaller <- py_lt (score first) (score candidate) ;;
      if smaller then Return (candidate :: sorted)
      else
        behind <- insert_by_score candidate sorted' ;;
        Return (first :: behind)
  end.

Fixpoint sort_by_score_reverse (candidates sorted : list CandidateScore)
  : outcome (list CandidateScore) :=
  match candidates with
  | [] => Return sorted
  | candidate :: candidates' =>
      sorted' <- insert_by_score candidate sorted ;;
      sort_by_score_reverse candidates' sorted'
  end.

(** [get_candidates_above_threshold(threshold)]; the default of [threshold]
    is [None]. *)
Definition get_candidates_above_threshold (self : CandidateScoreTracker)
    (threshold : value) : result (list CandidateScore) :=
  let threshold :=
    if py_truthy threshold then threshold else passing_threshold self in
  let all_scores := in_order_traversal (_score_tree self) in
  match ids_where (fun item_score => py_ge item_score threshold) all_scores with
  | Error e => Error e
  | Ok passing_ids =>
      match candidates_of (_candidates self) passing_ids with
      | Error e => Error e
      | Ok candidates =>
          match sort_by_score_reverse candidates [] with
          | Raise e => Error (Raised e)
          | Return sorted => Ok sorted
          end
      end
  end.

(** [get_candidates_below_threshold(threshold)]. *)
Definition get_candidates_below_threshold (self : CandidateScoreTracker)
    (threshold : value) : result (list CandidateScore) :=
  let threshold :=
    if py_truthy threshold then threshold else passing_threshold self in
  let all_scores := in_order_traversal (_score_tree self) in
  match ids_where (fun item_score => py_lt item_score threshold) all_scores with
  | Error e => Error e
  | Ok failing_ids =>
      match candidates_of (_candidates self) failing_ids with
      | Error e => Error e
      | Ok candidates =>
          match sort_by_score_reverse candidates [] with
          | Raise e => Error (Raised e)
          | Return sorted => Ok sorted
          end
      end
  end.

(** ** Keys in a total order *)

(** [a] compares less than [b]. *)
Definition key_lt (a b : value) : Prop := py_lt a b = Return true.

(** A set [P] of keys is totally ordered when none is [None], [<] and [>]
    never raise between two of them and are each other's converse, [<] is a
    strict total order on them, and [==] holds between identical keys only. *)
Record ordered_keys (P : value -> Prop) : Prop := {
  ok_not_None : forall a, P a -> a <> VNone;
  ok_decided : forall a b, P a -> P b -> exists c, py_lt a b = Return c;
  ok_gt : forall a b, P a -> P b -> py_gt a b = py_lt b a;
  ok_irrefl : forall a, P a -> ~ key_lt a a;
  ok_trans : forall a b c, P a -> P b -> P c ->
      key_lt a b -> key_lt b c -> key_lt a c;
  ok_total : forall a b, P a -> P b -> key_lt a b \/ a = b \/ key_lt b a;
  ok_eq : forall a b, P a -> P b -> (py_eq a b = true <-> a = b)
}.

Arguments ok_not_None {P} _ {a} _.
Arguments ok_decided {P} _ {a b} _ _.
Arguments ok_gt {P} _ {a b} _ _.
Arguments ok_irrefl {P} _ {a} _.
Arguments ok_trans {P} _ {a b c} _ _ _ _ _.
Arguments ok_total {P} _ {a b} _ _.
Arguments ok_eq {P} _ {a b} _ _.

(** ** What a tree holds, and when it is well formed *)

(** The keys of a subtree, left to right. *)
Fixpoint keys (node : AVLNode) : list value :=
  match node with
  | Absent => []
  | Node val L R _ => keys L ++ val :: keys R
  end.

(** The number of nodes. *)
Fixpoint count (node : AVLNode) : Z :=
  match node with
  | Absent => 0
  | Node _ L R _ => count L + 1 + count R
  end.

(** The height as the longest path, counted in nodes. *)
Fixpoint real_height (node : AVLNode) : Z :=
  match node with
  | Absent => 0
  | Node _ L R _ => 1 + Z.max (real_height L) (real_height R)
  end.

(** Every cached height is right and every balance factor is in [-1, 1]. *)
Fixpoint avl (node : AVLNode) : Prop :=
  match node with
  | Absent => True
  | Node _ L R height =>
      avl L /\ avl R /\
      height = 1 + Z.max (_get_height L) (_get_height R) /\
      -1 <= _get_height L - _get_height R <= 1
  end.

(** The keys ascend strictly from left to right. *)
Definition ascending (l : list value) : Prop := StronglySorted key_lt l.

(** A well-formed subtree over the keys [P]. *)
Definition wf (P : value -> Prop) (node : AVLNode) : Prop :=
  avl node /\ ascending (keys node) /\ Forall P (keys node).

(** The invariant of the data model, node by node. *)
Fixpoint all_keys (Q : value -> Prop) (node : AVLNode) : Prop :=
  match node with
  | Absent => True
  | Node val L R _ => all_keys Q L /\ Q val /\ all_keys Q R
  end.

Definition node_invariant (val : value) (L R : AVLNode) (height : Z) : Prop :=
  all_keys (fun k => py_lt k val = Return true) L /\
  all_keys (fun k => py_gt k val = Return true) R /\
  height = 1 + Z.max (_get_height L) (_get_height R) /\
  Z.abs (_get_height L - _get_height R) <= 1.

Fixpoint every_node (Q : value -> AVLNode -> AVLNode -> Z -> Prop)
    (node : AVLNode) : Prop :=
  match node with
  | Absent => True
  | Node val L R height => Q val L R height /\ every_node Q L /\ every_node Q R
  end.

(** No two nodes hold keys that are [==]. *)
Definition no_equal_keys (node : AVLNode) : Prop :=
  ForallOrdPairs (fun a b => py_eq a b = false) (keys node).

(** ** Two sets of keys *)

(** Integer keys. *)
Definition is_int (v : value) : Prop := exists n, v = VInt n.

(** The collaborator's composite keys [(score, candidate_id)], with an
    integer score. *)
Definition is_score_key (v : value) : Prop :=
  exists (score : Z) (candidate_id : string), v = VTuple [VInt score; VStr candidate_id].

(** ** Tree objects *)

(** A tree object over the keys [P]: a well-formed root and a [_size] that
    counts its nodes. *)
Definition tree_ok (P : value -> Prop) (self : AVLTree) : Prop :=
  wf P (root self) /\ _size self = count (root self).

(** The trees obtained from [AVLTree(max_size, max_depth)] by calls of
    [insert] and [delete] with keys from [P], whether a call returns or
    raises. *)
Inductive reachable (P : value -> Prop) (max_size : option Z) (max_depth : Z)
  : AVLTree -> Prop :=
| reach_init :
    reachable P max_size max_depth (AVLTree_init max_size max_depth)
| reach_insert (self self' : AVLTree) (key : value) (result : outcome bool) :
    reachable P max_size max_depth self ->
    P key ->
    insert self key = (self', result) ->
    reachable P max_size max_depth self'
| reach_delete (self self' : AVLTree) (key : value) (result : outcome bool) :
    reachable P max_size max_depth self ->
    P key ->
    delete self key = (self', result) ->
    reachable P max_size max_depth self'.

(** [sys.maxsize], the largest length a Python container can have (on a
    64-bit build; it is smaller on others). *)
Definition sys_maxsize : Z := 2 ^ 63 - 1.

(** A Python list: its length is at most [sys.maxsize]. *)
Definition python_list (l : list value) : Prop :=
  Z.of_nat (List.length l) <= sys_maxsize.

(** [n] nodes fit under [max_size]. *)
Definition below_max_size (self : AVLTree) (n : Z) : Prop :=
  match _max_size self with
  | None => True
  | Some max_size => n <= max_size
  end.

(** ** The shape built by ascending insertion *)

(** [from_list(to_list(T))] inserts the keys in ascending order.  The trees
    this builds have a particular shape: along the right spine every left
    subtree is perfect, and no taller than the right subtree next to it. *)
Fixpoint perfect (node : AVLNode) : Prop :=
  match node with
  | Absent => True
  | Node _ L R height =>
      perfect L /\ perfect R /\
      _get_height L = _get_height R /\ height = 1 + _get_height L
  end.

Fixpoint spine (node : AVLNode) : Prop :=
  match node with
  | Absent => True
  | Node _ L R height =>
      perfect L /\ spine R /\
      height = 1 + _get_height R /\
      (_get_height R = _get_height L \/ _get_height R = _get_height L + 1)
  end.

(** The right subtree of the root is one level taller than the left. *)
Definition right_heavy (node : AVLNode) : Prop :=
  match node with
  | Absent => False
  | Node _ L R _ => _get_height R = _get_height L + 1
  end.

(** ** The trees of the examples *)

(** The tree of the module's demonstration, [AVLTree(max_size=100,
    max_depth=50)] with 10, 20, 30, 40, 50, 25 inserted in that order; and
    the same after [delete(20)]. *)
Definition demo_tree : AVLTree :=
  fst (insert_calls (AVLTree_init (Some 100) 50)
         (map VInt [10; 20; 30; 40; 50; 25])).

Definition demo_tree_without_20 : AVLTree := fst (delete demo_tree (VInt 20)).

(** The tree [AVLTree(max_size=1)] after [insert(5)]. *)
Definition full_tree : AVLTree :=
  fst (insert (AVLTree_init (Some 1) default_max_depth) (VInt 5)).

(** The tree [AVLTree(max_size=1, max_depth=1)] after [insert(5)]. *)
Definition full_shallow_tree : AVLTree :=
  fst (insert (AVLTree_init (Some 1) 1) (VInt 5)).

(** The tree that holds the one composite key [(85, "C001")]. *)
Definition score_tree : AVLTree :=
  fst (insert (AVLTree_init None default_max_depth)
         (VTuple [VInt 85; VStr "C001"])).

(** ** Further vocabulary *)

(** [t] is [node] or a subtree of it. *)
Fixpoint is_subtree (t node : AVLNode) : Prop :=
  t = node \/
  match node with
  | Absent => False
  | Node _ L R _ => is_subtree t L \/ is_subtree t R
  end.

(** The least number of nodes of a balanced tree of height [h]:
    0, 1, 2, 4, 7, 12, 20, 33, ... *)
Fixpoint min_nodes (h : nat) : Z :=
  match h with
  | O => 0
  | S h' =>
      match h' with
      | O => 1
      | S h'' => 1 + min_nodes h' + min_nodes h''
      end
  end.

(** A bound that [_validate_avl] passes down a tree of integer keys: a key
    of the tree, or one of the two infinite floats. *)
Definition is_bound (v : value) : Prop :=
  is_int v \/ exists positive, v = VFloatInf positive.

(** The test of [_validate_avl] on a key: strictly between [lo] and [hi]. *)
Definition between (lo hi k : value) : Prop :=
  py_le k lo = Return false /\ py_ge k hi = Return false.

(** A tree object whose [_size] is right and whose root holds 1 with 2 as
    its left child: not a search tree. *)
Definition misordered_tree : AVLTree :=
  mkAVLTree (Node (VInt 1) (AVLNode_init (VInt 2)) Absent 2) 2 None
    default_max_depth.

(** ** The state of a tracker *)

(** The key under which [add_candidate] files a record in the score tree. *)
Definition score_key (candidate : CandidateScore) : value :=
  VTuple [score candidate; VStr (candidate_id candidate)].

(** The candidate id of such a key. *)
Definition key_id (key : value) : string :=
  match key with
  | VTuple [_; VStr candidate_id] => candidate_id
  | _ => EmptyString
  end.

(** The record is in the dictionary, under its own id. *)
Definition filed (candidates : dict CandidateScore) (candidate : CandidateScore)
  : Prop :=
  In (candidate_id candidate, candidate) candidates.

(** A record made from integer scores, with the domain scores of a Python
    dictionary: no domain twice. *)
Definition record_ok (id : string) (candidate : CandidateScore) : Prop :=
  candidate_id candidate = id /\
  is_int (score candidate) /\
  Forall (fun item => is_int (snd item)) (domain_scores candidate) /\
  NoDup (map fst (domain_scores candidate)).

(** A tree of a tracker: well formed over the composite keys, with the
    limits [__init__] gave it. *)
Definition tracker_tree_ok (max_candidates : Z) (tree : AVLTree) : Prop :=
  tree_ok is_score_key tree /\
  _max_size tree = Some max_candidates /\
  _max_depth tree = default_max_depth.

(** Every key of the tree is the key of a record of the dictionary, made
    with the score that [score_of] reads from the record. *)
Definition tree_filed (candidates : dict CandidateScore)
    (score_of : CandidateScore -> option value) (tree : AVLTree) : Prop :=
  forall key, In key (keys (root tree)) ->
  exists candidate s,
    filed candidates candidate /\
    score_of candidate = Some s /\
    key = VTuple [s; VStr (candidate_id candidate)].

Definition overall (candidate : CandidateScore) : option value :=
  Some (score candidate).

Definition in_domain (domain : string) (candidate : CandidateScore)
  : option value :=
  dict_get (domain_scores candidate) domain.

(** The invariant of a tracker: the dictionary has no id twice and holds
    records made from integer scores, and the trees hold keys of records of
    the dictionary only. *)
Definition tracker_ok (self : CandidateScoreTracker) : Prop :=
  NoDup (map fst (_candidates self)) /\
  (forall id candidate, In (id, candidate) (_candidates self) ->
     record_ok id candidate) /\
  tracker_tree_ok (max_candidates self) (_score_tree self) /\
  tree_filed (_candidates self) overall (_score_tree self) /\
  NoDup (map fst (_domain_trees self)) /\
  (forall domain tree, In (domain, tree) (_domain_trees self) ->
     tracker_tree_ok (max_candidates self) tree /\
     tree_filed (_candidates self) (in_domain domain) tree) /\
  (forall id candidate, In (id, candidate) (_candidates self) ->
     py_ge (score candidate) (passing_threshold self) = Return (passed candidate)).

(** The trackers obtained from [CandidateScoreTracker(passing_threshold,
    max_candidates)] by calls of [add_candidate] with integer scores, the
    overall one and those of the dictionary [domain_scores], and of
    [remove_candidate], whether a call returns or raises. *)
Inductive tracker_reachable (threshold : value) (m : Z)
  : CandidateScoreTracker -> Prop :=
| tracker_reach_init :
    tracker_reachable threshold m (CandidateScoreTracker_init threshold m)
| tracker_reach_add (self self' : CandidateScoreTracker)
    (id nm : string) (n : Z) (ds : dict value) (now : Z)
    (r : result CandidateScore) :
    tracker_reachable threshold m self ->
    Forall (fun item => is_int (snd item)) ds ->
    NoDup (map fst ds) ->
    add_candidate self id nm (VInt n) ds now = (self', r) ->
    tracker_reachable threshold m self'
| tracker_reach_remove (self self' : CandidateScoreTracker)
    (id : string) (r : result bool) :
    tracker_reachable threshold m self ->
    remove_candidate self id = (self', r) ->
    tracker_reachable threshold m self'.

(** The tracker of the examples: [CandidateScoreTracker(70, 2)] after
    [add_candidate("C001", "Ann", 85, {"safety": 90})],
    [add_candidate("C002", "Bob", 60, {})] and
    [add_candidate("C003", "Cy", 75, {})], the last of which finds the score
    tree full. *)
Definition demo_tracker_two : CandidateScoreTracker :=
  fst (add_candidate
         (fst (add_candidate (CandidateScoreTracker_init (VInt 70) 2)
                 "C001" "Ann" (VInt 85) [("safety"%string, VInt 90)] 1))
         "C002" "Bob" (VInt 60) [] 2).

Definition demo_tracker : CandidateScoreTracker :=
  fst (add_candidate demo_tracker_two "C003" "Cy" (VInt 75) [] 3).

(** The integer score of a key of the score tree. *)
Definition key_score (key : value) : Z :=
  match key with
  | VTuple [VInt s; _] => s
  | _ => 0
  end.

(** The order of the threshold listings: by descending score, and among
    equal scores by ascending key. *)
Definition listed_before (a b : value) : Prop :=
  key_score b < key_score a \/ (key_score a = key_score b /\ key_lt a b).

(** * Proofs *)

(** ** Basic facts *)

Lemma in_order_traversal_keys (node : AVLNode) (output : list value) :
  _in_order_traversal node output = output ++ keys node.
Proof.
  revert output; induction node as [|v l IHl r IHr h]; intros output; simpl.
  - now rewrite app_nil_r.
  - rewrite IHr, IHl, <- !app_assoc. reflexivity.
Qed.

Lemma avl_height_nonneg (node : AVLNode) : avl node -> 0 <= _get_height node.
Proof.
  induction node as [|v l IHl r IHr h]; cbn [avl _get_height]; [lia|].
  intros (Hl & Hr & Hh & Hb). specialize (IHl Hl). specialize (IHr Hr). lia.
Qed.

Lemma avl_height_real (node : AVLNode) :
  avl node -> _get_height node = real_height node.
Proof.
  induction node as [|v l IHl r IHr h]; cbn [avl _get_height real_height];
    [reflexivity|].
  intros (Hl & Hr & Hh & _). rewrite <- IHl, <- IHr by assumption. exact Hh.
Qed.

(** ** Rebalancing *)

(** A subtree whose cached height is known to be positive is a node. *)
Ltac is_node t :=
  let v := fresh "v" in let l := fresh "l" in
  let r := fresh "r" in let h := fresh "h" in
  destruct t as [|v l r h];
  [ exfalso; cbn [_get_height] in *; lia | ].

(** In a double rotation the second rotation finds a node where it looks:
    [_rebalance] cannot raise after it has written [node.left] or
    [node.right]. *)
Lemma second_rotation_returns (val : value) (L R : AVLNode) (height : Z) :
  (forall new_left, _rotate_left L = Return new_left ->
     exists y, _rotate_right (Node val new_left R height) = Return y) /\
  (forall new_right, _rotate_right R = Return new_right ->
     exists y, _rotate_left (Node val L new_right height) = Return y).
Proof.
  split; intros n Hn.
  - destruct L as [|v l [|v' l' r' h'] h]; simpl in Hn; try discriminate.
    injection Hn as <-. simpl. eauto.
  - destruct R as [|v [|v' l' r' h'] r h]; simpl in Hn; try discriminate.
    injection Hn as <-. simpl. eauto.
Qed.

Lemma rebalance_spec (val : value) (L R : AVLNode) (height : Z) :
  avl L -> avl R ->
  -2 <= _get_height L - _get_height R <= 2 ->
  height = 1 + Z.max (_get_height L) (_get_height R) ->
  exists node,
    _rebalance (Node val L R height) = Return node /\
    avl node /\
    keys node = keys L ++ val :: keys R /\
    count node = count L + 1 + count R /\
    (_get_height node = height \/ _get_height node = height - 1) /\
    (-1 <= _get_height L - _get_height R <= 1 -> node = Node val L R height).
Proof.
  intros HL HR Hb Hh.
  pose proof (avl_height_nonneg L HL) as HL0.
  pose proof (avl_height_nonneg R HR) as HR0.
  unfold _rebalance.
  cbn [_get_balance_factor].
  destruct (Z.gtb_spec (_get_height L - _get_height R) 1) as [Hgt|Hgt].
  - (* left-heavy *)
    is_node L. cbn [_get_height] in *. cbn [avl] in HL.
    destruct HL as (Hl & Hr & Hh0 & Hb0).
    pose proof (avl_height_nonneg l Hl). pose proof (avl_height_nonneg r Hr).
    cbn [_get_balance_factor].
    destruct (Z.geb_spec (_get_height l - _get_height r) 0) as [Hlb|Hlb].
    + (* left-left *)
      eexists; split; [reflexivity|].
      cbn [avl keys count _get_height].
      repeat (rewrite <- app_assoc; cbn [app]).
      repeat split; try assumption; try lia.
    + (* left-right *)
      is_node r. cbn [_get_height] in *. cbn [avl] in Hr.
      destruct Hr as (Hrl & Hrr & Hh1 & Hb1).
      pose proof (avl_height_nonneg l0 Hrl). pose proof (avl_height_nonneg r0 Hrr).
      eexists; split; [reflexivity|].
      cbn [avl keys count _get_height].
      repeat (rewrite <- app_assoc; cbn [app]).
      repeat split; try assumption; try lia.
  - destruct (Z.ltb_spec (_get_height L - _get_height R) (-1)) as [Hlt|Hlt].
    + (* right-heavy *)
      is_node R. cbn [_get_height] in *. cbn [avl] in HR.
      destruct HR as (Hl & Hr & Hh0 & Hb0).
      pose proof (avl_height_nonneg l Hl). pose proof (avl_height_nonneg r Hr).
      cbn [_get_balance_factor].
      destruct (Z.leb_spec (_get_height l - _get_height r) 0) as [Hrb|Hrb].
      * (* right-right *)
        eexists; split; [reflexivity|].
        cbn [avl keys count _get_height].
        repeat (rewrite <- app_assoc; cbn [app]).
        repeat split; try assumption; try lia.
      * (* right-left *)
        is_node l. cbn [_get_height] in *. cbn [avl] in Hl.
        destruct Hl as (Hll & Hlr & Hh1 & Hb1).
        pose proof (avl_height_nonneg l0 Hll). pose proof (avl_height_nonneg r0 Hlr).
        eexists; split; [reflexivity|].
        cbn [avl keys count _get_height].
        repeat (rewrite <- app_assoc; cbn [app]).
        repeat split; try assumption; try lia.
    + (* balanced *)
      eexists; split; [reflexivity|].
      cbn [avl keys count _get_height].
      repeat split; try assumption; try lia.
Qed.

(** ** Order facts *)

Section Order.

Variable P : value -> Prop.
Hypothesis HP : ordered_keys P.

Lemma key_lt_asym (a b : value) : P a -> P b -> key_lt a b -> ~ key_lt b a.
Proof.
  intros Pa Pb Hab Hba.
  exact (ok_irrefl HP Pa (ok_trans HP Pa Pb Pa Hab Hba)).
Qed.

(** The three ways the two tests [key < val] and [key > val] can go. *)
Lemma compare_cases (a b : value) :
  P a -> P b ->
  (py_lt a b = Return true /\ key_lt a b) \/
  (py_lt a b = Return false /\ py_gt a b = Return true /\ key_lt b a) \/
  (py_lt a b = Return false /\ py_gt a b = Return false /\ a = b).
Proof.
  intros Pa Pb.
  destruct (ok_decided HP Pa Pb) as [c Hc].
  destruct (ok_decided HP Pb Pa) as [d Hd].
  pose proof (ok_gt HP Pa Pb) as Hgt. rewrite Hd in Hgt.
  destruct c.
  - left. split; assumption.
  - right. destruct d.
    + left. repeat split; assumption.
    + right. repeat split; try assumption.
      destruct (ok_total HP Pa Pb) as [H|[H|H]]; unfold key_lt in H; congruence.
Qed.

Lemma ascending_app (l1 l2 : list value) :
  ascending (l1 ++ l2) <->
  ascending l1 /\ ascending l2 /\
  (forall x y, In x l1 -> In y l2 -> key_lt x y).
Proof.
  unfold ascending. induction l1 as [|a l1 IH]; cbn [app].
  - split.
    + intros H. repeat split; [constructor | assumption | intros x y []].
    + intros (_ & H & _). exact H.
  - split.
    + intros H. inversion H as [|? ? Hs Hf]; subst.
      apply IH in Hs. destruct Hs as (H1 & H2 & H3).
      rewrite Forall_app in Hf. destruct Hf as [Hf1 Hf2].
      repeat split; [constructor; assumption | assumption |].
      intros x y [<-|Hx] Hy.
      * rewrite Forall_forall in Hf2. auto.
      * auto.
    + intros (H1 & H2 & H3). inversion H1 as [|? ? Hs Hf]; subst.
      constructor.
      * apply IH. repeat split; try assumption.
        intros x y Hx Hy. apply H3; [right|]; assumption.
      * rewrite Forall_app. split; [assumption|].
        rewrite Forall_forall. intros y Hy. apply H3; [left; reflexivity|assumption].
Qed.

Lemma ascending_cons (a : value) (l : list value) :
  ascending (a :: l) <-> ascending l /\ (forall y, In y l -> key_lt a y).
Proof.
  unfold ascending. split.
  - intros H. inversion H as [|? ? Hs Hf]; subst.
    rewrite Forall_forall in Hf. split; assumption.
  - intros [Hs Hf]. constructor; [assumption|].
    rewrite Forall_forall. assumption.
Qed.

(** Around a key [v] of an ascending list. *)
Lemma ascending_mid (l1 l2 : list value) (v : value) :
  ascending (l1 ++ v :: l2) <->
  ascending l1 /\ ascending l2 /\
  (forall x, In x l1 -> key_lt x v) /\
  (forall y, In y l2 -> key_lt v y) /\
  (forall x y, In x l1 -> In y l2 -> key_lt x y).
Proof.
  rewrite ascending_app, ascending_cons. split.
  - intros (H1 & (H2 & H3) & H4). repeat split; try assumption.
    + intros x Hx. apply H4; [assumption|left; reflexivity].
    + intros x y Hx Hy. apply H4; [assumption|right; assumption].
  - intros (H1 & H2 & H3 & H4 & H5). repeat split; try assumption.
    intros x y Hx [<-|Hy]; auto.
Qed.

Lemma ascending_remove (l1 l2 : list value) (v : value) :
  ascending (l1 ++ v :: l2) -> ascending (l1 ++ l2).
Proof.
  rewrite ascending_mid, ascending_app. intros (H1 & H2 & _ & _ & H5).
  repeat split; assumption.
Qed.

(** A key of an ascending list occurs in it once. *)
Lemma ascending_not_in (l1 l2 : list value) (v : value) :
  Forall P (l1 ++ v :: l2) -> ascending (l1 ++ v :: l2) -> ~ In v (l1 ++ l2).
Proof.
  intros HPs Hs Hin. apply ascending_mid in Hs.
  destruct Hs as (_ & _ & H3 & H4 & _).
  assert (Pv : P v).
  { rewrite Forall_forall in HPs. apply HPs, in_elt. }
  apply in_app_or in Hin. destruct Hin as [Hin|Hin].
  - exact (ok_irrefl HP Pv (H3 _ Hin)).
  - exact (ok_irrefl HP Pv (H4 _ Hin)).
Qed.

(** Two ascending lists with the same keys are the same list. *)
Lemma ascending_ext (l l' : list value) :
  Forall P l -> ascending l -> ascending l' ->
  (forall x, In x l <-> In x l') -> l = l'.
Proof.
  revert l'. induction l as [|a l IH]; intros l' HPl Hl Hl' Hiff.
  - destruct l' as [|b l']; [reflexivity|].
    exfalso. apply (proj2 (Hiff b)). left; reflexivity.
  - destruct l' as [|b l'].
    { exfalso. apply (proj1 (Hiff a)). left; reflexivity. }
    apply ascending_cons in Hl. destruct Hl as [Hl Ha].
    apply ascending_cons in Hl'. destruct Hl' as [Hl' Hb].
    inversion HPl as [|? ? Pa HPl']; subst.
    assert (HPall : forall x, In x (a :: l) -> P x).
    { intros x Hx. rewrite Forall_forall in HPl. auto. }
    assert (Pb : P b).
    { apply HPall, Hiff. left; reflexivity. }
    assert (Heq : a = b).
    { destruct (proj1 (Hiff a) (or_introl eq_refl)) as [Hab|Hab]; [now symmetry|].
      destruct (proj2 (Hiff b) (or_introl eq_refl)) as [Hba|Hba]; [assumption|].
      exfalso. exact (key_lt_asym a b Pa Pb (Ha _ Hba) (Hb _ Hab)). }
    subst b. f_equal. apply IH; try assumption.
    intros x. split; intros Hx.
    + destruct (proj1 (Hiff x) (or_intror Hx)) as [Hax|]; [|assumption].
      subst x. exfalso. exact (ok_irrefl HP Pa (Ha _ Hx)).
    + destruct (proj2 (Hiff x) (or_intror Hx)) as [Hax|]; [|assumption].
      subst x. exfalso. exact (ok_irrefl HP Pa (Hb _ Hx)).
Qed.

End Order.

(** ** The recursive insertion *)

Section Insertion.

Variable P : value -> Prop.
Hypothesis HP : ordered_keys P.

Lemma wf_node (val : value) (L R : AVLNode) (height : Z) :
  wf P (Node val L R height) ->
  wf P L /\ wf P R /\ P val /\
  height = 1 + Z.max (_get_height L) (_get_height R) /\
  -1 <= _get_height L - _get_height R <= 1.
Proof.
  unfold wf. cbn [avl keys]. intros ((HL & HR & Hh & Hb) & Hs & HPs).
  apply ascending_mid in Hs. destruct Hs as (Hs1 & Hs2 & _).
  rewrite Forall_app in HPs. destruct HPs as [HP1 HP2].
  inversion HP2 as [|x xs Pv HPR]. repeat split; try assumption; lia.
Qed.

(** Below a key [val] of the tree, a smaller key can only be on the left. *)
Lemma in_left (key val : value) (l1 l2 : list value) :
  P key -> Forall P (l1 ++ val :: l2) -> ascending (l1 ++ val :: l2) ->
  key_lt key val -> (In key (l1 ++ val :: l2) <-> In key l1).
Proof.
  intros Pk HPs Hs Hlt.
  apply ascending_mid in Hs. destruct Hs as (_ & _ & _ & H4 & _).
  rewrite Forall_app in HPs. destruct HPs as [_ HP2]. inversion HP2 as [|x0 xs0 Pv HPR Ex].
  split; [|intros Hin; apply in_or_app; left; assumption].
  intros Hin. apply in_app_or in Hin. destruct Hin as [Hin|[Hin|Hin]]; [assumption| |].
  - subst key. exfalso. exact (ok_irrefl HP Pk Hlt).
  - exfalso. exact (key_lt_asym P HP key val Pk Pv Hlt (H4 _ Hin)).
Qed.

Lemma in_right (key val : value) (l1 l2 : list value) :
  P key -> Forall P (l1 ++ val :: l2) -> ascending (l1 ++ val :: l2) ->
  key_lt val key -> (In key (l1 ++ val :: l2) <-> In key l2).
Proof.
  intros Pk HPs Hs Hlt.
  apply ascending_mid in Hs. destruct Hs as (_ & _ & H3 & _ & _).
  rewrite Forall_app in HPs. destruct HPs as [_ HP2]. inversion HP2 as [|x0 xs0 Pv HPR Ex].
  split; [|intros Hin; apply in_or_app; right; right; assumption].
  intros Hin. apply in_app_or in Hin. destruct Hin as [Hin|[Hin|Hin]]; [| |assumption].
  - exfalso. exact (key_lt_asym P HP key val Pk Pv (H3 _ Hin) Hlt).
  - subst key. exfalso. exact (ok_irrefl HP Pk Hlt).
Qed.

(** On a node whose subtrees did not change, the closing statements change
    nothing. *)
Lemma update_and_rebalance_same (val : value) (L R : AVLNode) (height size : Z) :
  avl (Node val L R height) ->
  _update_and_rebalance (Node val L R height) size = Done (Node val L R height) size.
Proof.
  cbn [avl]. intros (HL & HR & Hh & Hb).
  unfold _update_and_rebalance. cbn [_update_height]. rewrite <- Hh.
  destruct (rebalance_spec val L R height HL HR ltac:(lia) Hh)
    as (node & E & _ & _ & _ & _ & Hsame).
  rewrite E, (Hsame Hb). reflexivity.
Qed.

(** On a node one of whose subtrees grew or shrank by one level. *)
Lemma update_and_rebalance_spec (val : value) (L R : AVLNode) (height size : Z) :
  avl L -> avl R ->
  -2 <= _get_height L - _get_height R <= 2 ->
  exists node,
    _update_and_rebalance (Node val L R height) size = Done node size /\
    avl node /\
    keys node = keys L ++ val :: keys R /\
    count node = count L + 1 + count R /\
    (_get_height node = 1 + Z.max (_get_height L) (_get_height R) \/
     _get_height node = Z.max (_get_height L) (_get_height R)) /\
    (-1 <= _get_height L - _get_height R <= 1 ->
     _get_height node = 1 + Z.max (_get_height L) (_get_height R)).
Proof.
  intros HL HR Hb.
  unfold _update_and_rebalance. cbn [_update_height].
  destruct (rebalance_spec val L R _ HL HR Hb eq_refl)
    as (node & E & Havl & Hk & Hc & Hh & Hsame).
  exists node. rewrite E. repeat split; try assumption.
  - lia.
  - intros Hb1. rewrite (Hsame Hb1). reflexivity.
Qed.

Lemma insert_recursive_spec (max_depth : Z) (key : value) :
  P key ->
  forall (node : AVLNode) (depth size : Z),
  wf P node ->
  depth + _get_height node <= max_depth ->
  (In key (keys node) ->
   _insert_recursive max_depth node key depth size = Done node size) /\
  (~ In key (keys node) ->
   exists node' l1 l2,
     _insert_recursive max_depth node key depth size = Done node' (size + 1) /\
     avl node' /\
     keys node = l1 ++ l2 /\
     keys node' = l1 ++ key :: l2 /\
     ascending (keys node') /\
     count node' = count node + 1 /\
     (_get_height node' = _get_height node \/
      _get_height node' = _get_height node + 1)).
Proof.
  intros Pk. induction node as [|val L IHL R IHR height]; intros depth size Hwf Hd.
  - cbn [_insert_recursive keys _get_height] in *.
    destruct (Z.gtb_spec depth max_depth); [lia|].
    split; [intros []|intros _].
    exists (AVLNode_init key), [], []. cbn.
    repeat split; try lia; try (right; reflexivity).
    repeat constructor.
  - pose proof Hwf as Hwf0.
    destruct (wf_node _ _ _ _ Hwf) as (HwL & HwR & Pv & Hh & Hb).
    destruct Hwf as (Havl & Hs & HPs). cbn [keys] in Hs, HPs.
    pose proof (avl_height_nonneg _ (proj1 HwL)) as HL0.
    pose proof (avl_height_nonneg _ (proj1 HwR)) as HR0.
    cbn [_get_height] in Hd.
    cbn [_insert_recursive keys _get_height].
    destruct (Z.gtb_spec depth max_depth); [lia|].
    destruct (compare_cases P HP key val Pk Pv)
      as [[E Hlt]|[(E1 & E2 & Hgt)|(E1 & E2 & Heq)]].
    + (* key < node.val *)
      rewrite E.
      destruct (IHL (depth + 1) size HwL ltac:(lia)) as [IHin IHnot].
      rewrite (in_left key val _ _ Pk HPs Hs Hlt).
      split; intros Hin.
      * rewrite (IHin Hin). apply update_and_rebalance_same. exact Havl.
      * destruct (IHnot Hin) as (L' & l1 & l2 & E' & HaL' & Hk & Hk' & Hs' & Hc & Hh').
        rewrite E'.
        destruct (update_and_rebalance_spec val L' R height (size + 1)
                    HaL' (proj1 HwR) ltac:(lia))
          as (node' & En & Havl' & Hkn & Hcn & Hhn & Hhn').
        exists node', l1, (l2 ++ val :: keys R).
        rewrite En, Hkn, Hk', Hk, Hcn, Hc. cbn [count].
        repeat (rewrite <- app_assoc; cbn [app]).
        repeat split; try assumption; try lia.
        change (ascending (l1 ++ (key :: l2) ++ val :: keys R)).
           rewrite app_assoc, <- Hk'. apply ascending_mid.
           rewrite Hk in Hs. apply ascending_mid in Hs.
           destruct Hs as (_ & Hs2 & Hs3 & Hs4 & Hs5).
           repeat split; try assumption.
        -- intros x Hx. rewrite Hk' in Hx.
              apply in_app_or in Hx. destruct Hx as [Hx|[<-|Hx]];
                [apply Hs3, in_or_app; left; assumption
                |assumption
                |apply Hs3, in_or_app; right; assumption].
        -- intros x y Hx Hy. rewrite Hk' in Hx.
              assert (Py : P y).
              { rewrite Forall_forall in HPs. apply HPs, in_or_app.
                right; right; assumption. }
              apply in_app_or in Hx. destruct Hx as [Hx|[<-|Hx]];
                [apply Hs5; [apply in_or_app; left|]; assumption
                |exact (ok_trans HP Pk Pv Py Hlt (Hs4 _ Hy))
                |apply Hs5; [apply in_or_app; right|]; assumption].
    + (* key > node.val *)
      rewrite E1, E2.
      destruct (IHR (depth + 1) size HwR ltac:(lia)) as [IHin IHnot].
      rewrite (in_right key val _ _ Pk HPs Hs Hgt).
      split; intros Hin.
      * rewrite (IHin Hin). apply update_and_rebalance_same. exact Havl.
      * destruct (IHnot Hin) as (R' & l1 & l2 & E' & HaR' & Hk & Hk' & Hs' & Hc & Hh').
        rewrite E'.
        destruct (update_and_rebalance_spec val L R' height (size + 1)
                    (proj1 HwL) HaR' ltac:(lia))
          as (node' & En & Havl' & Hkn & Hcn & Hhn & Hhn').
        exists node', (keys L ++ val :: l1), l2.
        rewrite En, Hkn, Hk', Hk, Hcn, Hc. cbn [count].
        repeat (rewrite <- app_assoc; cbn [app]).
        repeat split; try assumption; try lia.
        rewrite <- Hk'. apply ascending_mid.
           rewrite Hk in Hs. apply ascending_mid in Hs.
           destruct Hs as (Hs1 & _ & Hs3 & Hs4 & Hs5).
           repeat split; try assumption.
        -- intros x Hx. rewrite Hk' in Hx.
              apply in_app_or in Hx. destruct Hx as [Hx|[<-|Hx]];
                [apply Hs4, in_or_app; left; assumption
                |assumption
                |apply Hs4, in_or_app; right; assumption].
        -- intros x y Hx Hy. rewrite Hk' in Hy.
              assert (Px : P x).
              { rewrite Forall_forall in HPs. apply HPs, in_or_app.
                left; assumption. }
              apply in_app_or in Hy. destruct Hy as [Hy|[<-|Hy]];
                [apply Hs5; [|apply in_or_app; left]; assumption
                |exact (ok_trans HP Px Pv Pk (Hs3 _ Hx) Hgt)
                |apply Hs5; [|apply in_or_app; right]; assumption].
    + (* key == node.val *)
      rewrite E1, E2. subst val.
      split; [reflexivity|].
      intros Hnot. exfalso. apply Hnot, in_elt.
Qed.

End Insertion.

(** ** The recursive deletion *)

Section Deletion.

Variable P : value -> Prop.
Hypothesis HP : ordered_keys P.

(** The successor read by the two-child case is the first key of the right
    subtree. *)
Lemma get_min_node_spec (node : AVLNode) :
  node <> Absent ->
  exists (successor_val : value) (rest : list value),
    (successor <- _get_min_node node ;; get_val successor) = Return successor_val /\
    keys node = successor_val :: rest.
Proof.
  induction node as [|val L IHL R _ height]; intros Hne; [congruence|].
  cbn [_get_min_node keys]. destruct L as [|lval LL LR lheight].
  - exists val, (keys R). split; reflexivity.
  - destruct (IHL ltac:(discriminate)) as (s & rest & E & Hk).
    exists s, (rest ++ val :: keys R). split; [exact E|].
    rewrite Hk. reflexivity.
Qed.

(** An ascending list starts with its least key only. *)
Lemma ascending_head_split (s : value) (rest l1 l2 : list value) :
  P s -> ascending (s :: rest) -> s :: rest = l1 ++ s :: l2 ->
  l1 = [] /\ l2 = rest.
Proof.
  intros Ps Hs E. destruct l1 as [|a l1]; cbn [app] in E.
  - injection E as <-. split; reflexivity.
  - injection E as <- E. exfalso.
    apply ascending_cons in Hs. destruct Hs as [_ Hs].
    apply (ok_irrefl HP Ps), Hs. rewrite E. apply in_elt.
Qed.

Lemma delete_recursive_spec (node : AVLNode) :
  forall (key : value) (size : Z),
  P key ->
  wf P node ->
  (~ In key (keys node) -> _delete_recursive node key size = Done node size) /\
  (In key (keys node) ->
   exists node' l1 l2,
     _delete_recursive node key size = Done node' (size - 1) /\
     avl node' /\
     keys node = l1 ++ key :: l2 /\
     keys node' = l1 ++ l2 /\
     count node' = count node - 1 /\
     (_get_height node' = _get_height node \/
      _get_height node' = _get_height node - 1)).
Proof.
  induction node as [|val L IHL R IHR height]; intros key size Pk Hwf.
  - cbn [_delete_recursive keys]. split; [reflexivity|intros []].
  - destruct (wf_node P _ _ _ _ Hwf) as (HwL & HwR & Pv & Hh & Hb).
    destruct Hwf as (Havl & Hs & HPs). cbn [keys] in Hs, HPs.
    pose proof (avl_height_nonneg _ (proj1 HwL)) as HL0.
    pose proof (avl_height_nonneg _ (proj1 HwR)) as HR0.
    cbn [_delete_recursive keys _get_height count].
    destruct (compare_cases P HP key val Pk Pv)
      as [[E Hlt]|[(E1 & E2 & Hgt)|(E1 & E2 & Heq)]].
    + (* key < node.val *)
      rewrite E.
      destruct (IHL key size Pk HwL) as [IHnot IHin].
      rewrite (in_left P HP key val _ _ Pk HPs Hs Hlt).
      split; intros Hin.
      * rewrite (IHnot Hin). apply update_and_rebalance_same. exact Havl.
      * destruct (IHin Hin) as (L' & l1 & l2 & E' & HaL' & Hk & Hk' & Hc & Hh').
        rewrite E'.
        destruct (update_and_rebalance_spec val L' R height (size - 1)
                    HaL' (proj1 HwR) ltac:(lia))
          as (node' & En & Havl' & Hkn & Hcn & Hhn & Hhn').
        exists node', l1, (l2 ++ val :: keys R).
        rewrite En, Hkn, Hk', Hk, Hcn, Hc.
        repeat (rewrite <- app_assoc; cbn [app]).
        repeat split; try assumption; try lia.
    + (* key > node.val *)
      rewrite E1, E2.
      destruct (IHR key size Pk HwR) as [IHnot IHin].
      rewrite (in_right P HP key val _ _ Pk HPs Hs Hgt).
      split; intros Hin.
      * rewrite (IHnot Hin). apply update_and_rebalance_same. exact Havl.
      * destruct (IHin Hin) as (R' & l1 & l2 & E' & HaR' & Hk & Hk' & Hc & Hh').
        rewrite E'.
        destruct (update_and_rebalance_spec val L R' height (size - 1)
                    (proj1 HwL) HaR' ltac:(lia))
          as (node' & En & Havl' & Hkn & Hcn & Hhn & Hhn').
        exists node', (keys L ++ val :: l1), l2.
        rewrite En, Hkn, Hk', Hk, Hcn, Hc.
        repeat (rewrite <- app_assoc; cbn [app]).
        repeat split; try assumption; try lia.
    + (* key == node.val *)
      rewrite E1, E2. subst val.
      split; [intros Hnot; exfalso; apply Hnot, in_elt|intros _].
      destruct L as [|lval LL LR lheight].
      * (* no left child *)
        exists R, [], (keys R). cbn [keys count app _get_height] in *.
        repeat split; try apply HwR; try lia.
      * destruct R as [|rval RL RR rheight].
        -- (* no right child *)
           exists (Node lval LL LR lheight), (keys (Node lval LL LR lheight)), [].
           cbn [keys count app _get_height] in *. rewrite app_nil_r.
           repeat split; try apply HwL; try lia.
        -- (* two children *)
           set (Lt := Node lval LL LR lheight) in *.
           set (Rt := Node rval RL RR rheight) in *.
           destruct (get_min_node_spec Rt ltac:(discriminate))
             as (s & rest & Es & Hkr).
           rewrite Es.
           assert (Ps : P s).
           { destruct HwR as (_ & _ & HPR). rewrite Hkr in HPR.
             inversion HPR; assumption. }
           destruct (IHR s size Ps HwR) as [_ IHin].
           destruct (IHin ltac:(rewrite Hkr; left; reflexivity))
             as (R' & l1 & l2 & E' & HaR' & Hk & Hk' & Hc & Hh').
           rewrite E'.
           destruct (ascending_head_split s rest l1 l2 Ps) as [-> ->].
           { rewrite <- Hkr. apply HwR. }
           { rewrite <- Hkr. exact Hk. }
           cbn [app] in Hk'.
           destruct (update_and_rebalance_spec s Lt R' height (size - 1)
                       (proj1 HwL) HaR' ltac:(lia))
             as (node' & En & Havl' & Hkn & Hcn & Hhn & Hhn').
           exists node', (keys Lt), (keys Rt).
           rewrite En, Hkn, Hk', Hcn, Hc, Hkr.
           repeat split; try assumption; try lia.
Qed.

End Deletion.

(** ** The depth test of the recursive insertion *)

Lemma real_height_nonneg (node : AVLNode) : 0 <= real_height node.
Proof. induction node; cbn [real_height]; lia. Qed.

(** A call at depth [depth] on a subtree of height [h] visits depths up to
    [depth + h] only: two thresholds that are both at least that much give
    the same run, so the depth test is never the one that decides. *)
Lemma insert_recursive_depth_test_unused (key : value) (node : AVLNode) :
  forall (max_depth max_depth' depth size : Z),
  depth + real_height node <= max_depth ->
  depth + real_height node <= max_depth' ->
  _insert_recursive max_depth node key depth size
    = _insert_recursive max_depth' node key depth size.
Proof.
  induction node as [|val L IHL R IHR height];
    intros max_depth max_depth' depth size Hd Hd'.
  - cbn [_insert_recursive real_height] in *.
    destruct (Z.gtb_spec depth max_depth); [lia|].
    destruct (Z.gtb_spec depth max_depth'); [lia|]. reflexivity.
  - pose proof (real_height_nonneg L). pose proof (real_height_nonneg R).
    cbn [real_height] in Hd, Hd'. cbn [_insert_recursive].
    destruct (Z.gtb_spec depth max_depth); [lia|].
    destruct (Z.gtb_spec depth max_depth'); [lia|].
    rewrite (IHL max_depth max_depth' (depth + 1) size) by lia.
    rewrite (IHR max_depth max_depth' (depth + 1) size) by lia.
    reflexivity.
Qed.

(** ** The public methods on well-formed trees *)

Lemma with_root_same (self : AVLTree) :
  with_root self (root self) (_size self) = self.
Proof. destruct self; reflexivity. Qed.

Lemma keys_length_count (node : AVLNode) :
  Z.of_nat (List.length (keys node)) = count node.
Proof.
  induction node as [|val L IHL R IHR height]; cbn [keys count]; [reflexivity|].
  rewrite length_app. cbn [List.length]. lia.
Qed.

Section Methods.

Variable P : value -> Prop.
Hypothesis HP : ordered_keys P.

Lemma validate_key_ok (key : value) : P key -> _validate_key key = Return tt.
Proof.
  intros Pk.
  destruct (ok_decided HP Pk Pk) as [c Hc].
  pose proof (ok_gt HP Pk Pk) as Hgt. rewrite Hc in Hgt.
  pose proof (ok_not_None HP Pk) as Hn.
  unfold _validate_key. rewrite Hc. cbn [bind]. rewrite Hgt.
  destruct key; try reflexivity. congruence.
Qed.

(** Membership in an ascending list of keys can be tested with [==]. *)
Lemma in_keys_dec (key : value) (l : list value) :
  P key -> Forall P l -> In key l \/ ~ In key l.
Proof.
  intros Pk. induction 1 as [|a l Pa _ IH]; [right; intros []|].
  destruct IH as [IH|IH]; [left; right; assumption|].
  destruct (py_eq key a) eqn:E.
  - left; left. symmetry. apply (ok_eq HP Pk Pa), E.
  - right. intros [->|H]; [|contradiction].
    assert (py_eq key key = true) by (apply (ok_eq HP Pk Pk); reflexivity).
    congruence.
Qed.

Lemma insert_at_capacity (self : AVLTree) (key : value) :
  P key -> at_capacity self = true ->
  insert self key = (self, Raise AVLTreeCapacityError).
Proof.
  intros Pk Hc. unfold insert. rewrite (validate_key_ok key Pk), Hc. reflexivity.
Qed.

Lemma insert_too_deep (self : AVLTree) (key : value) :
  P key -> at_capacity self = false -> _max_depth self <= height self ->
  insert self key = (self, Raise AVLTreeDepthError).
Proof.
  intros Pk Hc Hd. unfold insert. rewrite (validate_key_ok key Pk), Hc.
  unfold height in Hd.
  destruct (Z.geb_spec (_get_height (root self)) (_max_depth self)); [reflexivity|lia].
Qed.

Lemma insert_present (self : AVLTree) (key : value) :
  P key -> wf P (root self) ->
  at_capacity self = false -> height self < _max_depth self ->
  In key (keys (root self)) ->
  insert self key = (self, Return false).
Proof.
  intros Pk Hwf Hc Hd Hin. unfold insert. rewrite (validate_key_ok key Pk), Hc.
  unfold height in Hd.
  destruct (Z.geb_spec (_get_height (root self)) (_max_depth self)); [lia|].
  destruct (insert_recursive_spec P HP (_max_depth self) key Pk (root self) 0
              (_size self) Hwf ltac:(lia)) as [Hsame _].
  rewrite (Hsame Hin), with_root_same, Z.gtb_ltb, Z.ltb_irrefl. reflexivity.
Qed.

Lemma insert_new (self : AVLTree) (key : value) :
  P key -> wf P (root self) ->
  at_capacity self = false -> height self < _max_depth self ->
  ~ In key (keys (root self)) ->
  exists node l1 l2,
    insert self key = (with_root self node (_size self + 1), Return true) /\
    wf P node /\
    keys (root self) = l1 ++ l2 /\
    keys node = l1 ++ key :: l2 /\
    count node = count (root self) + 1 /\
    (_get_height node = _get_height (root self) \/
     _get_height node = _get_height (root self) + 1).
Proof.
  intros Pk Hwf Hc Hd Hin. unfold insert. rewrite (validate_key_ok key Pk), Hc.
  unfold height in Hd.
  destruct (Z.geb_spec (_get_height (root self)) (_max_depth self)); [lia|].
  destruct (insert_recursive_spec P HP (_max_depth self) key Pk (root self) 0
              (_size self) Hwf ltac:(lia)) as [_ Hnew].
  destruct (Hnew Hin) as (node & l1 & l2 & E & Havl & Hk & Hk' & Hs & Hcnt & Hh).
  exists node, l1, l2. rewrite E.
  replace (_size self + 1 >? _size self) with true
    by (symmetry; apply Z.gtb_lt; lia).
  repeat split; try assumption.
  rewrite Hk'. destruct Hwf as (_ & _ & HPs). rewrite Hk in HPs.
  rewrite Forall_app in *. destruct HPs. split; [|constructor]; assumption.
Qed.

Lemma delete_absent (self : AVLTree) (key : value) :
  P key -> wf P (root self) -> ~ In key (keys (root self)) ->
  delete self key = (self, Return false).
Proof.
  intros Pk Hwf Hin. unfold delete. rewrite (validate_key_ok key Pk).
  destruct (delete_recursive_spec P HP (root self) key (_size self) Pk Hwf)
    as [Hsame _].
  rewrite (Hsame Hin), with_root_same, Z.ltb_irrefl. reflexivity.
Qed.

Lemma delete_present (self : AVLTree) (key : value) :
  P key -> wf P (root self) -> In key (keys (root self)) ->
  exists node l1 l2,
    delete self key = (with_root self node (_size self - 1), Return true) /\
    wf P node /\
    keys (root self) = l1 ++ key :: l2 /\
    keys node = l1 ++ l2 /\
    count node = count (root self) - 1 /\
    (_get_height node = _get_height (root self) \/
     _get_height node = _get_height (root self) - 1).
Proof.
  intros Pk Hwf Hin. unfold delete. rewrite (validate_key_ok key Pk).
  destruct (delete_recursive_spec P HP (root self) key (_size self) Pk Hwf)
    as [_ Hdel].
  destruct (Hdel Hin) as (node & l1 & l2 & E & Havl & Hk & Hk' & Hcnt & Hh).
  exists node, l1, l2. rewrite E.
  replace (_size self - 1 <? _size self) with true
    by (symmetry; apply Z.ltb_lt; lia).
  repeat split; try assumption.
  - rewrite Hk'. destruct Hwf as (_ & Hs & _). rewrite Hk in Hs.
    exact (ascending_remove _ _ _ Hs).
  - rewrite Hk'. destruct Hwf as (_ & _ & HPs). rewrite Hk in HPs.
    rewrite Forall_app in *. destruct HPs as [H1 H2].
    inversion H2; subst. split; assumption.
Qed.

(** Every call on a well-formed tree leaves a well-formed tree with the
    same limits, whatever it returns or raises. *)
Lemma insert_preserves (self self' : AVLTree) (key : value) (result : outcome bool) :
  P key -> tree_ok P self -> insert self key = (self', result) ->
  tree_ok P self' /\
  _max_size self' = _max_size self /\ _max_depth self' = _max_depth self.
Proof.
  intros Pk [Hwf Hsz] E.
  destruct (at_capacity self) eqn:Hc.
  { rewrite (insert_at_capacity self key Pk Hc) in E.
    injection E as <- _. split; [split; assumption|split; reflexivity]. }
  destruct (Z.le_gt_cases (_max_depth self) (height self)) as [Hd|Hd].
  { rewrite (insert_too_deep self key Pk Hc Hd) in E.
    injection E as <- _. split; [split; assumption|split; reflexivity]. }
  destruct (in_keys_dec key (keys (root self)) Pk (proj2 (proj2 Hwf))) as [Hin|Hin].
  - rewrite (insert_present self key Pk Hwf Hc Hd Hin) in E.
    injection E as <- _. split; [split; assumption|split; reflexivity].
  - destruct (insert_new self key Pk Hwf Hc Hd Hin)
      as (node & l1 & l2 & E' & Hwf' & _ & _ & Hcnt & _).
    rewrite E' in E. injection E as <- _. unfold tree_ok. cbn.
    repeat split; try apply Hwf'. lia.
Qed.

Lemma delete_preserves (self self' : AVLTree) (key : value) (result : outcome bool) :
  P key -> tree_ok P self -> delete self key = (self', result) ->
  tree_ok P self' /\
  _max_size self' = _max_size self /\ _max_depth self' = _max_depth self.
Proof.
  intros Pk [Hwf Hsz] E.
  destruct (in_keys_dec key (keys (root self)) Pk (proj2 (proj2 Hwf))) as [Hin|Hin].
  - destruct (delete_present self key Pk Hwf Hin)
      as (node & l1 & l2 & E' & Hwf' & _ & _ & Hcnt & _).
    rewrite E' in E. injection E as <- _. unfold tree_ok. cbn.
    repeat split; try apply Hwf'. lia.
  - rewrite (delete_absent self key Pk Hwf Hin) in E.
    injection E as <- _. split; [split; assumption|split; reflexivity].
Qed.

End Methods.

(** ** Two totally ordered sets of keys *)

(** Integer keys. *)
Lemma ints_ordered : ordered_keys is_int.
Proof.
  split.
  - intros a [n ->]. discriminate.
  - intros a b [m ->] [n ->]. eexists. reflexivity.
  - intros a b [m ->] [n ->]. unfold py_gt, py_lt. cbn.
    rewrite Z.gtb_ltb. reflexivity.
  - intros a [n ->]. unfold key_lt, py_lt. cbn. rewrite Z.ltb_irrefl. discriminate.
  - intros a b c [m ->] [n ->] [p ->]. unfold key_lt, py_lt. cbn.
    intros H1 H2. injection H1 as H1. injection H2 as H2. f_equal.
    apply Z.ltb_lt. apply Z.ltb_lt in H1, H2. lia.
  - intros a b [m ->] [n ->]. unfold key_lt, py_lt. cbn.
    destruct (Z.lt_total m n) as [H|[H|H]].
    + left. f_equal. apply Z.ltb_lt. exact H.
    + right; left. f_equal. exact H.
    + right; right. f_equal. apply Z.ltb_lt. exact H.
  - intros a b [m ->] [n ->]. cbn. rewrite Z.eqb_eq.
    split; [intros ->; reflexivity|intros H; injection H as H; exact H].
Qed.

Lemma string_compare_refl (s : string) : String.compare s s = Eq.
Proof. apply OrderedTypeEx.String_as_OT.cmp_eq. reflexivity. Qed.

Lemma score_key_lt (a b : Z) (s t : string) :
  key_lt (VTuple [VInt a; VStr s]) (VTuple [VInt b; VStr t]) <->
  a < b \/ (a = b /\ String.compare s t = Lt).
Proof.
  unfold key_lt, py_lt. cbn.
  destruct (Z.eqb_spec a b) as [->|Hab].
  - destruct (String.eqb_spec s t) as [->|Hst].
    + cbn. split; [discriminate|].
      intros [H|[_ H]]; [lia|].
      rewrite string_compare_refl in H. discriminate.
    + unfold str_op. split.
      * intros H. right. split; [reflexivity|].
        destruct (String.compare s t); try discriminate. reflexivity.
      * intros [H|[_ ->]]; [lia|reflexivity].
  - unfold int_op. split.
    + intros H. injection H as H. apply Z.ltb_lt in H. left; exact H.
    + intros [H|[H _]]; [|contradiction]. f_equal. apply Z.ltb_lt. exact H.
Qed.

Lemma score_keys_ordered : ordered_keys is_score_key.
Proof.
  split.
  - intros a (n & s & ->). discriminate.
  - intros a b (m & s & ->) (n & t & ->). unfold py_lt. cbn.
    destruct (m =? n); [destruct (String.eqb s t)|]; eexists; reflexivity.
  - intros a b (m & s & ->) (n & t & ->). unfold py_gt, py_lt. cbn.
    rewrite (Z.eqb_sym n m), (String.eqb_sym t s).
    destruct (m =? n); [destruct (String.eqb s t)|].
    + reflexivity.
    + unfold str_op. rewrite (String.compare_antisym t s).
      destruct (String.compare s t); reflexivity.
    + unfold int_op. rewrite Z.gtb_ltb. reflexivity.
  - intros a (n & s & ->). rewrite score_key_lt.
    intros [H|[_ H]]; [lia|].
    rewrite string_compare_refl in H. discriminate.
  - intros a b c (m & s & ->) (n & t & ->) (p & u & ->).
    rewrite !score_key_lt.
    intros [H1|[-> H1]] [H2|[-> H2]]; try (left; lia).
    right. split; [reflexivity|].
    apply OrderedTypeEx.String_as_OT.cmp_lt.
    apply OrderedTypeEx.String_as_OT.cmp_lt in H1, H2.
    exact (OrderedTypeEx.String_as_OT.lt_trans _ _ _ H1 H2).
  - intros a b (m & s & ->) (n & t & ->).
    rewrite !score_key_lt.
    destruct (Z.lt_total m n) as [H|[->|H]]; [left; left; exact H| |right; right; left; exact H].
    destruct (String.compare s t) eqn:E.
    + right; left. apply String.compare_eq_iff in E. subst. reflexivity.
    + left; right. split; reflexivity.
    + right; right; right. split; [reflexivity|].
      rewrite String.compare_antisym, E. reflexivity.
  - intros a b (m & s & ->) (n & t & ->). cbn.
    rewrite andb_true_r, andb_true_iff, Z.eqb_eq, String.eqb_eq.
    split; [intros [-> ->]; reflexivity|].
    intros H; injection H as -> ->. split; reflexivity.
Qed.

(** ** Trees reached from the empty tree *)

Lemma reachable_ok (P : value -> Prop) (max_size : option Z) (max_depth : Z)
    (self : AVLTree) :
  ordered_keys P ->
  reachable P max_size max_depth self ->
  tree_ok P self /\ _max_size self = max_size /\ _max_depth self = max_depth.
Proof.
  intros HP. induction 1 as [|self self' key r _ IH Pk E|self self' key r _ IH Pk E].
  - repeat split; cbn; constructor.
  - destruct IH as (Hok & Hms & Hmd).
    destruct (insert_preserves P HP self self' key _ Pk Hok E) as (Hok' & -> & ->).
    repeat split; assumption || apply Hok'.
  - destruct IH as (Hok & Hms & Hmd).
    destruct (delete_preserves P HP self self' key _ Pk Hok E) as (Hok' & -> & ->).
    repeat split; assumption || apply Hok'.
Qed.

(** From the list view of a well-formed tree to the invariant node by node. *)
Lemma all_keys_Forall (Q : value -> Prop) (node : AVLNode) :
  all_keys Q node <-> Forall Q (keys node).
Proof.
  induction node as [|val L IHL R IHR height]; cbn [all_keys keys].
  - split; constructor.
  - rewrite Forall_app, Forall_cons_iff, IHL, IHR. tauto.
Qed.

Lemma wf_every_node (P : value -> Prop) (node : AVLNode) :
  ordered_keys P -> wf P node -> every_node node_invariant node.
Proof.
  intros HP. induction node as [|val L IHL R IHR height]; intros Hwf; cbn [every_node].
  - exact I.
  - destruct (wf_node P _ _ _ _ Hwf) as (HwL & HwR & Pv & Hh & Hb).
    destruct Hwf as (_ & Hs & HPs). cbn [keys] in Hs, HPs.
    apply ascending_mid in Hs. destruct Hs as (_ & _ & H3 & H4 & _).
    split; [|split; [apply IHL|apply IHR]; assumption].
    unfold node_invariant. rewrite !all_keys_Forall, !Forall_forall.
    repeat split.
    + exact H3.
    + intros k Hk. rewrite (ok_gt HP); [exact (H4 k Hk)| |exact Pv].
      destruct HwR as (_ & _ & HPR). rewrite Forall_forall in HPR. auto.
    + exact Hh.
    + lia.
Qed.

Lemma wf_no_equal_keys (P : value -> Prop) (node : AVLNode) :
  ordered_keys P -> wf P node -> no_equal_keys node.
Proof.
  intros HP (_ & Hs & HPs). unfold no_equal_keys.
  induction Hs as [|a l Hs IH Hf]; [constructor|].
  inversion HPs as [|? ? Pa HPl]; subst.
  constructor; [|apply IH; assumption].
  rewrite Forall_forall in *. intros b Hb.
  destruct (py_eq a b) eqn:E; [|reflexivity].
  apply (ok_eq HP Pa (HPl b Hb)) in E. subst b.
  exfalso. exact (ok_irrefl HP Pa (Hf a Hb)).
Qed.

(** And back: a tree with the invariant at every node is well formed. *)
Lemma every_node_wf (P : value -> Prop) (node : AVLNode) :
  ordered_keys P ->
  Forall P (keys node) -> every_node node_invariant node -> wf P node.
Proof.
  intros HP. induction node as [|val L IHL R IHR height]; intros HPs Hinv.
  - repeat split; constructor.
  - cbn [keys] in HPs. pose proof HPs as HPs0.
    rewrite Forall_app, Forall_cons_iff in HPs0. destruct HPs0 as (HPL & Pv & HPR).
    cbn [every_node] in Hinv. destruct Hinv as ((HL & HR & Hh & Hb) & HiL & HiR).
    destruct (IHL HPL HiL) as (HaL & HsL & _).
    destruct (IHR HPR HiR) as (HaR & HsR & _).
    rewrite all_keys_Forall, Forall_forall in HL, HR.
    rewrite Forall_forall in HPL, HPR.
    assert (HR' : forall k, In k (keys R) -> key_lt val k).
    { intros k Hk. unfold key_lt. rewrite <- (ok_gt HP (HPR k Hk) Pv). auto. }
    split; [|split; [|exact HPs]].
    + cbn [avl]. repeat split; try assumption; lia.
    + cbn [keys]. apply ascending_mid. repeat split; try assumption.
      intros x y Hx Hy.
      exact (ok_trans HP (HPL x Hx) Pv (HPR y Hy) (HL x Hx) (HR' y Hy)).
Qed.

(** Every cached height is the height of the subtree. *)
Lemma avl_every_height_real (node : AVLNode) :
  avl node ->
  every_node (fun val L R height => height = real_height (Node val L R height)) node.
Proof.
  induction node as [|val L IHL R IHR height]; intros Havl; cbn [every_node]; [exact I|].
  split; [exact (avl_height_real _ Havl)|].
  cbn [avl] in Havl. destruct Havl as (HL & HR & _). auto.
Qed.

Lemma is_int_VInt (n : Z) : is_int (VInt n).
Proof. exists n. reflexivity. Qed.

(** A run of [insert] calls stays among the reachable trees. *)
Lemma reachable_insert_calls (P : value -> Prop) (max_size : option Z)
    (max_depth : Z) (keys : list value) :
  forall (self : AVLTree),
  reachable P max_size max_depth self ->
  Forall P keys ->
  reachable P max_size max_depth (fst (insert_calls self keys)).
Proof.
  induction keys as [|key keys IH]; intros self Hr HPs; [exact Hr|].
  cbn [insert_calls] in *.
  destruct (insert self key) as [self' result] eqn:E.
  destruct (insert_calls self' keys) as [final results] eqn:E'.
  cbn [fst] in *.
  inversion HPs as [|? ? Pk HPs']; subst.
  specialize (IH self'). rewrite E' in IH. apply IH; try assumption.
  exact (reach_insert P max_size max_depth self self' key result Hr Pk E).
Qed.

Lemma demo_tree_reachable : reachable is_int (Some 100) 50 demo_tree.
Proof.
  apply reachable_insert_calls.
  - apply reach_init.
  - repeat constructor; apply is_int_VInt.
Qed.

(** ** Size against height *)

Lemma count_nonneg (node : AVLNode) : 0 <= count node.
Proof. induction node; cbn [count]; lia. Qed.

(** A tree of height [h] has fewer than [2 ^ h] nodes. *)
Lemma avl_count_upper (node : AVLNode) :
  avl node -> count node + 1 <= 2 ^ _get_height node.
Proof.
  induction node as [|val L IHL R IHR height]; cbn [avl count _get_height].
  - intros _. cbn. lia.
  - intros (HL & HR & Hh & Hb).
    specialize (IHL HL). specialize (IHR HR).
    pose proof (avl_height_nonneg L HL). pose proof (avl_height_nonneg R HR).
    assert (2 ^ _get_height L <= 2 ^ (height - 1))
      by (apply Z.pow_le_mono_r; lia).
    assert (2 ^ _get_height R <= 2 ^ (height - 1))
      by (apply Z.pow_le_mono_r; lia).
    replace height with (Z.succ (height - 1)) at 1 by lia.
    rewrite Z.pow_succ_r by lia. lia.
Qed.

(** A balanced tree of height [h] has at least [2 ^ (h / 2) - 1] nodes. *)
Lemma avl_count_lower (node : AVLNode) :
  avl node -> 2 ^ (_get_height node / 2) <= count node + 1.
Proof.
  induction node as [|val L IHL R IHR height]; cbn [avl count _get_height].
  - intros _. cbn. lia.
  - intros (HL & HR & Hh & Hb).
    specialize (IHL HL). specialize (IHR HR).
    pose proof (avl_height_nonneg L HL). pose proof (avl_height_nonneg R HR).
    pose proof (count_nonneg L). pose proof (count_nonneg R).
    destruct (Z.eq_dec height 1) as [->|Hne].
    + cbn. lia.
    + assert (Hl2 : height / 2 - 1 <= _get_height L / 2)
        by (Z.to_euclidean_division_equations; lia).
      assert (Hr2 : height / 2 - 1 <= _get_height R / 2)
        by (Z.to_euclidean_division_equations; lia).
      assert (H02 : 0 <= height / 2 - 1)
        by (Z.to_euclidean_division_equations; lia).
      pose proof (Z.pow_le_mono_r 2 _ _ ltac:(lia) Hl2).
      pose proof (Z.pow_le_mono_r 2 _ _ ltac:(lia) Hr2).
      replace (height / 2) with (Z.succ (height / 2 - 1)) at 1 by lia.
      rewrite Z.pow_succ_r by exact H02. lia.
Qed.

(** With few enough nodes the height stays below [max_depth]. *)
Lemma height_below_max_depth (node : AVLNode) (max_depth : Z) :
  avl node -> count node + 1 < 2 ^ (max_depth / 2) ->
  _get_height node < max_depth.
Proof.
  intros Havl Hc. pose proof (avl_count_lower node Havl).
  destruct (Z.lt_ge_cases (_get_height node) max_depth) as [|Hge]; [assumption|].
  assert (H2 : max_depth / 2 <= _get_height node / 2)
    by (Z.to_euclidean_division_equations; lia).
  pose proof (Z.pow_le_mono_r 2 _ _ ltac:(lia) H2).
  lia.
Qed.

Lemma sys_maxsize_below_default_depth :
  sys_maxsize + 1 < 2 ^ (default_max_depth / 2).
Proof. reflexivity. Qed.

(** ** Runs of [insert] calls with new keys *)

Lemma insert_calls_fresh (P : value -> Prop) (new_keys : list value) :
  ordered_keys P ->
  forall (self : AVLTree),
  tree_ok P self ->
  Forall P new_keys ->
  NoDup new_keys ->
  (forall k, In k new_keys -> ~ In k (keys (root self))) ->
  below_max_size self (count (root self) + Z.of_nat (List.length new_keys)) ->
  count (root self) + Z.of_nat (List.length new_keys) < 2 ^ (_max_depth self / 2) ->
  exists final,
    insert_calls self new_keys = (final, map (fun _ => Return true) new_keys) /\
    tree_ok P final /\
    _max_size final = _max_size self /\
    _max_depth final = _max_depth self /\
    Permutation (new_keys ++ keys (root self)) (keys (root final)) /\
    count (root final) = count (root self) + Z.of_nat (List.length new_keys).
Proof.
  intros HP. induction new_keys as [|key rest IH];
    intros self Hok HPs Hnd Hfresh Hcap Hdepth.
  - exists self. cbn. repeat split; try apply Hok; try lia. apply Permutation_refl.
  - destruct Hok as [Hwf Hsz].
    inversion HPs as [|? ? Pk HPs']; subst.
    inversion Hnd as [|? ? Hnk Hnd']; subst.
    cbn [List.length] in Hcap, Hdepth.
    assert (Hc : at_capacity self = false).
    { unfold at_capacity. unfold below_max_size in Hcap.
      destruct (_max_size self) as [m|]; [|reflexivity].
      destruct (Z.geb_spec (_size self) m); [lia|reflexivity]. }
    assert (Hd : height self < _max_depth self).
    { apply height_below_max_depth; [apply Hwf|lia]. }
    destruct (insert_new P HP self key Pk Hwf Hc Hd
                (Hfresh key (or_introl eq_refl)))
      as (node & l1 & l2 & E & Hwf' & Hk & Hk' & Hcnt & _).
    set (self' := with_root self node (_size self + 1)) in *.
    destruct (IH self') as (final & E' & Hok' & Hms & Hmd & Hperm & Hcnt').
    + split; [exact Hwf'|]. cbn. lia.
    + exact HPs'.
    + exact Hnd'.
    + intros k Hk0. cbn [self' root with_root]. rewrite Hk'.
      intros Hin. apply in_app_or in Hin.
      destruct Hin as [Hin|[Hin|Hin]].
      * apply (Hfresh k (or_intror Hk0)). rewrite Hk. apply in_or_app. left; exact Hin.
      * subst k. contradiction.
      * apply (Hfresh k (or_intror Hk0)). rewrite Hk. apply in_or_app. right; exact Hin.
    + unfold below_max_size in *. cbn [self' root with_root _max_size].
      destruct (_max_size self); [|exact I]. lia.
    + cbn [self' root with_root _max_depth]. lia.
    + exists final. cbn [insert_calls]. rewrite E, E'. cbn [map].
      repeat split; try apply Hok'; try assumption.
      * cbn [self' root with_root] in Hperm. rewrite Hk' in Hperm.
        rewrite Hk. cbn [app].
        eapply Permutation_trans; [|exact Hperm].
        apply Permutation_sym.
        eapply Permutation_trans; [apply Permutation_app_comm|]. cbn [app].
        rewrite <- app_assoc. cbn [app].
        eapply Permutation_trans; [apply Permutation_sym, Permutation_middle|].
        apply perm_skip.
        eapply Permutation_trans; [|apply Permutation_app_comm].
        rewrite app_assoc. apply Permutation_refl.
      * cbn [self' root with_root] in Hcnt'. cbn [List.length]. lia.
Qed.

Lemma demo_tree_ok : tree_ok is_int demo_tree.
Proof.
  exact (proj1 (reachable_ok is_int (Some 100) 50 demo_tree ints_ordered
                  demo_tree_reachable)).
Qed.

(** ** Ascending insertion *)

Lemma perfect_height_nonneg (node : AVLNode) : perfect node -> 0 <= _get_height node.
Proof.
  induction node as [|val L IHL R IHR height]; cbn [perfect _get_height]; [lia|].
  intros (HL & _ & _ & ->). specialize (IHL HL). lia.
Qed.

Lemma perfect_spine (node : AVLNode) : perfect node -> spine node.
Proof.
  induction node as [|val L IHL R IHR height]; cbn [perfect spine]; [trivial|].
  intros (HL & HR & He & Hh). repeat split; auto; lia.
Qed.

Lemma spine_height_nonneg (node : AVLNode) : spine node -> 0 <= _get_height node.
Proof.
  induction node as [|val L IHL R IHR height]; cbn [spine _get_height]; [lia|].
  intros (_ & HR & -> & _). specialize (IHR HR). lia.
Qed.

Lemma spine_avl (node : AVLNode) : spine node -> avl node.
Proof.
  assert (Hp : forall t, perfect t -> avl t).
  { induction t as [|val L IHL R IHR height]; cbn [perfect avl]; [trivial|].
    intros (HL & HR & He & Hh). repeat split; auto; lia. }
  induction node as [|val L IHL R IHR height]; cbn [spine avl]; [trivial|].
  intros (HL & HR & Hh & Hd). repeat split; auto; lia.
Qed.

Lemma perfect_count (node : AVLNode) :
  perfect node -> count node + 1 = 2 ^ _get_height node.
Proof.
  induction node as [|val L IHL R IHR height]; cbn [perfect count _get_height].
  - intros _. reflexivity.
  - intros (HL & HR & He & ->). specialize (IHL HL). specialize (IHR HR).
    pose proof (perfect_height_nonneg L HL).
    replace (1 + _get_height L) with (Z.succ (_get_height L)) by lia.
    rewrite Z.pow_succ_r by assumption. rewrite <- He in IHR. lia.
Qed.

(** A tree of this shape with height [h >= 1] has at least [2 ^ (h - 1)]
    nodes: no tree with as many nodes is lower. *)
Lemma spine_count (node : AVLNode) :
  spine node -> 1 <= _get_height node -> 2 ^ (_get_height node - 1) <= count node.
Proof.
  induction node as [|val L IHL R IHR height]; cbn [spine count _get_height].
  - intros _ H. lia.
  - intros (HL & HR & -> & Hd) _.
    pose proof (perfect_count L HL) as HcL.
    pose proof (perfect_height_nonneg L HL) as HL0.
    pose proof (spine_height_nonneg R HR) as HR0.
    pose proof (count_nonneg R) as HcR.
    replace (1 + _get_height R - 1) with (_get_height R) by lia.
    destruct (Z.eq_dec (_get_height R) 0) as [E0|Hne].
    + rewrite E0. cbn. pose proof (count_nonneg L). lia.
    + specialize (IHR HR ltac:(lia)).
      assert (E : 2 ^ _get_height R = 2 * 2 ^ (_get_height R - 1)).
      { replace (_get_height R) with (Z.succ (_get_height R - 1)) at 1 by lia.
        apply Z.pow_succ_r. lia. }
      destruct Hd as [Hd|Hd].
      * rewrite <- Hd in HcL. lia.
      * replace (_get_height L) with (_get_height R - 1) in HcL by lia. lia.
Qed.

(** The closing statements when no rotation is due. *)
Lemma update_and_rebalance_balanced (val : value) (L R : AVLNode) (height size : Z) :
  -1 <= _get_height L - _get_height R <= 1 ->
  _update_and_rebalance (Node val L R height) size
    = Done (Node val L R (1 + Z.max (_get_height L) (_get_height R))) size.
Proof.
  intros Hb. unfold _update_and_rebalance, _rebalance.
  cbn [_update_height _get_balance_factor].
  destruct (Z.gtb_spec (_get_height L - _get_height R) 1); [lia|].
  destruct (Z.ltb_spec (_get_height L - _get_height R) (-1)); [lia|].
  reflexivity.
Qed.

(** The closing statements in the right-right case. *)
Lemma update_and_rebalance_right_right
    (val rval : value) (L RL RR : AVLNode) (height rheight size : Z) :
  _get_height L - rheight < -1 ->
  _get_height RL - _get_height RR <= 0 ->
  _update_and_rebalance (Node val L (Node rval RL RR rheight) height) size
    = Done (Node rval
              (Node val L RL (1 + Z.max (_get_height L) (_get_height RL)))
              RR
              (1 + Z.max (1 + Z.max (_get_height L) (_get_height RL))
                         (_get_height RR)))
           size.
Proof.
  intros Hb Hrb. unfold _update_and_rebalance, _rebalance.
  cbn [_update_height _get_balance_factor _get_height].
  destruct (Z.gtb_spec (_get_height L - rheight) 1); [lia|].
  destruct (Z.ltb_spec (_get_height L - rheight) (-1)); [|lia].
  destruct (Z.leb_spec (_get_height RL - _get_height RR) 0); [|lia].
  reflexivity.
Qed.

Section Ascending.

Variable P : value -> Prop.
Hypothesis HP : ordered_keys P.

(** How the two tests go for a key above [val]. *)
Lemma compare_above (key val : value) :
  P key -> P val -> key_lt val key ->
  py_lt key val = Return false /\ py_gt key val = Return true.
Proof.
  intros Pk Pv Hlt.
  destruct (compare_cases P HP key val Pk Pv)
    as [[_ H]|[(E1 & E2 & _)|(_ & _ & ->)]].
  - exfalso. exact (key_lt_asym P HP val key Pv Pk Hlt H).
  - split; assumption.
  - exfalso. exact (ok_irrefl HP Pv Hlt).
Qed.

(** Inserting a key above all the others keeps the shape; the height grows
    only when the tree was perfect. *)
Lemma insert_above_spine (max_depth : Z) (key : value) :
  P key ->
  forall (node : AVLNode) (depth size : Z),
  spine node ->
  Forall P (keys node) ->
  (forall k, In k (keys node) -> key_lt k key) ->
  depth + _get_height node <= max_depth ->
  exists node',
    _insert_recursive max_depth node key depth size = Done node' (size + 1) /\
    spine node' /\
    keys node' = keys node ++ [key] /\
    count node' = count node + 1 /\
    (_get_height node' = _get_height node \/
     (perfect node /\ _get_height node' = _get_height node + 1 /\
      (node = Absent \/ right_heavy node'))).
Proof.
  intros Pk. induction node as [|val L _ R IHR height];
    intros depth size Hsp HPs Hlt Hd.
  - cbn [_insert_recursive _get_height] in *.
    destruct (Z.gtb_spec depth max_depth); [lia|].
    exists (AVLNode_init key). unfold AVLNode_init.
    cbn [spine perfect keys count app _get_height].
    repeat split; try lia.
    right. repeat split. left; reflexivity.
  - cbn [spine] in Hsp. destruct Hsp as (HpL & HsR & Hh & Hdiff).
    cbn [keys] in HPs, Hlt. rewrite Forall_app, Forall_cons_iff in HPs.
    destruct HPs as (HPL & Pv & HPR).
    pose proof (perfect_height_nonneg L HpL) as HL0.
    pose proof (spine_height_nonneg R HsR) as HR0.
    cbn [_get_height] in Hd.
    destruct (compare_above key val Pk Pv (Hlt val (in_elt val _ _))) as [E1 E2].
    cbn [_insert_recursive]. rewrite E1, E2.
    destruct (Z.gtb_spec depth max_depth); [lia|].
    destruct (IHR (depth + 1) size HsR HPR) as (R' & E & HsR' & Hk & Hc & Hgrow).
    { intros k Hk. apply Hlt, in_or_app. right; right; exact Hk. }
    { lia. }
    rewrite E. cbn [keys count _get_height].
    destruct Hgrow as [Hsame|(HpR & Hup & Hshape)].
    + (* the right subtree kept its height *)
      rewrite update_and_rebalance_balanced by lia.
      eexists. split; [reflexivity|].
      cbn [spine keys count _get_height]. rewrite Hk, Hc, <- app_assoc.
      repeat split; try assumption; try lia.
    + (* the right subtree was perfect and grew *)
      destruct Hdiff as [Hdiff|Hdiff].
      * (* the whole tree was perfect *)
        rewrite update_and_rebalance_balanced by lia.
        eexists. split; [reflexivity|].
        cbn [spine perfect keys count _get_height right_heavy].
        rewrite Hk, Hc, <- app_assoc.
        repeat split; try assumption; try lia.
        right. repeat split; try assumption; try lia.
      * (* right-right rotation *)
        destruct Hshape as [->|Hshape]; [cbn [_get_height] in Hdiff; lia|].
        destruct R' as [|rval RL RR rheight]; [contradiction|].
        cbn [right_heavy] in Hshape. cbn [_get_height] in Hup.
        cbn [spine] in HsR'. destruct HsR' as (HpRL & HsRR & Hrh & _).
        rewrite update_and_rebalance_right_right by lia.
        eexists. split; [reflexivity|].
        cbn [spine perfect keys count _get_height] in *.
        repeat (rewrite <- app_assoc; cbn [app]). rewrite Hk.
        repeat split; try assumption; try lia.
Qed.

End Ascending.

(** ** Bulk loading *)

Section Loading.

Variable P : value -> Prop.
Hypothesis HP : ordered_keys P.

(** A reachable tree has at most [2 ^ (max_depth - 1)] nodes, and at most
    [max_size] of them unless it is empty. *)
Lemma reachable_bounds (max_size : option Z) (max_depth : Z) (self : AVLTree) :
  reachable P max_size max_depth self ->
  count (root self) <= 2 ^ (max_depth - 1) /\
  (count (root self) = 0 \/ below_max_size self (count (root self))).
Proof.
  induction 1 as [|self self' key r Hr IH Pk E|self self' key r Hr IH Pk E].
  - cbn. split; [apply Z.pow_nonneg; lia|left; reflexivity].
  - destruct (reachable_ok P max_size max_depth self HP Hr) as ([Hwf Hsz] & Hms & Hmd).
    destruct (at_capacity self) eqn:Hc.
    { rewrite (insert_at_capacity P HP self key Pk Hc) in E.
      injection E as <- _. exact IH. }
    destruct (Z.le_gt_cases (_max_depth self) (height self)) as [Hd|Hd].
    { rewrite (insert_too_deep P HP self key Pk Hc Hd) in E.
      injection E as <- _. exact IH. }
    destruct (in_keys_dec P HP key (keys (root self)) Pk (proj2 (proj2 Hwf)))
      as [Hin|Hin].
    + rewrite (insert_present P HP self key Pk Hwf Hc Hd Hin) in E.
      injection E as <- _. exact IH.
    + destruct (insert_new P HP self key Pk Hwf Hc Hd Hin)
        as (node & l1 & l2 & E' & Hwf' & _ & _ & Hcnt & _).
      rewrite E' in E. injection E as <- _. cbn [with_root root].
      unfold height in Hd. rewrite Hmd in Hd.
      pose proof (avl_count_upper (root self) (proj1 Hwf)) as Hup.
      pose proof (Z.pow_le_mono_r 2 (_get_height (root self)) (max_depth - 1)
                    ltac:(lia) ltac:(lia)).
      split; [lia|right].
      unfold below_max_size, at_capacity in *. cbn [with_root _max_size].
      destruct (_max_size self) as [m|]; [|exact I].
      destruct (Z.geb_spec (_size self) m); [discriminate|lia].
  - destruct (reachable_ok P max_size max_depth self HP Hr) as ([Hwf Hsz] & Hms & Hmd).
    destruct (in_keys_dec P HP key (keys (root self)) Pk (proj2 (proj2 Hwf)))
      as [Hin|Hin].
    + destruct (delete_present P HP self key Pk Hwf Hin)
        as (node & l1 & l2 & E' & Hwf' & Hk & _ & Hcnt & _).
      rewrite E' in E. injection E as <- _. cbn [with_root root].
      pose proof (count_nonneg node).
      destruct IH as [IH1 [IH2|IH2]]; [lia|].
      split; [lia|right].
      unfold below_max_size in *. cbn [with_root _max_size].
      destruct (_max_size self); [lia|exact I].
    + rewrite (delete_absent P HP self key Pk Hwf Hin) in E.
      injection E as <- _. exact IH.
Qed.

(** Loading an ascending list into a tree whose keys are all below it. *)
Lemma insert_each_ascending (l : list value) :
  forall (self : AVLTree),
  spine (root self) ->
  _size self = count (root self) ->
  ascending (keys (root self) ++ l) ->
  Forall P (keys (root self) ++ l) ->
  (l <> [] ->
   below_max_size self (count (root self) + Z.of_nat (List.length l))) ->
  count (root self) + Z.of_nat (List.length l) <= 2 ^ (_max_depth self - 1) ->
  exists final,
    insert_each self l = (final, Return tt) /\
    keys (root final) = keys (root self) ++ l.
Proof.
  induction l as [|key rest IH]; intros self Hsp Hsz Hs HPs Hcap Hdepth.
  - exists self. rewrite app_nil_r. split; reflexivity.
  - specialize (Hcap ltac:(discriminate)). cbn [List.length] in Hcap, Hdepth.
    pose proof HPs as HPs0. rewrite Forall_app, Forall_cons_iff in HPs0.
    destruct HPs0 as (HPt & Pk & HPrest).
    pose proof Hs as Hs0. apply ascending_mid in Hs0.
    destruct Hs0 as (_ & _ & Hbelow & _ & _).
    pose proof (spine_height_nonneg _ Hsp) as Hh0.
    pose proof (count_nonneg (root self)) as Hc0.
    assert (Hc : at_capacity self = false).
    { unfold at_capacity. unfold below_max_size in Hcap.
      destruct (_max_size self) as [m|]; [|reflexivity].
      destruct (Z.geb_spec (_size self) m); [lia|reflexivity]. }
    assert (Hd : _get_height (root self) < _max_depth self).
    { destruct (Z.lt_ge_cases (_get_height (root self)) (_max_depth self))
        as [|Hge]; [assumption|exfalso].
      destruct (Z.eq_dec (_get_height (root self)) 0) as [E0|Hne].
      - assert (2 ^ (_max_depth self - 1) = 0) by (apply Z.pow_neg_r; lia). lia.
      - pose proof (spine_count _ Hsp ltac:(lia)).
        pose proof (Z.pow_le_mono_r 2 (_max_depth self - 1)
                      (_get_height (root self) - 1) ltac:(lia) ltac:(lia)).
        lia. }
    destruct (insert_above_spine P HP (_max_depth self) key Pk (root self) 0
                (_size self) Hsp HPt Hbelow ltac:(lia))
      as (node & E & Hsp' & Hk & Hcnt & _).
    set (self' := with_root self node (_size self + 1)).
    assert (Ei : insert self key = (self', Return true)).
    { unfold insert. rewrite (validate_key_ok P HP key Pk), Hc.
      destruct (Z.geb_spec (_get_height (root self)) (_max_depth self)); [lia|].
      rewrite E. unfold self'. f_equal. f_equal. apply Z.gtb_lt. lia. }
    destruct (IH self') as (final & E' & Hk').
    + exact Hsp'.
    + cbn [self' with_root root _size]. lia.
    + cbn [self' with_root root]. rewrite Hk, <- app_assoc. exact Hs.
    + cbn [self' with_root root]. rewrite Hk, <- app_assoc. exact HPs.
    + intros _. unfold below_max_size in *. cbn [self' with_root root _max_size].
      destruct (_max_size self); [lia|exact I].
    + cbn [self' with_root root _max_depth]. lia.
    + exists final. cbn [insert_each]. rewrite Ei. split; [exact E'|].
      rewrite Hk'. cbn [self' with_root root]. rewrite Hk, <- app_assoc.
      reflexivity.
Qed.

(** [from_list(to_list(T))] on a reachable tree. *)
Lemma from_list_to_list (max_size : option Z) (max_depth : Z) (self : AVLTree) :
  reachable P max_size max_depth self ->
  exists self',
    from_list self (to_list self) = (self', Return tt) /\
    to_list self' = to_list self.
Proof.
  intros Hr.
  destruct (reachable_ok P max_size max_depth self HP Hr)
    as (((_ & Hs & HPs) & Hsz) & Hms & Hmd).
  destruct (reachable_bounds max_size max_depth self Hr) as [Hdepth Hcap].
  unfold from_list, to_list, in_order_traversal.
  rewrite in_order_traversal_keys. cbn [app].
  destruct (insert_each_ascending (keys (root self))
              (mkAVLTree Absent 0 (_max_size self) (_max_depth self)))
    as (final & E & Hk); cbn [root keys count _size _max_depth app].
  - exact I.
  - reflexivity.
  - exact Hs.
  - exact HPs.
  - intros Hne. rewrite keys_length_count.
    destruct Hcap as [Hcap|Hcap].
    + exfalso. apply Hne. rewrite <- keys_length_count in Hcap.
      destruct (keys (root self)); [reflexivity|discriminate].
    + exact Hcap.
  - rewrite keys_length_count, Hmd. lia.
  - exists final. split; [exact E|].
    rewrite in_order_traversal_keys, Hk. reflexivity.
Qed.

(** After a call of [insert] that returns, the key is in the tree, with the
    keys that were there. *)
Lemma insert_returns_member (self self' : AVLTree) (key : value) (b : bool) :
  P key -> tree_ok P self -> insert self key = (self', Return b) ->
  In key (keys (root self')) /\
  (forall x, In x (keys (root self)) -> In x (keys (root self'))).
Proof.
  intros Pk [Hwf Hsz] E.
  destruct (at_capacity self) eqn:Hc.
  { rewrite (insert_at_capacity P HP self key Pk Hc) in E. discriminate. }
  destruct (Z.le_gt_cases (_max_depth self) (height self)) as [Hd|Hd].
  { rewrite (insert_too_deep P HP self key Pk Hc Hd) in E. discriminate. }
  destruct (in_keys_dec P HP key (keys (root self)) Pk (proj2 (proj2 Hwf)))
    as [Hin|Hin].
  - rewrite (insert_present P HP self key Pk Hwf Hc Hd Hin) in E.
    injection E as <- _. split; [exact Hin|trivial].
  - destruct (insert_new P HP self key Pk Hwf Hc Hd Hin)
      as (node & l1 & l2 & E' & _ & Hk & Hk' & _).
    rewrite E' in E. injection E as <- _. cbn [with_root root].
    rewrite Hk, Hk'. split; [apply in_elt|].
    intros x Hx. apply in_app_or in Hx. apply in_or_app.
    destruct Hx; [left|right; right]; assumption.
Qed.

Lemma insert_each_members (l : list value) :
  forall (self final : AVLTree),
  Forall P l -> tree_ok P self -> insert_each self l = (final, Return tt) ->
  tree_ok P final /\
  (forall x, In x l -> In x (keys (root final))) /\
  (forall x, In x (keys (root self)) -> In x (keys (root final))).
Proof.
  induction l as [|key rest IH]; intros self final HPs Hok E.
  - cbn in E. injection E as <-. repeat split; trivial; try apply Hok. intros x [].
  - cbn [insert_each] in E. inversion HPs as [|? ? Pk HPs']; subst.
    destruct (insert self key) as [self' [b|e]] eqn:Ei; [|discriminate].
    destruct (insert_preserves P HP self self' key _ Pk Hok Ei) as (Hok' & _).
    destruct (insert_returns_member self self' key b Pk Hok Ei) as [Hin Hkeep].
    destruct (IH self' final HPs' Hok' E) as (Hokf & Hall & Hkeep').
    split; [exact Hokf|]. split.
    + intros x [<-|Hx]; auto.
    + auto.
Qed.

Lemma insert_each_app (l1 l2 : list value) :
  forall (self : AVLTree),
  insert_each self (l1 ++ l2) =
  match insert_each self l1 with
  | (loaded, Return _) => insert_each loaded l2
  | (loaded, Raise e) => (loaded, Raise e)
  end.
Proof.
  induction l1 as [|key l1 IH]; intros self; cbn [app insert_each]; [reflexivity|].
  destruct (insert self key) as [self' [b|e]]; [apply IH|reflexivity].
Qed.

(** A key met a second time by [from_list] is passed over, when the tree is
    then below both limits. *)
Lemma from_list_skips_duplicate
    (self loaded : AVLTree) (before after : list value) (key : value) :
  Forall P before ->
  from_list self before = (loaded, Return tt) ->
  In key before ->
  at_capacity loaded = false ->
  height loaded < _max_depth loaded ->
  insert loaded key = (loaded, Return false) /\
  from_list self (before ++ key :: after) = from_list self (before ++ after).
Proof.
  intros HPs E Hin Hc Hd. unfold from_list in *.
  assert (Hok0 : tree_ok P (mkAVLTree Absent 0 (_max_size self) (_max_depth self)))
    by (repeat split; cbn; constructor).
  destruct (insert_each_members before _ loaded HPs Hok0 E) as (Hok & Hall & _).
  assert (Pk : P key) by (rewrite Forall_forall in HPs; auto).
  pose proof (insert_present P HP loaded key Pk (proj1 Hok) Hc Hd (Hall key Hin))
    as Ei.
  split; [exact Ei|].
  rewrite !insert_each_app, E. cbn [insert_each]. rewrite Ei. reflexivity.
Qed.

End Loading.

(** ** The validator *)

(** On a tree whose root holds a composite key, [is_valid_avl()] raises at
    its first comparison, of the key with [float('-inf')]. *)
Lemma is_valid_avl_raises_on_score_keys
    (self : AVLTree) (val : value) (L R : AVLNode) (height : Z) :
  root self = Node val L R height ->
  is_score_key val ->
  is_valid_avl self = Raise TypeError.
Proof.
  intros E (score & candidate_id & ->). unfold is_valid_avl. rewrite E. reflexivity.
Qed.


Lemma int_lt_ge (a b : value) :
  is_int a -> is_int b -> key_lt a b ->
  py_ge a b = Return false /\ py_le b a = Return false.
Proof.
  intros [m ->] [n ->]. unfold key_lt, py_lt, py_ge, py_le. cbn.
  intros H. injection H as H. apply Z.ltb_lt in H.
  split; f_equal; [rewrite Z.geb_leb|]; apply Z.leb_gt; exact H.
Qed.

Lemma validate_avl_int_keys (node : AVLNode) :
  forall (min_val max_val : value),
  wf is_int node ->
  Forall (fun k => py_le k min_val = Return false /\
                   py_ge k max_val = Return false) (keys node) ->
  _validate_avl node min_val max_val = Return true.
Proof.
  induction node as [|val L IHL R IHR height]; intros min_val max_val Hwf Hin;
    [reflexivity|].
  destruct (wf_node is_int _ _ _ _ Hwf) as (HwL & HwR & Pv & Hh & Hb).
  destruct Hwf as (_ & Hs & HPs). cbn [keys] in Hs, HPs, Hin.
  apply ascending_mid in Hs. destruct Hs as (_ & _ & H3 & H4 & _).
  rewrite Forall_app, Forall_cons_iff in Hin. destruct Hin as (HinL & [Hv1 Hv2] & HinR).
  rewrite Forall_app, Forall_cons_iff in HPs. destruct HPs as (HPL & _ & HPR).
  cbn [_validate_avl _get_balance_factor]. rewrite Hv1. cbn [bind]. rewrite Hv2. cbn [bind].
  destruct (Z.gtb_spec (Z.abs (_get_height L - _get_height R)) 1); [lia|].
  rewrite <- Hh, Z.eqb_refl. cbn [negb].
  rewrite (IHL min_val val HwL), (IHR val max_val HwR); [reflexivity| |].
  - rewrite Forall_forall in *. intros k Hk. split.
    + exact (proj2 (int_lt_ge val k Pv (HPR k Hk) (H4 k Hk))).
    + exact (proj2 (HinR k Hk)).
  - rewrite Forall_forall in *. intros k Hk. split.
    + exact (proj1 (HinL k Hk)).
    + exact (proj1 (int_lt_ge k val (HPL k Hk) Pv (H3 k Hk))).
Qed.

(** On integer keys [is_valid_avl()] returns [True] on every reachable
    tree: the bounds [float('-inf')] and [float('inf')] compare with
    numbers. *)
Lemma is_valid_avl_int_keys (max_size : option Z) (max_depth : Z) (self : AVLTree) :
  reachable is_int max_size max_depth self ->
  is_valid_avl self = Return true.
Proof.
  intros Hr.
  destruct (reachable_ok is_int max_size max_depth self ints_ordered Hr)
    as ((Hwf & _) & _).
  apply validate_avl_int_keys; [exact Hwf|].
  destruct Hwf as (_ & _ & HPs). rewrite Forall_forall in *.
  intros k Hk. destruct (HPs k Hk) as [n ->]. split; reflexivity.
Qed.

(** * The properties of the specification *)

(** C1. In every tree reached from the empty tree by calls of [insert] and
    [delete] with keys of a totally ordered set, every node has the keys of
    its left subtree below its key and those of its right subtree above, a
    cached height equal to one more than the larger child height, and child
    heights that differ by at most one; no two nodes hold equal keys; and
    every cached height is the height of the subtree. *)
Theorem C1_invariants_after_every_mutation
    (P : value -> Prop) (max_size : option Z) (max_depth : Z) (self : AVLTree) :
  ordered_keys P ->
  reachable P max_size max_depth self ->
  every_node node_invariant (root self) /\
  no_equal_keys (root self) /\
  every_node (fun val L R height => height = real_height (Node val L R height))
    (root self).
Proof.
  intros HP Hr.
  destruct (reachable_ok P max_size max_depth self HP Hr) as ((Hwf & _) & _).
  split; [exact (wf_every_node P _ HP Hwf)|].
  split; [exact (wf_no_equal_keys P _ HP Hwf)|].
  exact (avl_every_height_real _ (proj1 Hwf)).
Qed.

Lemma C1_invariants_after_every_mutation_witness :
  ordered_keys is_int /\
  reachable is_int (Some 100) 50 demo_tree_without_20 /\
  every_node node_invariant (root demo_tree_without_20) /\
  no_equal_keys (root demo_tree_without_20) /\
  every_node (fun val L R height => height = real_height (Node val L R height))
    (root demo_tree_without_20).
Proof.
  assert (Hr : reachable is_int (Some 100) 50 demo_tree_without_20).
  { apply (reach_delete is_int (Some 100) 50 demo_tree _ (VInt 20) (Return true)).
    - exact demo_tree_reachable.
    - apply is_int_VInt.
    - vm_compute. reflexivity. }
  split; [exact ints_ordered|]. split; [exact Hr|].
  exact (C1_invariants_after_every_mutation is_int (Some 100) 50
           demo_tree_without_20 ints_ordered Hr).
Defined.

(** C2. Pairwise distinct keys of a totally ordered set, inserted in any
    order into [AVLTree()] (no [max_size], [max_depth] 1000): every [insert]
    returns [True], and [in_order_traversal()] is then the ascending
    arrangement of those keys, the only one there is.  The keys come as a
    Python list. *)
Theorem C2_in_order_traversal_sorts
    (P : value -> Prop) (new_keys : list value) :
  ordered_keys P ->
  Forall P new_keys ->
  NoDup new_keys ->
  python_list new_keys ->
  exists final,
    insert_calls (AVLTree_init None default_max_depth) new_keys
      = (final, map (fun _ => Return true) new_keys) /\
    Permutation new_keys (in_order_traversal final) /\
    ascending (in_order_traversal final) /\
    (forall sorted_keys,
       Permutation new_keys sorted_keys -> ascending sorted_keys ->
       in_order_traversal final = sorted_keys).
Proof.
  intros HP HPs Hnd Hlen. unfold python_list in Hlen.
  pose proof sys_maxsize_below_default_depth as Hbound.
  destruct (insert_calls_fresh P new_keys HP (AVLTree_init None default_max_depth))
    as (final & E & Hok & _ & _ & Hperm & _).
  - repeat split; cbn; constructor.
  - exact HPs.
  - exact Hnd.
  - intros k _ [].
  - exact I.
  - cbn [AVLTree_init root count _max_depth]. lia.
  - exists final. cbn [AVLTree_init root keys] in Hperm. rewrite app_nil_r in Hperm.
    unfold in_order_traversal. rewrite in_order_traversal_keys. cbn [app].
    destruct Hok as ((_ & Hs & HPf) & _).
    repeat split; try assumption.
    intros sorted_keys Hp Hs'.
    apply (ascending_ext P HP); try assumption.
    intros x. split; intros Hx.
    + apply (Permutation_in x Hp), (Permutation_in x (Permutation_sym Hperm)), Hx.
    + apply (Permutation_in x Hperm), (Permutation_in x (Permutation_sym Hp)), Hx.
Qed.

Lemma C2_in_order_traversal_sorts_witness :
  exists final,
    insert_calls (AVLTree_init None default_max_depth)
      (map VInt [10; 20; 30; 40; 50; 25])
      = (final, map (fun _ => Return true) (map VInt [10; 20; 30; 40; 50; 25])) /\
    Permutation (map VInt [10; 20; 30; 40; 50; 25]) (in_order_traversal final) /\
    ascending (in_order_traversal final) /\
    (forall sorted_keys,
       Permutation (map VInt [10; 20; 30; 40; 50; 25]) sorted_keys ->
       ascending sorted_keys ->
       in_order_traversal final = sorted_keys).
Proof.
  apply (C2_in_order_traversal_sorts is_int (map VInt [10; 20; 30; 40; 50; 25])
           ints_ordered).
  - repeat constructor; apply is_int_VInt.
  - repeat constructor; cbn; intuition discriminate.
  - vm_compute. discriminate.
Defined.

(** C3, as the code has it.  On a well-formed tree, [insert] of a key
    already present leaves the tree, its size included, as it was; it
    returns [False] when the tree is below [max_size] and its height below
    [max_depth], raises the capacity error when the tree has reached
    [max_size], and the depth error otherwise. *)
Theorem C3_duplicate_insert_leaves_tree_unchanged
    (P : value -> Prop) (self : AVLTree) (key : value) :
  ordered_keys P ->
  P key ->
  tree_ok P self ->
  In key (keys (root self)) ->
  insert self key =
  (self,
   if at_capacity self then Raise AVLTreeCapacityError
   else if height self >=? _max_depth self then Raise AVLTreeDepthError
   else Return false).
Proof.
  intros HP Pk [Hwf _] Hin.
  destruct (at_capacity self) eqn:Hc.
  { exact (insert_at_capacity P HP self key Pk Hc). }
  destruct (Z.geb_spec (height self) (_max_depth self)) as [Hd|Hd].
  { exact (insert_too_deep P HP self key Pk Hc Hd). }
  exact (insert_present P HP self key Pk Hwf Hc Hd Hin).
Qed.

Lemma C3_duplicate_insert_leaves_tree_unchanged_witness :
  In (VInt 25) (keys (root demo_tree)) /\
  insert demo_tree (VInt 25) = (demo_tree, Return false).
Proof.
  assert (Hin : In (VInt 25) (keys (root demo_tree))) by (vm_compute; tauto).
  split; [exact Hin|].
  exact (C3_duplicate_insert_leaves_tree_unchanged is_int demo_tree (VInt 25)
           ints_ordered (is_int_VInt 25) demo_tree_ok Hin).
Defined.

(** C3, as stated, fails on a full tree: [AVLTree(max_size=1)] holds 5, and
    a second [insert(5)] raises the capacity error instead of returning
    [False]. *)
Lemma C3_duplicate_insert_at_capacity_raises :
  reachable is_int (Some 1) default_max_depth full_tree /\
  In (VInt 5) (keys (root full_tree)) /\
  insert full_tree (VInt 5) = (full_tree, Raise AVLTreeCapacityError) /\
  snd (insert full_tree (VInt 5)) <> Return false.
Proof.
  split; [|split; [left; reflexivity|split; [reflexivity|discriminate]]].
  apply (reach_insert is_int (Some 1) default_max_depth
           (AVLTree_init (Some 1) default_max_depth) full_tree (VInt 5)
           (Return true)).
  - apply reach_init.
  - apply is_int_VInt.
  - reflexivity.
Qed.

(** C4, evaluated on a tree of composite keys: [insert((85, "C001"))] on the
    empty tree returns [True] and leaves a tree on which the invariant of C1
    holds, and [is_valid_avl()] then raises [TypeError], from the comparison
    of the key with [float('-inf')]. *)
Lemma C4_is_valid_avl_raises_on_tuple_keys :
  is_score_key (VTuple [VInt 85; VStr "C001"]) /\
  insert (AVLTree_init None default_max_depth) (VTuple [VInt 85; VStr "C001"])
    = (score_tree, Return true) /\
  reachable is_score_key None default_max_depth score_tree /\
  every_node node_invariant (root score_tree) /\
  py_le (VTuple [VInt 85; VStr "C001"]) (VFloatInf false) = Raise TypeError /\
  is_valid_avl score_tree = Raise TypeError.
Proof.
  assert (Pk : is_score_key (VTuple [VInt 85; VStr "C001"]))
    by (exists 85, "C001"%string; reflexivity).
  assert (Hr : reachable is_score_key None default_max_depth score_tree).
  { apply (reach_insert is_score_key None default_max_depth
             (AVLTree_init None default_max_depth) score_tree
             (VTuple [VInt 85; VStr "C001"]) (Return true)).
    - apply reach_init.
    - exact Pk.
    - reflexivity. }
  split; [exact Pk|]. split; [reflexivity|]. split; [exact Hr|].
  split; [|split; reflexivity].
  apply (wf_every_node is_score_key _ score_keys_ordered).
  apply (reachable_ok is_score_key None default_max_depth score_tree
           score_keys_ordered Hr).
Qed.

(** C5. On a well-formed tree, [delete] of a key that is present returns
    [True], lowers [_size] by one, leaves a tree whose in-order export is the
    previous one with that key taken out, and on which the invariant of C1
    holds. *)
Theorem C5_delete_present_key
    (P : value -> Prop) (self : AVLTree) (key : value) :
  ordered_keys P ->
  P key ->
  tree_ok P self ->
  In key (keys (root self)) ->
  exists self' before after,
    delete self key = (self', Return true) /\
    _size self' = _size self - 1 /\
    in_order_traversal self = before ++ key :: after /\
    in_order_traversal self' = before ++ after /\
    ~ In key (before ++ after) /\
    every_node node_invariant (root self') /\
    tree_ok P self'.
Proof.
  intros HP Pk [Hwf Hsz] Hin.
  destruct (delete_present P HP self key Pk Hwf Hin)
    as (node & l1 & l2 & E & Hwf' & Hk & Hk' & Hcnt & _).
  exists (with_root self node (_size self - 1)), l1, l2.
  unfold in_order_traversal, tree_ok. rewrite !in_order_traversal_keys.
  cbn [with_root root _size app].
  split; [exact E|]. split; [reflexivity|]. split; [exact Hk|].
  split; [exact Hk'|]. split; [|split; [|split]].
  - destruct Hwf as (_ & Hs & HPs). rewrite Hk in Hs, HPs.
    exact (ascending_not_in P HP l1 l2 key HPs Hs).
  - exact (wf_every_node P node HP Hwf').
  - exact Hwf'.
  - lia.
Qed.

Lemma C5_delete_present_key_witness :
  In (VInt 20) (keys (root demo_tree)) /\
  exists self' before after,
    delete demo_tree (VInt 20) = (self', Return true) /\
    _size self' = _size demo_tree - 1 /\
    in_order_traversal demo_tree = before ++ VInt 20 :: after /\
    in_order_traversal self' = before ++ after /\
    ~ In (VInt 20) (before ++ after) /\
    every_node node_invariant (root self') /\
    tree_ok is_int self'.
Proof.
  assert (Hin : In (VInt 20) (keys (root demo_tree))) by (vm_compute; tauto).
  split; [exact Hin|].
  exact (C5_delete_present_key is_int demo_tree (VInt 20)
           ints_ordered (is_int_VInt 20) demo_tree_ok Hin).
Defined.

(** The second scenario of the specification, evaluated. *)
Example delete_20_from_demo_tree :
  in_order_traversal demo_tree = map VInt [10; 20; 25; 30; 40; 50] /\
  delete demo_tree (VInt 20) = (demo_tree_without_20, Return true) /\
  in_order_traversal demo_tree_without_20 = map VInt [10; 25; 30; 40; 50] /\
  _size demo_tree_without_20 = 5.
Proof. repeat split. Qed.

(** C6. On a well-formed tree, [delete] of a key that is not present returns
    [False] and leaves the tree object as it was: same nodes, same cached
    heights, same [_size]. *)
Theorem C6_delete_absent_key
    (P : value -> Prop) (self : AVLTree) (key : value) :
  ordered_keys P ->
  P key ->
  tree_ok P self ->
  ~ In key (keys (root self)) ->
  delete self key = (self, Return false).
Proof.
  intros HP Pk [Hwf _] Hin.
  exact (delete_absent P HP self key Pk Hwf Hin).
Qed.

Lemma C6_delete_absent_key_witness :
  ~ In (VInt 99) (keys (root demo_tree)) /\
  delete demo_tree (VInt 99) = (demo_tree, Return false).
Proof.
  assert (Hin : ~ In (VInt 99) (keys (root demo_tree)))
    by (vm_compute; intuition discriminate).
  split; [exact Hin|].
  exact (C6_delete_absent_key is_int demo_tree (VInt 99)
           ints_ordered (is_int_VInt 99) demo_tree_ok Hin).
Defined.

(** C7. [AVLTree(max_size=N)] (with [max_depth] 1000): [insert] of [N]
    pairwise distinct keys of a totally ordered set returns [True] each
    time; [insert] of one more distinct key then raises the capacity error
    and leaves the tree object as it was, with [_size] equal to [N].  The
    [N] keys come as a Python list. *)
Theorem C7_capacity_boundary
    (P : value -> Prop) (N : Z) (new_keys : list value) (extra : value) :
  ordered_keys P ->
  Forall P (extra :: new_keys) ->
  NoDup (extra :: new_keys) ->
  Z.of_nat (List.length new_keys) = N ->
  python_list new_keys ->
  exists full,
    insert_calls (AVLTree_init (Some N) default_max_depth) new_keys
      = (full, map (fun _ => Return true) new_keys) /\
    _size full = N /\
    insert full extra = (full, Raise AVLTreeCapacityError).
Proof.
  intros HP HPs Hnd Hlen HN. unfold python_list in HN.
  inversion HPs as [|? ? Pe HPs']; subst.
  inversion Hnd as [|? ? _ Hnd']; subst.
  pose proof sys_maxsize_below_default_depth as Hbound.
  destruct (insert_calls_fresh P new_keys HP
              (AVLTree_init (Some (Z.of_nat (List.length new_keys)))
                 default_max_depth))
    as (full & E & Hok & Hms & _ & _ & Hcnt).
  - repeat split; cbn; constructor.
  - exact HPs'.
  - exact Hnd'.
  - intros k _ [].
  - unfold below_max_size. cbn [AVLTree_init root count _max_size]. lia.
  - cbn [AVLTree_init root count _max_depth]. lia.
  - exists full. cbn [AVLTree_init root count _max_size] in Hms, Hcnt.
    destruct Hok as [Hwf Hsz].
    split; [exact E|]. split; [lia|].
    apply (insert_at_capacity P HP full extra Pe).
    unfold at_capacity. rewrite Hms. apply Z.geb_le. lia.
Qed.

Lemma C7_capacity_boundary_witness :
  exists full,
    insert_calls (AVLTree_init (Some 3) default_max_depth) (map VInt [0; 1; 2])
      = (full, map (fun _ => Return true) (map VInt [0; 1; 2])) /\
    _size full = 3 /\
    insert full (VInt 3) = (full, Raise AVLTreeCapacityError).
Proof.
  apply (C7_capacity_boundary is_int 3 (map VInt [0; 1; 2]) (VInt 3) ints_ordered).
  - repeat constructor; apply is_int_VInt.
  - repeat constructor; cbn; intuition discriminate.
  - reflexivity.
  - vm_compute. discriminate.
Defined.

(** C8. For [None], and for a key on which [key < key] or [key > key] raises
    [TypeError], each of [insert], [delete] and [search] raises the
    key-validity error and leaves the tree object as it was; this holds for
    every tree object, whatever its fields, since nothing of it is read. *)
Theorem C8_invalid_key_rejected (self : AVLTree) (key : value) :
  key = VNone \/
  py_lt key key = Raise TypeError \/
  (exists b, py_lt key key = Return b /\ py_gt key key = Raise TypeError) ->
  insert self key = (self, Raise AVLTreeKeyError) /\
  delete self key = (self, Raise AVLTreeKeyError) /\
  search self key = (self, Raise AVLTreeKeyError).
Proof.
  intros H.
  assert (E : _validate_key key = Raise AVLTreeKeyError).
  { destruct H as [->|[H|(b & H1 & H2)]]; [reflexivity| |];
      unfold _validate_key; [rewrite H|rewrite H1; cbn [bind]; rewrite H2];
      destruct key; reflexivity. }
  unfold insert, delete, search. rewrite E. repeat split.
Qed.

Lemma C8_invalid_key_rejected_witness :
  insert demo_tree (VObject 1) = (demo_tree, Raise AVLTreeKeyError) /\
  delete demo_tree (VObject 1) = (demo_tree, Raise AVLTreeKeyError) /\
  search demo_tree (VObject 1) = (demo_tree, Raise AVLTreeKeyError).
Proof.
  apply (C8_invalid_key_rejected demo_tree (VObject 1)).
  right; left. reflexivity.
Defined.

(** The fifth scenario of the specification: [insert(None)] on the empty
    tree. *)
Example insert_None_into_empty_tree :
  insert (AVLTree_init None default_max_depth) VNone
    = (AVLTree_init None default_max_depth, Raise AVLTreeKeyError).
Proof. reflexivity. Qed.

(** C9, as the code has it.  For every tree [T] reached from the empty tree,
    [from_list(to_list(T))] returns and leaves a tree whose export is
    [to_list(T)].  [from_list(keys)] is [clear()] followed by [insert(k)] for
    each [k] of [keys] in order, up to the first call that raises.  A key of
    the input that was met before is passed over, with [insert] returning
    [False], provided the tree is then below [max_size] and its height below
    [max_depth]. *)
Theorem C9_from_list_round_trip (P : value -> Prop) :
  ordered_keys P ->
  (forall (max_size : option Z) (max_depth : Z) (self : AVLTree),
     reachable P max_size max_depth self ->
     exists self',
       from_list self (to_list self) = (self', Return tt) /\
       to_list self' = to_list self) /\
  (forall (self : AVLTree) (new_keys : list value),
     from_list self new_keys = insert_each (clear self) new_keys) /\
  (forall (self loaded : AVLTree) (before after : list value) (key : value),
     Forall P before ->
     from_list self before = (loaded, Return tt) ->
     In key before ->
     at_capacity loaded = false ->
     height loaded < _max_depth loaded ->
     insert loaded key = (loaded, Return false) /\
     from_list self (before ++ key :: after) = from_list self (before ++ after)).
Proof.
  intros HP. split; [|split].
  - exact (from_list_to_list P HP).
  - reflexivity.
  - exact (from_list_skips_duplicate P HP).
Qed.

Lemma C9_from_list_round_trip_witness :
  (exists self',
     from_list demo_tree (to_list demo_tree) = (self', Return tt) /\
     to_list self' = to_list demo_tree) /\
  from_list demo_tree (map VInt [3; 1; 2])
    = insert_each (clear demo_tree) (map VInt [3; 1; 2]) /\
  from_list demo_tree (map VInt [3; 1] ++ VInt 3 :: map VInt [2])
    = from_list demo_tree (map VInt [3; 1] ++ map VInt [2]).
Proof.
  destruct (C9_from_list_round_trip is_int ints_ordered) as (Hrt & Heq & Hdup).
  split; [exact (Hrt (Some 100) 50 demo_tree demo_tree_reachable)|].
  split; [exact (Heq demo_tree (map VInt [3; 1; 2]))|].
  refine (proj2 (Hdup demo_tree
                   (fst (from_list demo_tree (map VInt [3; 1])))
                   (map VInt [3; 1]) (map VInt [2]) (VInt 3) _ _ _ _ _)).
  - repeat constructor; apply is_int_VInt.
  - reflexivity.
  - left; reflexivity.
  - reflexivity.
  - reflexivity.
Defined.

(** C9, as stated, fails on a duplicate that arrives when the tree is full:
    on [AVLTree(max_size=2)], [from_list([1, 2])] returns, and
    [from_list([1, 2, 2])] raises the capacity error at the second 2, which
    is not passed over. *)
Lemma C9_duplicate_at_capacity_raises :
  snd (from_list (AVLTree_init (Some 2) default_max_depth) (map VInt [1; 2]))
    = Return tt /\
  snd (from_list (AVLTree_init (Some 2) default_max_depth) (map VInt [1; 2; 2]))
    = Raise AVLTreeCapacityError /\
  snd (insert_calls (clear (AVLTree_init (Some 2) default_max_depth))
         (map VInt [1; 2; 2]))
    = [Return true; Return true; Raise AVLTreeCapacityError] /\
  from_list (AVLTree_init (Some 2) default_max_depth) (map VInt [1; 2; 2])
    <> from_list (AVLTree_init (Some 2) default_max_depth) (map VInt [1; 2]).
Proof. repeat split. discriminate. Qed.

(** C10, as the code has it.  On a well-formed tree and for a key of its
    totally ordered set, [insert] raises the depth error exactly when the
    tree is not at capacity and its height is at least [max_depth].  When
    the height is below [max_depth], the recursive procedure returns, and it
    runs the same under every other threshold that is at least the height:
    its own depth test never fires. *)
Theorem C10_depth_error_iff
    (P : value -> Prop) (self : AVLTree) (key : value) :
  ordered_keys P ->
  P key ->
  tree_ok P self ->
  (snd (insert self key) = Raise AVLTreeDepthError <->
   at_capacity self = false /\ _max_depth self <= height self) /\
  (height self < _max_depth self ->
   forall size,
     (exists node size',
        _insert_recursive (_max_depth self) (root self) key 0 size
          = Done node size') /\
     (forall max_depth',
        height self <= max_depth' ->
        _insert_recursive max_depth' (root self) key 0 size
          = _insert_recursive (_max_depth self) (root self) key 0 size)).
Proof.
  intros HP Pk [Hwf Hsz]. split.
  - destruct (at_capacity self) eqn:Hc.
    { rewrite (insert_at_capacity P HP self key Pk Hc). cbn [snd].
      split; [discriminate|intros [? _]; discriminate]. }
    destruct (Z.le_gt_cases (_max_depth self) (height self)) as [Hd|Hd].
    { rewrite (insert_too_deep P HP self key Pk Hc Hd). cbn [snd].
      split; [intros _; split; [reflexivity|exact Hd]|reflexivity]. }
    destruct (in_keys_dec P HP key (keys (root self)) Pk (proj2 (proj2 Hwf)))
      as [Hin|Hin].
    + rewrite (insert_present P HP self key Pk Hwf Hc Hd Hin). cbn [snd].
      split; [discriminate|intros [_ ?]; lia].
    + destruct (insert_new P HP self key Pk Hwf Hc Hd Hin) as (node & l1 & l2 & E & _).
      rewrite E. cbn [snd].
      split; [discriminate|intros [_ ?]; lia].
  - intros Hd size. unfold height in *. split.
    + destruct (insert_recursive_spec P HP (_max_depth self) key Pk (root self) 0
                  size Hwf ltac:(lia)) as [Hsame Hnew].
      destruct (in_keys_dec P HP key (keys (root self)) Pk (proj2 (proj2 Hwf)))
        as [Hin|Hin].
      * exists (root self), size. exact (Hsame Hin).
      * destruct (Hnew Hin) as (node & _ & _ & E & _).
        exists node, (size + 1). exact E.
    + intros max_depth' Hd'.
      rewrite (avl_height_real _ (proj1 Hwf)) in Hd, Hd'.
      apply insert_recursive_depth_test_unused; lia.
Qed.

Lemma C10_depth_error_iff_witness :
  (snd (insert demo_tree (VInt 60)) = Raise AVLTreeDepthError <->
   at_capacity demo_tree = false /\ _max_depth demo_tree <= height demo_tree) /\
  (height demo_tree < _max_depth demo_tree ->
   forall size,
     (exists node size',
        _insert_recursive (_max_depth demo_tree) (root demo_tree) (VInt 60) 0 size
          = Done node size') /\
     (forall max_depth',
        height demo_tree <= max_depth' ->
        _insert_recursive max_depth' (root demo_tree) (VInt 60) 0 size
          = _insert_recursive (_max_depth demo_tree) (root demo_tree) (VInt 60) 0
              size)).
Proof.
  exact (C10_depth_error_iff is_int demo_tree (VInt 60)
           ints_ordered (is_int_VInt 60) demo_tree_ok).
Defined.

(** C10, as stated, fails when the capacity test comes first:
    [AVLTree(max_size=1, max_depth=1)] holds 5, its height 1 is at least
    [max_depth], and [insert(6)] raises the capacity error, not the depth
    error. *)
Lemma C10_capacity_error_comes_first :
  reachable is_int (Some 1) 1 full_shallow_tree /\
  _max_depth full_shallow_tree <= height full_shallow_tree /\
  insert full_shallow_tree (VInt 6)
    = (full_shallow_tree, Raise AVLTreeCapacityError) /\
  snd (insert full_shallow_tree (VInt 6)) <> Raise AVLTreeDepthError.
Proof.
  split; [|split; [|split]].
  - apply (reach_insert is_int (Some 1) 1
             (AVLTree_init (Some 1) 1) full_shallow_tree (VInt 5) (Return true)).
    + apply reach_init.
    + apply is_int_VInt.
    + reflexivity.
  - vm_compute. discriminate.
  - reflexivity.
  - vm_compute. discriminate.
Qed.

(** ** The scenarios of the specification, evaluated *)

(** Scenario 1: the export after 10, 20, 30, 40, 50, 25, and the validator
    after each insertion. *)
Example scenario_insert_six_keys :
  in_order_traversal demo_tree = map VInt [10; 20; 25; 30; 40; 50] /\
  map (fun n => is_valid_avl
                  (fst (insert_calls (AVLTree_init (Some 100) 50)
                          (firstn n (map VInt [10; 20; 30; 40; 50; 25])))))
      [1; 2; 3; 4; 5; 6]%nat
    = repeat (Return true) 6.
Proof. split; reflexivity. Qed.

(** Scenario 3: [search(99)] finds nothing, [search(25)] finds the node. *)
Example scenario_search :
  search demo_tree (VInt 99) = (demo_tree, Return Absent) /\
  search demo_tree (VInt 25) = (demo_tree, Return (AVLNode_init (VInt 25))).
Proof. split; reflexivity. Qed.

(** Scenario 6: after 1, 2, 3 the root is 2; up to 7 the tree stays valid,
    and ends perfect. *)
Example scenario_insert_one_to_seven :
  root (fst (insert_calls (AVLTree_init None default_max_depth) (map VInt [1; 2; 3])))
    = Node (VInt 2) (AVLNode_init (VInt 1)) (AVLNode_init (VInt 3)) 2 /\
  map (fun n => is_valid_avl
                  (fst (insert_calls (AVLTree_init None default_max_depth)
                          (firstn n (map VInt [1; 2; 3; 4; 5; 6; 7])))))
      [1; 2; 3; 4; 5; 6; 7]%nat
    = repeat (Return true) 7 /\
  perfect (root (fst (insert_calls (AVLTree_init None default_max_depth)
                        (map VInt [1; 2; 3; 4; 5; 6; 7])))).
Proof. split; [reflexivity|split; [reflexivity|cbn; intuition lia]]. Qed.

(** * Further properties of the module *)

(** ** Size, emptiness, order and limits on reachable trees *)

Lemma ascending_NoDup (P : value -> Prop) (l : list value) :
  ordered_keys P -> Forall P l -> ascending l -> NoDup l.
Proof.
  intros HP HPs Hs. induction Hs as [|a l Hs IH Hf]; [constructor|].
  inversion HPs as [|? ? Pa HPl]; subst.
  constructor; [|apply IH; assumption].
  intros Hin. rewrite Forall_forall in Hf. exact (ok_irrefl HP Pa (Hf a Hin)).
Qed.

Lemma in_order_traversal_export (self : AVLTree) :
  in_order_traversal self = keys (root self).
Proof. unfold in_order_traversal. now rewrite in_order_traversal_keys. Qed.

(** X1. On every tree reached from the empty tree, [len(tree)] and
    [tree.size] are the number of keys that [in_order_traversal()] exports,
    and [is_empty] is [True] exactly when that number is 0, that is when the
    export is the empty list. *)
Theorem X1_size_counts_exported_keys
    (P : value -> Prop) (max_size : option Z) (max_depth : Z) (self : AVLTree) :
  ordered_keys P ->
  reachable P max_size max_depth self ->
  __len__ self = Z.of_nat (List.length (in_order_traversal self)) /\
  size self = Z.of_nat (List.length (in_order_traversal self)) /\
  (is_empty self = true <-> size self = 0) /\
  (is_empty self = true <-> in_order_traversal self = []).
Proof.
  intros HP Hr.
  destruct (reachable_ok P max_size max_depth self HP Hr) as ((_ & Hsz) & _).
  rewrite in_order_traversal_export, keys_length_count.
  unfold __len__, size, is_empty. rewrite Hsz.
  split; [reflexivity|]. split; [reflexivity|].
  destruct (root self) as [|val L R h]; cbn [count keys].
  - repeat split; reflexivity.
  - pose proof (count_nonneg L). pose proof (count_nonneg R).
    repeat split; try discriminate; try lia.
    intros E. destruct (keys L); discriminate.
Qed.

Lemma X1_size_counts_exported_keys_witness :
  ordered_keys is_int /\
  reachable is_int (Some 100) 50 demo_tree /\
  __len__ demo_tree = Z.of_nat (List.length (in_order_traversal demo_tree)) /\
  size demo_tree = Z.of_nat (List.length (in_order_traversal demo_tree)) /\
  (is_empty demo_tree = true <-> size demo_tree = 0) /\
  (is_empty demo_tree = true <-> in_order_traversal demo_tree = []).
Proof.
  split; [exact ints_ordered|]. split; [exact demo_tree_reachable|].
  exact (X1_size_counts_exported_keys is_int (Some 100) 50 demo_tree
           ints_ordered demo_tree_reachable).
Defined.

(** X2. On every tree reached from the empty tree, by insertions and
    deletions in any order, [in_order_traversal()], [to_list()] and the
    iteration [for value in tree] give the keys in strictly ascending order,
    each key once. *)
Theorem X2_export_is_strictly_ascending
    (P : value -> Prop) (max_size : option Z) (max_depth : Z) (self : AVLTree) :
  ordered_keys P ->
  reachable P max_size max_depth self ->
  ascending (in_order_traversal self) /\
  NoDup (in_order_traversal self) /\
  Forall P (in_order_traversal self) /\
  to_list self = in_order_traversal self /\
  __iter__ self = in_order_traversal self.
Proof.
  intros HP Hr.
  destruct (reachable_ok P max_size max_depth self HP Hr) as (((_ & Hs & HPs) & _) & _).
  unfold to_list, __iter__. rewrite in_order_traversal_export.
  split; [exact Hs|]. split; [exact (ascending_NoDup P _ HP HPs Hs)|].
  split; [exact HPs|]. split; [reflexivity|]. now rewrite in_order_traversal_keys.
Qed.

Lemma X2_export_is_strictly_ascending_witness :
  ordered_keys is_int /\
  reachable is_int (Some 100) 50 demo_tree /\
  ascending (in_order_traversal demo_tree) /\
  NoDup (in_order_traversal demo_tree) /\
  Forall is_int (in_order_traversal demo_tree) /\
  to_list demo_tree = in_order_traversal demo_tree /\
  __iter__ demo_tree = in_order_traversal demo_tree.
Proof.
  split; [exact ints_ordered|]. split; [exact demo_tree_reachable|].
  exact (X2_export_is_strictly_ascending is_int (Some 100) 50 demo_tree
           ints_ordered demo_tree_reachable).
Defined.

(** The height of a reachable tree is at most [max_depth]. *)
Lemma reachable_height (P : value -> Prop) (max_size : option Z) (max_depth : Z)
    (self : AVLTree) :
  ordered_keys P ->
  reachable P max_size max_depth self ->
  height self <= Z.max 0 max_depth.
Proof.
  intros HP. induction 1 as [|self self' key r Hr IH Pk E|self self' key r Hr IH Pk E].
  - cbn. lia.
  - destruct (reachable_ok P max_size max_depth self HP Hr) as ([Hwf Hsz] & Hms & Hmd).
    destruct (at_capacity self) eqn:Hc.
    { rewrite (insert_at_capacity P HP self key Pk Hc) in E.
      injection E as <- _. exact IH. }
    destruct (Z.le_gt_cases (_max_depth self) (height self)) as [Hd|Hd].
    { rewrite (insert_too_deep P HP self key Pk Hc Hd) in E.
      injection E as <- _. exact IH. }
    destruct (in_keys_dec P HP key (keys (root self)) Pk (proj2 (proj2 Hwf)))
      as [Hin|Hin].
    + rewrite (insert_present P HP self key Pk Hwf Hc Hd Hin) in E.
      injection E as <- _. exact IH.
    + destruct (insert_new P HP self key Pk Hwf Hc Hd Hin)
        as (node & l1 & l2 & E' & _ & _ & _ & _ & Hh).
      rewrite E' in E. injection E as <- _.
      unfold height in *. cbn [with_root root]. lia.
  - destruct (reachable_ok P max_size max_depth self HP Hr) as ([Hwf Hsz] & Hms & Hmd).
    destruct (in_keys_dec P HP key (keys (root self)) Pk (proj2 (proj2 Hwf)))
      as [Hin|Hin].
    + destruct (delete_present P HP self key Pk Hwf Hin)
        as (node & l1 & l2 & E' & _ & _ & _ & _ & Hh).
      rewrite E' in E. injection E as <- _.
      unfold height in *. cbn [with_root root]. lia.
    + rewrite (delete_absent P HP self key Pk Hwf Hin) in E.
      injection E as <- _. exact IH.
Qed.

(** X3. The two limits are never exceeded: a tree reached from
    [AVLTree(max_size, max_depth)] never holds more than [max_size] keys
    (none when [max_size] is not positive) and is never higher than [max_depth]
    (empty when [max_depth] is not positive). *)
Theorem X3_limits_are_never_exceeded
    (P : value -> Prop) (max_size : option Z) (max_depth : Z) (self : AVLTree) :
  ordered_keys P ->
  reachable P max_size max_depth self ->
  (forall m, max_size = Some m -> size self <= Z.max 0 m) /\
  height self <= Z.max 0 max_depth.
Proof.
  intros HP Hr. split; [|exact (reachable_height P max_size max_depth self HP Hr)].
  intros m ->.
  destruct (reachable_ok P (Some m) max_depth self HP Hr) as ((_ & Hsz) & Hms & _).
  destruct (reachable_bounds P HP (Some m) max_depth self Hr) as [_ [H0|Hb]];
    unfold size; rewrite Hsz; [lia|].
  unfold below_max_size in Hb. rewrite Hms in Hb. lia.
Qed.

Lemma X3_limits_are_never_exceeded_witness :
  ordered_keys is_int /\
  reachable is_int (Some 1) 1 full_shallow_tree /\
  (forall m, Some 1 = Some m -> size full_shallow_tree <= Z.max 0 m) /\
  height full_shallow_tree <= Z.max 0 1.
Proof.
  assert (Hr : reachable is_int (Some 1) 1 full_shallow_tree).
  { apply (reach_insert is_int (Some 1) 1
             (AVLTree_init (Some 1) 1) full_shallow_tree (VInt 5) (Return true)).
    - apply reach_init.
    - apply is_int_VInt.
    - reflexivity. }
  split; [exact ints_ordered|]. split; [exact Hr|].
  exact (X3_limits_are_never_exceeded is_int (Some 1) 1 full_shallow_tree
           ints_ordered Hr).
Defined.

(** ** Height against size *)

Lemma min_nodes_step (n : nat) :
  min_nodes (S (S n)) = 1 + min_nodes (S n) + min_nodes n.
Proof. reflexivity. Qed.

Lemma min_nodes_nonneg (n : nat) : 0 <= min_nodes n /\ 0 <= min_nodes (S n).
Proof.
  induction n as [|n [IH1 IH2]]; [cbn; lia|].
  split; [exact IH2|]. rewrite min_nodes_step. lia.
Qed.

Lemma min_nodes_mono (n : nat) : min_nodes n <= min_nodes (S n).
Proof.
  destruct n as [|n]; [cbn; lia|].
  rewrite min_nodes_step. pose proof (min_nodes_nonneg n). lia.
Qed.

(** A balanced tree of height [h] has at least [min_nodes h] nodes. *)
Lemma avl_min_nodes (node : AVLNode) :
  avl node -> min_nodes (Z.to_nat (_get_height node)) <= count node.
Proof.
  induction node as [|val L IHL R IHR height]; cbn [avl count _get_height].
  - intros _. cbn. lia.
  - intros (HL & HR & Hh & Hb).
    specialize (IHL HL). specialize (IHR HR).
    pose proof (avl_height_nonneg L HL) as HL0.
    pose proof (avl_height_nonneg R HR) as HR0.
    pose proof (count_nonneg L). pose proof (count_nonneg R).
    remember (Z.to_nat (_get_height L)) as a.
    remember (Z.to_nat (_get_height R)) as b.
    assert (Eh : Z.to_nat height = S (Nat.max a b)) by lia.
    rewrite Eh.
    assert (Hab : a = b \/ a = S b \/ b = S a) by lia.
    destruct Hab as [Hab|[Hab|Hab]]; rewrite Hab in *.
    + rewrite Nat.max_id. destruct b as [|b]; [cbn; lia|].
      rewrite min_nodes_step. pose proof (min_nodes_mono b). lia.
    + rewrite Nat.max_l by lia. rewrite min_nodes_step. lia.
    + rewrite Nat.max_r by lia. rewrite min_nodes_step. lia.
Qed.

(** X4. The height is logarithmic in the size.  A reachable tree of height
    [h] holds at most [2 ^ h - 1] keys and at least [min_nodes h], the number
    given by [min_nodes (h + 2) = 1 + min_nodes (h + 1) + min_nodes h] from 0
    and 1 (a Fibonacci number less one); hence also at least
    [2 ^ (h / 2) - 1]. *)
Theorem X4_height_is_logarithmic
    (P : value -> Prop) (max_size : option Z) (max_depth : Z) (self : AVLTree) :
  ordered_keys P ->
  reachable P max_size max_depth self ->
  min_nodes (Z.to_nat (height self)) <= size self /\
  2 ^ (height self / 2) <= size self + 1 /\
  size self + 1 <= 2 ^ height self.
Proof.
  intros HP Hr.
  destruct (reachable_ok P max_size max_depth self HP Hr) as (((Havl & _) & Hsz) & _).
  unfold size, height. rewrite Hsz.
  split; [exact (avl_min_nodes _ Havl)|].
  split; [exact (avl_count_lower _ Havl)|exact (avl_count_upper _ Havl)].
Qed.

Lemma X4_height_is_logarithmic_witness :
  ordered_keys is_int /\
  reachable is_int (Some 100) 50 demo_tree /\
  min_nodes (Z.to_nat (height demo_tree)) <= size demo_tree /\
  2 ^ (height demo_tree / 2) <= size demo_tree + 1 /\
  size demo_tree + 1 <= 2 ^ height demo_tree.
Proof.
  split; [exact ints_ordered|]. split; [exact demo_tree_reachable|].
  exact (X4_height_is_logarithmic is_int (Some 100) 50 demo_tree
           ints_ordered demo_tree_reachable).
Defined.

(** ** Looking keys up *)

Lemma is_subtree_refl (node : AVLNode) : is_subtree node node.
Proof. destruct node; left; reflexivity. Qed.

Lemma is_subtree_keys (t node : AVLNode) :
  is_subtree t node -> forall k, In k (keys t) -> In k (keys node).
Proof.
  induction node as [|val L IHL R IHR height]; cbn [is_subtree].
  - intros [->|[]] k Hk. exact Hk.
  - intros [->|[H|H]] k Hk; [exact Hk| |]; cbn [keys]; apply in_or_app.
    + left. exact (IHL H k Hk).
    + right; right. exact (IHR H k Hk).
Qed.

Section Lookup.

Variable P : value -> Prop.
Hypothesis HP : ordered_keys P.

Lemma py_eq_refl (key : value) : P key -> py_eq key key = true.
Proof. intros Pk. apply (ok_eq HP Pk Pk). reflexivity. Qed.

(** The search loop on a well-formed subtree. *)
Lemma search_unlocked_spec (key : value) (node : AVLNode) :
  P key -> wf P node ->
  (In key (keys node) ->
   exists L R height,
     _search_unlocked node key = Return (Node key L R height) /\
     is_subtree (Node key L R height) node) /\
  (~ In key (keys node) -> _search_unlocked node key = Return Absent).
Proof.
  intros Pk. induction node as [|val L IHL R IHR height]; intros Hwf.
  - cbn [_search_unlocked keys]. split; [intros []|reflexivity].
  - destruct (wf_node P _ _ _ _ Hwf) as (HwL & HwR & Pv & _ & _).
    destruct Hwf as (_ & Hs & HPs). cbn [keys] in Hs, HPs.
    cbn [_search_unlocked keys is_subtree].
    destruct (py_eq key val) eqn:Eq.
    + apply (ok_eq HP Pk Pv) in Eq. subst val. split.
      * intros _. exists L, R, height. split; [reflexivity|left; reflexivity].
      * intros Hnot. exfalso. apply Hnot, in_elt.
    + assert (Hne : key <> val).
      { intros ->. rewrite (py_eq_refl val Pv) in Eq. discriminate. }
      destruct (compare_cases P HP key val Pk Pv)
        as [[E Hlt]|[(E1 & E2 & Hgt)|(E1 & E2 & Heq)]]; [| |contradiction].
      * rewrite E. cbn [bind].
        rewrite (in_left P HP key val _ _ Pk HPs Hs Hlt).
        destruct (IHL HwL) as [IHin IHnot]. split; [|exact IHnot].
        intros Hin. destruct (IHin Hin) as (L0 & R0 & h0 & E0 & Hsub).
        exists L0, R0, h0. split; [exact E0|right; left; exact Hsub].
      * rewrite E1. cbn [bind].
        rewrite (in_right P HP key val _ _ Pk HPs Hs Hgt).
        destruct (IHR HwR) as [IHin IHnot]. split; [|exact IHnot].
        intros Hin. destruct (IHin Hin) as (L0 & R0 & h0 & E0 & Hsub).
        exists L0, R0, h0. split; [exact E0|right; right; exact Hsub].
Qed.

(** The rightmost node holds the last key. *)
Lemma get_max_node_spec (node : AVLNode) :
  node <> Absent ->
  exists (max_val : value) (rest : list value),
    (found <- _get_max_node node ;; get_val found) = Return max_val /\
    keys node = rest ++ [max_val].
Proof.
  induction node as [|val L _ R IHR height]; intros Hne; [congruence|].
  cbn [_get_max_node keys]. destruct R as [|rval RL RR rheight].
  - exists val, (keys L). split; reflexivity.
  - destruct (IHR ltac:(discriminate)) as (s & rest & E & Hk).
    exists s, (keys L ++ val :: rest). split; [exact E|].
    rewrite Hk, <- app_assoc. reflexivity.
Qed.

End Lookup.

(** X5. On a well-formed tree and for a key of its totally ordered set,
    [search(key)] returns the node of the tree that holds the key when the
    key is in the tree, and [None] when it is not; the tree is as it was. *)
Theorem X5_search_finds_the_node
    (P : value -> Prop) (self : AVLTree) (key : value) :
  ordered_keys P ->
  P key ->
  wf P (root self) ->
  (In key (in_order_traversal self) ->
   exists L R height,
     search self key = (self, Return (Node key L R height)) /\
     is_subtree (Node key L R height) (root self)) /\
  (~ In key (in_order_traversal self) ->
   search self key = (self, Return Absent)).
Proof.
  intros HP Pk Hwf. rewrite in_order_traversal_export.
  unfold search. rewrite (validate_key_ok P HP key Pk).
  destruct (search_unlocked_spec P HP key (root self) Pk Hwf) as [Hin Hnot].
  split.
  - intros H. destruct (Hin H) as (L & R & h & E & Hsub).
    exists L, R, h. rewrite E. split; [reflexivity|exact Hsub].
  - intros H. rewrite (Hnot H). reflexivity.
Qed.

Lemma X5_search_finds_the_node_witness :
  (In (VInt 20) (in_order_traversal demo_tree) ->
   exists L R height,
     search demo_tree (VInt 20) = (demo_tree, Return (Node (VInt 20) L R height)) /\
     is_subtree (Node (VInt 20) L R height) (root demo_tree)) /\
  (~ In (VInt 20) (in_order_traversal demo_tree) ->
   search demo_tree (VInt 20) = (demo_tree, Return Absent)).
Proof.
  exact (X5_search_finds_the_node is_int demo_tree (VInt 20)
           ints_ordered (is_int_VInt 20) (proj1 demo_tree_ok)).
Defined.

(** X6. On a well-formed tree and for a key of its totally ordered set,
    [key in tree] returns, and returns [True] exactly when the key is among
    the keys that [in_order_traversal()] exports. *)
Theorem X6_contains_iff_exported
    (P : value -> Prop) (self : AVLTree) (key : value) :
  ordered_keys P ->
  P key ->
  wf P (root self) ->
  exists found,
    __contains__ self key = Return found /\
    (found = true <-> In key (in_order_traversal self)).
Proof.
  intros HP Pk Hwf. rewrite in_order_traversal_export. unfold __contains__.
  destruct (search_unlocked_spec P HP key (root self) Pk Hwf) as [Hin Hnot].
  destruct (in_keys_dec P HP key (keys (root self)) Pk (proj2 (proj2 Hwf)))
    as [H|H].
  - destruct (Hin H) as (L & R & h & E & _). rewrite E. cbn [bind].
    exists true. split; [reflexivity|tauto].
  - rewrite (Hnot H). cbn [bind].
    exists false. split; [reflexivity|]. split; [discriminate|contradiction].
Qed.

Lemma X6_contains_iff_exported_witness :
  exists found,
    __contains__ demo_tree (VInt 25) = Return found /\
    (found = true <-> In (VInt 25) (in_order_traversal demo_tree)).
Proof.
  exact (X6_contains_iff_exported is_int demo_tree (VInt 25)
           ints_ordered (is_int_VInt 25) (proj1 demo_tree_ok)).
Defined.

(** X7. [key in tree] does not validate the key.  On the empty tree it
    returns [False] for every key, [None] included; on a well-formed tree
    that is not empty, [None in tree] raises [TypeError], where
    [search(None)] raises the key-validity error. *)
Theorem X7_contains_does_not_validate
    (P : value -> Prop) (self : AVLTree) :
  ordered_keys P ->
  wf P (root self) ->
  (is_empty self = true -> forall key, __contains__ self key = Return false) /\
  (is_empty self = false ->
   __contains__ self VNone = Raise TypeError /\
   search self VNone = (self, Raise AVLTreeKeyError)).
Proof.
  intros HP Hwf. unfold is_empty, __contains__.
  destruct (root self) as [|val L R h] eqn:E.
  - split; [reflexivity|discriminate].
  - split; [discriminate|]. intros _. split; [|reflexivity].
    destruct (wf_node P _ _ _ _ Hwf) as (_ & _ & Pv & _).
    pose proof (ok_not_None HP Pv) as Hn.
    cbn [_search_unlocked]. destruct val; try reflexivity. congruence.
Qed.

Lemma X7_contains_does_not_validate_witness :
  (is_empty demo_tree = true ->
   forall key, __contains__ demo_tree key = Return false) /\
  (is_empty demo_tree = false ->
   __contains__ demo_tree VNone = Raise TypeError /\
   search demo_tree VNone = (demo_tree, Raise AVLTreeKeyError)).
Proof.
  exact (X7_contains_does_not_validate is_int demo_tree
           ints_ordered (proj1 demo_tree_ok)).
Defined.

(** X8. [get_min()] and [get_max()] return [None] on the empty tree.  On a
    well-formed tree that is not empty they return the first and the last
    key of the in-order export: every other key of the tree is above the
    one, below the other. *)
Theorem X8_get_min_and_get_max
    (P : value -> Prop) (self : AVLTree) :
  ordered_keys P ->
  wf P (root self) ->
  (is_empty self = true ->
   get_min self = Return None /\ get_max self = Return None) /\
  (is_empty self = false ->
   exists least greatest above below,
     get_min self = Return (Some least) /\
     get_max self = Return (Some greatest) /\
     in_order_traversal self = least :: above /\
     in_order_traversal self = below ++ [greatest] /\
     (forall k, In k above -> key_lt least k) /\
     (forall k, In k below -> key_lt k greatest)).
Proof.
  intros HP (_ & Hs & _). rewrite in_order_traversal_export.
  unfold is_empty, get_min, get_max.
  destruct (root self) as [|val L R h] eqn:E.
  - split; [split; reflexivity|discriminate].
  - split; [discriminate|]. intros _.
    destruct (get_min_node_spec (Node val L R h) ltac:(discriminate))
      as (lo & above & Elo & Hlo).
    destruct (get_max_node_spec (Node val L R h) ltac:(discriminate))
      as (hi & below & Ehi & Hhi).
    exists lo, hi, above, below.
    destruct (_get_min_node (Node val L R h)) as [nlo|]; [|discriminate].
    destruct (_get_max_node (Node val L R h)) as [nhi|]; [|discriminate].
    cbn [bind] in *. rewrite Elo, Ehi.
    split; [reflexivity|]. split; [reflexivity|].
    split; [exact Hlo|]. split; [exact Hhi|]. split.
    + rewrite Hlo in Hs. apply ascending_cons in Hs. apply Hs.
    + rewrite Hhi in Hs. apply ascending_mid in Hs. apply Hs.
Qed.

Lemma X8_get_min_and_get_max_witness :
  (is_empty demo_tree = true ->
   get_min demo_tree = Return None /\ get_max demo_tree = Return None) /\
  (is_empty demo_tree = false ->
   exists least greatest above below,
     get_min demo_tree = Return (Some least) /\
     get_max demo_tree = Return (Some greatest) /\
     in_order_traversal demo_tree = least :: above /\
     in_order_traversal demo_tree = below ++ [greatest] /\
     (forall k, In k above -> key_lt least k) /\
     (forall k, In k below -> key_lt k greatest)).
Proof.
  exact (X8_get_min_and_get_max is_int demo_tree
           ints_ordered (proj1 demo_tree_ok)).
Defined.

(** ** The other two traversals *)

Lemma pre_order_traversal_app (node : AVLNode) (output : list value) :
  _pre_order_traversal node output = output ++ _pre_order_traversal node [].
Proof.
  revert output. induction node as [|val L IHL R IHR height]; intros output;
    cbn [_pre_order_traversal].
  - now rewrite app_nil_r.
  - rewrite IHR, IHL, (IHR (_pre_order_traversal L _)), (IHL ([] ++ [val])).
    rewrite <- !app_assoc. reflexivity.
Qed.

Lemma post_order_traversal_app (node : AVLNode) (output : list value) :
  _post_order_traversal node output = output ++ _post_order_traversal node [].
Proof.
  revert output. induction node as [|val L IHL R IHR height]; intros output;
    cbn [_post_order_traversal].
  - now rewrite app_nil_r.
  - rewrite IHR, IHL, (IHR (_post_order_traversal L [])).
    rewrite <- !app_assoc. reflexivity.
Qed.

Lemma pre_order_traversal_node (val : value) (L R : AVLNode) (height : Z) :
  _pre_order_traversal (Node val L R height) [] =
  val :: _pre_order_traversal L [] ++ _pre_order_traversal R [].
Proof.
  cbn [_pre_order_traversal app].
  rewrite pre_order_traversal_app, (pre_order_traversal_app L [val]).
  reflexivity.
Qed.

Lemma post_order_traversal_node (val : value) (L R : AVLNode) (height : Z) :
  _post_order_traversal (Node val L R height) [] =
  _post_order_traversal L [] ++ _post_order_traversal R [] ++ [val].
Proof.
  cbn [_post_order_traversal].
  rewrite post_order_traversal_app, <- app_assoc. reflexivity.
Qed.

Lemma pre_order_permutation (node : AVLNode) :
  Permutation (_pre_order_traversal node []) (keys node).
Proof.
  induction node as [|val L IHL R IHR height]; [apply Permutation_refl|].
  rewrite pre_order_traversal_node. cbn [keys].
  apply Permutation_cons_app, Permutation_app; assumption.
Qed.

Lemma post_order_permutation (node : AVLNode) :
  Permutation (_post_order_traversal node []) (keys node).
Proof.
  induction node as [|val L IHL R IHR height]; [apply Permutation_refl|].
  rewrite post_order_traversal_node. cbn [keys].
  apply Permutation_app; [assumption|].
  eapply Permutation_trans; [apply Permutation_app_comm|].
  cbn [app]. apply perm_skip. assumption.
Qed.

(** X9. On every tree, [pre_order_traversal()] lists the key of the root,
    then the pre-order of the left subtree, then that of the right subtree,
    and [post_order_traversal()] the post-orders of the left and of the
    right subtree, then the key of the root; both are rearrangements of the
    in-order export, and both are empty on the empty tree. *)
Theorem X9_pre_order_and_post_order (self : AVLTree) :
  Permutation (pre_order_traversal self) (in_order_traversal self) /\
  Permutation (post_order_traversal self) (in_order_traversal self) /\
  (is_empty self = true ->
   pre_order_traversal self = [] /\ post_order_traversal self = []) /\
  (forall val L R height,
     root self = Node val L R height ->
     pre_order_traversal self =
       val :: _pre_order_traversal L [] ++ _pre_order_traversal R [] /\
     post_order_traversal self =
       _post_order_traversal L [] ++ _post_order_traversal R [] ++ [val]).
Proof.
  rewrite in_order_traversal_export.
  unfold pre_order_traversal, post_order_traversal, is_empty.
  split; [apply pre_order_permutation|]. split; [apply post_order_permutation|].
  split.
  - destruct (root self); [split; reflexivity|discriminate].
  - intros val L R height ->. split.
    + apply pre_order_traversal_node.
    + apply post_order_traversal_node.
Qed.

Lemma X9_pre_order_and_post_order_witness :
  pre_order_traversal demo_tree = map VInt [30; 20; 10; 25; 40; 50] /\
  post_order_traversal demo_tree = map VInt [10; 25; 20; 50; 40; 30] /\
  Permutation (pre_order_traversal demo_tree) (in_order_traversal demo_tree) /\
  Permutation (post_order_traversal demo_tree) (in_order_traversal demo_tree).
Proof.
  split; [reflexivity|]. split; [reflexivity|].
  split; apply (X9_pre_order_and_post_order demo_tree).
Defined.

(** ** Insertion of a new key *)

(** X10. On a well-formed tree that is below [max_size] and whose height is
    below [max_depth], [insert] of a key that is not in the tree returns
    [True], raises [_size] by one, and puts the key at its place in the
    in-order export, which stays ascending; the tree is well formed again
    and its height is the same or one more. *)
Theorem X10_insert_new_key
    (P : value -> Prop) (self : AVLTree) (key : value) :
  ordered_keys P ->
  P key ->
  tree_ok P self ->
  at_capacity self = false ->
  height self < _max_depth self ->
  ~ In key (in_order_traversal self) ->
  exists self' before after,
    insert self key = (self', Return true) /\
    size self' = size self + 1 /\
    in_order_traversal self = before ++ after /\
    in_order_traversal self' = before ++ key :: after /\
    ascending (in_order_traversal self') /\
    tree_ok P self' /\
    every_node node_invariant (root self') /\
    (height self' = height self \/ height self' = height self + 1).
Proof.
  intros HP Pk [Hwf Hsz] Hc Hd Hin. rewrite in_order_traversal_export in Hin.
  destruct (insert_new P HP self key Pk Hwf Hc Hd Hin)
    as (node & l1 & l2 & E & Hwf' & Hk & Hk' & Hcnt & Hh).
  exists (with_root self node (_size self + 1)), l1, l2.
  rewrite !in_order_traversal_export. unfold size, height, tree_ok.
  cbn [with_root root _size].
  split; [exact E|]. split; [reflexivity|]. split; [exact Hk|].
  split; [exact Hk'|]. split; [apply Hwf'|].
  split; [split; [exact Hwf'|lia]|].
  split; [exact (wf_every_node P node HP Hwf')|exact Hh].
Qed.

Lemma X10_insert_new_key_witness :
  ~ In (VInt 35) (in_order_traversal demo_tree) /\
  exists self' before after,
    insert demo_tree (VInt 35) = (self', Return true) /\
    size self' = size demo_tree + 1 /\
    in_order_traversal demo_tree = before ++ after /\
    in_order_traversal self' = before ++ VInt 35 :: after /\
    ascending (in_order_traversal self') /\
    tree_ok is_int self' /\
    every_node node_invariant (root self') /\
    (height self' = height demo_tree \/ height self' = height demo_tree + 1).
Proof.
  assert (Hin : ~ In (VInt 35) (in_order_traversal demo_tree))
    by (vm_compute; intuition discriminate).
  split; [exact Hin|].
  refine (X10_insert_new_key is_int demo_tree (VInt 35)
            ints_ordered (is_int_VInt 35) demo_tree_ok _ _ Hin).
  - reflexivity.
  - vm_compute. reflexivity.
Defined.

(** ** Calls with any key *)

(** The recursive insertion on a balanced subtree, whatever the key and
    whatever its comparisons with the keys of the subtree give. *)
Lemma insert_recursive_shape (max_depth : Z) (key : value) (node : AVLNode) :
  forall (depth size : Z),
  avl node ->
  match _insert_recursive max_depth node key depth size with
  | Done node' size' =>
      avl node' /\
      (_get_height node' = _get_height node \/
       _get_height node' = _get_height node + 1) /\
      ((node' = node /\ size' = size) \/
       (exists l1 l2,
          keys node = l1 ++ l2 /\ keys node' = l1 ++ key :: l2 /\
          size' = size + 1 /\ count node' = count node + 1))
  | Failed e node' size' => node' = node /\ size' = size
  end.
Proof.
  induction node as [|val L IHL R IHR height]; intros depth size Havl;
    cbn [_insert_recursive].
  - destruct (depth >? max_depth); [split; reflexivity|].
    cbn. split; [lia|]. split; [right; reflexivity|].
    right. exists [], []. repeat split.
  - destruct (depth >? max_depth); [split; reflexivity|].
    pose proof Havl as Havl0.
    cbn [avl] in Havl. destruct Havl as (HL & HR & Hh & Hb).
    pose proof (avl_height_nonneg L HL). pose proof (avl_height_nonneg R HR).
    destruct (py_lt key val) as [[|]|e]; [| |split; reflexivity].
    + specialize (IHL (depth + 1) size HL).
      destruct (_insert_recursive max_depth L key (depth + 1) size)
        as [L' size'|e L' size'].
      * destruct IHL as (HL' & Hh' & [[-> ->]|(l1 & l2 & Hk & Hk' & -> & Hc)]).
        -- rewrite (update_and_rebalance_same val L R height size Havl0).
           split; [exact Havl0|]. split; [left; reflexivity|].
           left; split; reflexivity.
        -- destruct (update_and_rebalance_spec val L' R height (size + 1)
                       HL' HR ltac:(lia))
             as (node' & En & Havl' & Hkn & Hcn & Hhn & Hhn').
           rewrite En. split; [exact Havl'|].
           split; [cbn [_get_height]; lia|].
           right. exists l1, (l2 ++ val :: keys R). cbn [keys count].
           rewrite Hkn, Hk, Hk', Hcn, Hc.
           repeat (rewrite <- app_assoc; cbn [app]). repeat split; lia.
      * destruct IHL as [-> ->]. split; reflexivity.
    + destruct (py_gt key val) as [[|]|e]; [| |split; reflexivity].
      * specialize (IHR (depth + 1) size HR).
        destruct (_insert_recursive max_depth R key (depth + 1) size)
          as [R' size'|e R' size'].
        -- destruct IHR as (HR' & Hh' & [[-> ->]|(l1 & l2 & Hk & Hk' & -> & Hc)]).
           ++ rewrite (update_and_rebalance_same val L R height size Havl0).
              split; [exact Havl0|]. split; [left; reflexivity|].
              left; split; reflexivity.
           ++ destruct (update_and_rebalance_spec val L R' height (size + 1)
                          HL HR' ltac:(lia))
                as (node' & En & Havl' & Hkn & Hcn & Hhn & Hhn').
              rewrite En. split; [exact Havl'|].
              split; [cbn [_get_height]; lia|].
              right. exists (keys L ++ val :: l1), l2. cbn [keys count].
              rewrite Hkn, Hk, Hk', Hcn, Hc.
              repeat (rewrite <- app_assoc; cbn [app]). repeat split; lia.
        -- destruct IHR as [-> ->]. split; reflexivity.
      * split; [exact Havl0|]. split; [left; reflexivity|].
        left; split; reflexivity.
Qed.

(** A call of [insert] on a balanced tree, whatever the key. *)
Lemma insert_any_key
    (self self' : AVLTree) (key : value) (result : outcome bool) :
  avl (root self) ->
  _size self = count (root self) ->
  insert self key = (self', result) ->
  avl (root self') /\
  _size self' = count (root self') /\
  _max_size self' = _max_size self /\
  _max_depth self' = _max_depth self /\
  (forall e, result = Raise e -> self' = self) /\
  (result = Return false -> self' = self) /\
  (result = Return true ->
   exists before after,
     in_order_traversal self = before ++ after /\
     in_order_traversal self' = before ++ key :: after).
Proof.
  intros Havl Hsz. unfold insert.
  assert (Hsame : avl (root self) /\ _size self = count (root self) /\
                  _max_size self = _max_size self /\
                  _max_depth self = _max_depth self) by (repeat split; assumption).
  destruct (_validate_key key) as [[]|e0].
  2:{ intros E. injection E as <- <-. repeat split; try assumption; discriminate. }
  destruct (at_capacity self).
  { intros E. injection E as <- <-. repeat split; try assumption; discriminate. }
  destruct (_get_height (root self) >=? _max_depth self).
  { intros E. injection E as <- <-. repeat split; try assumption; discriminate. }
  pose proof (insert_recursive_shape (_max_depth self) key (root self) 0
                (_size self) Havl) as Hshape.
  destruct (_insert_recursive (_max_depth self) (root self) key 0 (_size self))
    as [node size'|e node size'].
  - destruct Hshape as (Havl' & _ & [[-> ->]|(l1 & l2 & Hk & Hk' & -> & Hc)]).
    + rewrite with_root_same, Z.gtb_ltb, Z.ltb_irrefl.
      intros E. injection E as <- <-. repeat split; try assumption; discriminate.
    + replace (_size self + 1 >? _size self) with true
        by (symmetry; apply Z.gtb_lt; lia).
      intros E. injection E as <- <-. rewrite !in_order_traversal_export.
      cbn [with_root root _size _max_size _max_depth].
      repeat split; try assumption; try discriminate; try lia.
      intros _. exists l1, l2. split; assumption.
  - destruct Hshape as [-> ->]. rewrite with_root_same.
    intros E. injection E as <- <-. repeat split; try assumption; discriminate.
Qed.

(** X11. [insert] with any key at all, comparable with the keys of the tree
    or not: on a balanced tree whose [_size] counts its nodes, the call
    leaves such a tree, with the same limits; when it raises, whatever the
    exception, the tree object is as it was; when it returns, the in-order
    export is as it was or has gained the key at one place. *)
Theorem X11_insert_with_any_key
    (self self' : AVLTree) (key : value) (result : outcome bool) :
  avl (root self) ->
  _size self = count (root self) ->
  insert self key = (self', result) ->
  avl (root self') /\
  _size self' = count (root self') /\
  _max_size self' = _max_size self /\
  _max_depth self' = _max_depth self /\
  (forall e, result = Raise e -> self' = self) /\
  (result = Return false -> self' = self) /\
  (result = Return true ->
   exists before after,
     in_order_traversal self = before ++ after /\
     in_order_traversal self' = before ++ key :: after).
Proof. exact (insert_any_key self self' key result). Qed.

Lemma X11_insert_with_any_key_witness :
  avl (root score_tree) /\
  _size score_tree = count (root score_tree) /\
  insert score_tree (VTuple [VInt 85; VInt 7]) = (score_tree, Raise TypeError) /\
  avl (root score_tree) /\
  _size score_tree = count (root score_tree) /\
  _max_size score_tree = _max_size score_tree /\
  _max_depth score_tree = _max_depth score_tree /\
  (forall e, @Raise bool TypeError = Raise e -> score_tree = score_tree) /\
  (@Raise bool TypeError = Return false -> score_tree = score_tree) /\
  (@Raise bool TypeError = Return true ->
   exists before after,
     in_order_traversal score_tree = before ++ after /\
     in_order_traversal score_tree = before ++ VTuple [VInt 85; VInt 7] :: after).
Proof.
  assert (Havl : avl (root score_tree)) by (cbn; intuition lia).
  assert (Hsz : _size score_tree = count (root score_tree)) by reflexivity.
  assert (E : insert score_tree (VTuple [VInt 85; VInt 7])
              = (score_tree, Raise TypeError)) by reflexivity.
  split; [exact Havl|]. split; [exact Hsz|]. split; [exact E|].
  exact (X11_insert_with_any_key score_tree score_tree
           (VTuple [VInt 85; VInt 7]) (Raise TypeError) Havl Hsz E).
Defined.

Section AnyKey.

Variable P : value -> Prop.
Hypothesis HP : ordered_keys P.

(** The recursive deletion on a well-formed subtree, whatever the key and
    whatever its comparisons with the keys of the subtree give. *)
Lemma delete_recursive_shape (node : AVLNode) :
  forall (key : value) (size : Z),
  wf P node ->
  match _delete_recursive node key size with
  | Done node' size' =>
      avl node' /\
      (_get_height node' = _get_height node \/
       _get_height node' = _get_height node - 1) /\
      ((node' = node /\ size' = size) \/
       (exists x l1 l2,
          keys node = l1 ++ x :: l2 /\ keys node' = l1 ++ l2 /\
          size' = size - 1 /\ count node' = count node - 1))
  | Failed e node' size' => node' = node /\ size' = size
  end.
Proof.
  induction node as [|val L IHL R IHR height]; intros key size Hwf;
    cbn [_delete_recursive].
  - split; [exact I|]. split; [left; reflexivity|left; split; reflexivity].
  - destruct (wf_node P _ _ _ _ Hwf) as (HwL & HwR & Pv & Hh & Hb).
    pose proof (proj1 Hwf) as Havl.
    pose proof (avl_height_nonneg _ (proj1 HwL)) as HL0.
    pose proof (avl_height_nonneg _ (proj1 HwR)) as HR0.
    destruct (py_lt key val) as [[|]|e]; [| |split; reflexivity].
    + specialize (IHL key size HwL).
      destruct (_delete_recursive L key size) as [L' size'|e L' size'].
      * destruct IHL as (HL' & Hh' & [[-> ->]|(x & l1 & l2 & Hk & Hk' & -> & Hc)]).
        -- rewrite (update_and_rebalance_same val L R height size Havl).
           split; [exact Havl|]. split; [left; reflexivity|].
           left; split; reflexivity.
        -- destruct (update_and_rebalance_spec val L' R height (size - 1)
                       HL' (proj1 HwR) ltac:(lia))
             as (node' & En & Havl' & Hkn & Hcn & Hhn & Hhn').
           rewrite En. split; [exact Havl'|].
           split; [cbn [_get_height]; lia|].
           right. exists x, l1, (l2 ++ val :: keys R). cbn [keys count].
           rewrite Hkn, Hk, Hk', Hcn, Hc.
           repeat (rewrite <- app_assoc; cbn [app]). repeat split; lia.
      * destruct IHL as [-> ->]. split; reflexivity.
    + destruct (py_gt key val) as [[|]|e]; [| |split; reflexivity].
      * specialize (IHR key size HwR).
        destruct (_delete_recursive R key size) as [R' size'|e R' size'].
        -- destruct IHR as (HR' & Hh' & [[-> ->]|(x & l1 & l2 & Hk & Hk' & -> & Hc)]).
           ++ rewrite (update_and_rebalance_same val L R height size Havl).
              split; [exact Havl|]. split; [left; reflexivity|].
              left; split; reflexivity.
           ++ destruct (update_and_rebalance_spec val L R' height (size - 1)
                          (proj1 HwL) HR' ltac:(lia))
                as (node' & En & Havl' & Hkn & Hcn & Hhn & Hhn').
              rewrite En. split; [exact Havl'|].
              split; [cbn [_get_height]; lia|].
              right. exists x, (keys L ++ val :: l1), l2. cbn [keys count].
              rewrite Hkn, Hk, Hk', Hcn, Hc.
              repeat (rewrite <- app_assoc; cbn [app]). repeat split; lia.
        -- destruct IHR as [-> ->]. split; reflexivity.
      * (* the node found: [node.val] is neither above nor below the key *)
        destruct L as [|lval LL LR lheight].
        { split; [apply HwR|]. cbn [_get_height] in *.
          split; [lia|]. right. exists val, [], (keys R). cbn [keys count app].
          repeat split; lia. }
        destruct R as [|rval RL RR rheight].
        { split; [apply HwL|]. cbn [_get_height] in *.
          split; [lia|]. right.
          exists val, (keys (Node lval LL LR lheight)), [].
          cbn [keys count app]. rewrite app_nil_r. repeat split; lia. }
        set (Lt := Node lval LL LR lheight) in *.
        set (Rt := Node rval RL RR rheight) in *.
        destruct (get_min_node_spec Rt ltac:(discriminate))
          as (s & rest & Es & Hkr).
        rewrite Es.
        assert (Ps : P s).
        { destruct HwR as (_ & _ & HPR). rewrite Hkr in HPR.
          inversion HPR; assumption. }
        destruct (delete_recursive_spec P HP Rt s size Ps HwR) as [_ Hdel].
        destruct (Hdel ltac:(rewrite Hkr; left; reflexivity))
          as (R' & l1 & l2 & E' & HaR' & Hk & Hk' & Hc & Hh').
        rewrite E'.
        destruct (ascending_head_split P HP s rest l1 l2 Ps) as [-> ->].
        { rewrite <- Hkr. apply HwR. }
        { rewrite <- Hkr. exact Hk. }
        cbn [app] in Hk'.
        destruct (update_and_rebalance_spec s Lt R' height (size - 1)
                    (proj1 HwL) HaR' ltac:(lia))
          as (node' & En & Havl' & Hkn & Hcn & Hhn & Hhn').
        rewrite En. split; [exact Havl'|].
        split; [cbn [_get_height]; lia|].
        right. exists val, (keys Lt), (keys Rt). cbn [keys count].
        rewrite Hkn, Hk', Hcn, Hc, Hkr. repeat split; lia.
Qed.

End AnyKey.

(** X12. [delete] with any key at all, on a well-formed tree: the call
    leaves a well-formed tree with the same limits; when it raises, or
    returns [False], the tree object is as it was; when it returns [True],
    [_size] is one less and the in-order export has lost one key. *)
Theorem X12_delete_with_any_key
    (P : value -> Prop) (self self' : AVLTree) (key : value)
    (result : outcome bool) :
  ordered_keys P ->
  tree_ok P self ->
  delete self key = (self', result) ->
  tree_ok P self' /\
  _max_size self' = _max_size self /\
  _max_depth self' = _max_depth self /\
  (result <> Return true -> self' = self) /\
  (result = Return true ->
   size self' = size self - 1 /\
   exists before removed after,
     in_order_traversal self = before ++ removed :: after /\
     in_order_traversal self' = before ++ after).
Proof.
  intros HP [Hwf Hsz]. unfold delete.
  assert (Hsame : tree_ok P self /\ _max_size self = _max_size self /\
                  _max_depth self = _max_depth self)
    by (split; [split; assumption|split; reflexivity]).
  destruct (_validate_key key) as [[]|e0].
  2:{ intros E. injection E as <- <-.
      destruct Hsame as (? & ? & ?). repeat (split; [assumption|]).
      split; [intros _; reflexivity|discriminate]. }
  pose proof (delete_recursive_shape P HP (root self) key (_size self) Hwf)
    as Hshape.
  destruct (_delete_recursive (root self) key (_size self))
    as [node size'|e node size'].
  - destruct Hshape as (Havl' & _ & [[-> ->]|(x & l1 & l2 & Hk & Hk' & -> & Hc)]).
    + rewrite with_root_same, Z.ltb_irrefl.
      intros E. injection E as <- <-.
      destruct Hsame as (? & ? & ?). repeat (split; [assumption|]).
      split; [intros _; reflexivity|discriminate].
    + replace (_size self - 1 <? _size self) with true
        by (symmetry; apply Z.ltb_lt; lia).
      intros E. injection E as <- <-. rewrite !in_order_traversal_export.
      unfold tree_ok, wf, size. cbn [with_root root _size _max_size _max_depth].
      destruct Hwf as (_ & Hs & HPs). rewrite Hk in Hs, HPs. rewrite Hk'.
      split; [split; [split; [exact Havl'|split]|lia]|].
      * exact (ascending_remove _ _ _ Hs).
      * rewrite Forall_app in *. destruct HPs as [H1 H2].
        inversion H2; subst. split; assumption.
      * split; [reflexivity|]. split; [reflexivity|].
        split; [intros H; congruence|]. intros _. split; [reflexivity|].
        exists l1, x, l2. split; [exact Hk|reflexivity].
  - destruct Hshape as [-> ->]. rewrite with_root_same.
    intros E. injection E as <- <-.
    destruct Hsame as (? & ? & ?). repeat (split; [assumption|]).
      split; [intros _; reflexivity|discriminate].
Qed.

Lemma X12_delete_with_any_key_witness :
  ordered_keys is_score_key /\
  tree_ok is_score_key score_tree /\
  delete score_tree (VTuple [VInt 85; VInt 7]) = (score_tree, Raise TypeError) /\
  tree_ok is_score_key score_tree /\
  _max_size score_tree = _max_size score_tree /\
  _max_depth score_tree = _max_depth score_tree /\
  (@Raise bool TypeError <> Return true -> score_tree = score_tree) /\
  (@Raise bool TypeError = Return true ->
   size score_tree = size score_tree - 1 /\
   exists before removed after,
     in_order_traversal score_tree = before ++ removed :: after /\
     in_order_traversal score_tree = before ++ after).
Proof.
  assert (Hok : tree_ok is_score_key score_tree).
  { apply (reachable_ok is_score_key None default_max_depth score_tree
             score_keys_ordered).
    apply (reach_insert is_score_key None default_max_depth
             (AVLTree_init None default_max_depth) score_tree
             (VTuple [VInt 85; VStr "C001"]) (Return true)).
    - apply reach_init.
    - exists 85, "C001"%string; reflexivity.
    - reflexivity. }
  assert (E : delete score_tree (VTuple [VInt 85; VInt 7])
              = (score_tree, Raise TypeError)) by reflexivity.
  split; [exact score_keys_ordered|]. split; [exact Hok|]. split; [exact E|].
  exact (X12_delete_with_any_key is_score_key score_tree score_tree
           (VTuple [VInt 85; VInt 7]) (Raise TypeError)
           score_keys_ordered Hok E).
Defined.

(** X13. A key that passes the key validation but does not compare with the
    keys of the tree (a string against integers, say): on a well-formed tree
    that is not empty, [delete], [search] and [key in tree] raise
    [TypeError], not the key-validity error, and so does [insert] when the
    tree is below its two limits; the tree object is as it was. *)
Theorem X13_incomparable_key_raises_TypeError
    (P : value -> Prop) (self : AVLTree) (key : value) :
  ordered_keys P ->
  wf P (root self) ->
  is_empty self = false ->
  _validate_key key = Return tt ->
  (forall val, P val -> py_eq key val = false /\ py_lt key val = Raise TypeError) ->
  delete self key = (self, Raise TypeError) /\
  search self key = (self, Raise TypeError) /\
  __contains__ self key = Raise TypeError /\
  (at_capacity self = false -> height self < _max_depth self ->
   insert self key = (self, Raise TypeError)).
Proof.
  intros HP Hwf Hne Hv Hcmp.
  unfold delete, search, __contains__, insert, is_empty, height in *. rewrite Hv.
  destruct self as [node sz ms md]. cbn [root _size _max_depth] in *.
  destruct node as [|val L R h]; [discriminate|].
  destruct (wf_node P _ _ _ _ Hwf) as (HwL & HwR & Pv & Hh & _).
  destruct (Hcmp val Pv) as [Eq Elt].
  cbn [_delete_recursive _search_unlocked]. rewrite Eq, Elt. cbn [bind with_root root _size _max_size _max_depth].
  repeat split.
  intros -> Hd. cbn [_get_height] in *.
  destruct (Z.geb_spec h md); [lia|].
  pose proof (avl_height_nonneg _ (proj1 HwL)).
  cbn [_insert_recursive]. destruct (Z.gtb_spec 0 md); [lia|].
  rewrite Elt. reflexivity.
Qed.

Lemma X13_incomparable_key_raises_TypeError_witness :
  delete demo_tree (VStr "a") = (demo_tree, Raise TypeError) /\
  search demo_tree (VStr "a") = (demo_tree, Raise TypeError) /\
  __contains__ demo_tree (VStr "a") = Raise TypeError /\
  (at_capacity demo_tree = false -> height demo_tree < _max_depth demo_tree ->
   insert demo_tree (VStr "a") = (demo_tree, Raise TypeError)).
Proof.
  apply (X13_incomparable_key_raises_TypeError is_int demo_tree (VStr "a")
           ints_ordered (proj1 demo_tree_ok)).
  - reflexivity.
  - reflexivity.
  - intros val [n ->]. split; reflexivity.
Defined.

(** ** Lookups after a mutation, and undoing a mutation *)

Section Composition.

Variable P : value -> Prop.
Hypothesis HP : ordered_keys P.

Lemma contains_present (self : AVLTree) (key : value) :
  P key -> wf P (root self) -> In key (keys (root self)) ->
  __contains__ self key = Return true.
Proof.
  intros Pk Hwf Hin. unfold __contains__.
  destruct (search_unlocked_spec P HP key (root self) Pk Hwf) as [Hfound _].
  destruct (Hfound Hin) as (L & R & h & E & _). rewrite E. reflexivity.
Qed.

Lemma contains_absent (self : AVLTree) (key : value) :
  P key -> wf P (root self) -> ~ In key (keys (root self)) ->
  __contains__ self key = Return false.
Proof.
  intros Pk Hwf Hin. unfold __contains__.
  destruct (search_unlocked_spec P HP key (root self) Pk Hwf) as [_ Hnot].
  rewrite (Hnot Hin). reflexivity.
Qed.

(** The keys of the tree after a call of [insert] that returns. *)
Lemma insert_returns_keys (self self' : AVLTree) (key : value) (b : bool) :
  P key -> tree_ok P self -> insert self key = (self', Return b) ->
  forall x, In x (keys (root self')) <-> x = key \/ In x (keys (root self)).
Proof.
  intros Pk [Hwf Hsz] E.
  destruct (at_capacity self) eqn:Hc.
  { rewrite (insert_at_capacity P HP self key Pk Hc) in E. discriminate. }
  destruct (Z.le_gt_cases (_max_depth self) (height self)) as [Hd|Hd].
  { rewrite (insert_too_deep P HP self key Pk Hc Hd) in E. discriminate. }
  destruct (in_keys_dec P HP key (keys (root self)) Pk (proj2 (proj2 Hwf)))
    as [Hin|Hin].
  - rewrite (insert_present P HP self key Pk Hwf Hc Hd Hin) in E.
    injection E as <- _. intros x. split; [tauto|]. intros [->|H]; assumption.
  - destruct (insert_new P HP self key Pk Hwf Hc Hd Hin)
      as (node & l1 & l2 & E' & _ & Hk & Hk' & _).
    rewrite E' in E. injection E as <- _. cbn [with_root root].
    rewrite Hk, Hk'. intros x. rewrite !in_app_iff. cbn [In].
    split; [intros [H|[H|H]]|intros [H|[H|H]]]; auto.
Qed.

(** The keys of the tree after a call of [delete]. *)
Lemma delete_returns_keys (self self' : AVLTree) (key : value) (b : bool) :
  P key -> tree_ok P self -> delete self key = (self', Return b) ->
  forall x, In x (keys (root self')) <-> x <> key /\ In x (keys (root self)).
Proof.
  intros Pk [Hwf Hsz] E.
  destruct (in_keys_dec P HP key (keys (root self)) Pk (proj2 (proj2 Hwf)))
    as [Hin|Hin].
  - destruct (delete_present P HP self key Pk Hwf Hin)
      as (node & l1 & l2 & E' & _ & Hk & Hk' & _).
    rewrite E' in E. injection E as <- _. cbn [with_root root].
    destruct Hwf as (_ & Hs & HPs). rewrite Hk in Hs, HPs.
    pose proof (ascending_not_in P HP l1 l2 key HPs Hs) as Hnot.
    rewrite Hk, Hk'. intros x. rewrite !in_app_iff in *. cbn [In].
    split.
    + intros H. split; [intros ->; tauto|tauto].
    + intros [Hne [H|[H|H]]]; auto. congruence.
  - rewrite (delete_absent P HP self key Pk Hwf Hin) in E.
    injection E as <- _. intros x. split; [|tauto].
    intros H. split; [intros ->; contradiction|assumption].
Qed.

End Composition.

(** X14. Insert, then look up.  After a call of [insert(key)] that returns,
    [True] or [False], on a well-formed tree, [key in tree] is [True] and
    [search(key)] returns a node that holds the key; and for every other key
    of the ordered set [in] answers as it did before the call. *)
Theorem X14_lookup_after_insert
    (P : value -> Prop) (self self' : AVLTree) (key : value) (inserted : bool) :
  ordered_keys P ->
  P key ->
  tree_ok P self ->
  insert self key = (self', Return inserted) ->
  __contains__ self' key = Return true /\
  (exists L R height,
     search self' key = (self', Return (Node key L R height))) /\
  (forall other, P other -> other <> key ->
     __contains__ self' other = __contains__ self other).
Proof.
  intros HP Pk Hok E.
  destruct (insert_preserves P HP self self' key _ Pk Hok E) as ([Hwf' _] & _).
  pose proof (insert_returns_keys P HP self self' key inserted Pk Hok E) as Hkeys.
  assert (Hin : In key (keys (root self'))) by (apply Hkeys; left; reflexivity).
  split; [exact (contains_present P HP self' key Pk Hwf' Hin)|]. split.
  - unfold search. rewrite (validate_key_ok P HP key Pk).
    destruct (search_unlocked_spec P HP key (root self') Pk Hwf') as [Hfound _].
    destruct (Hfound Hin) as (L & R & h & Es & _).
    exists L, R, h. rewrite Es. reflexivity.
  - intros other Po Hne. destruct Hok as [Hwf _].
    destruct (in_keys_dec P HP other (keys (root self)) Po (proj2 (proj2 Hwf)))
      as [H|H].
    + rewrite (contains_present P HP self other Po Hwf H).
      apply (contains_present P HP self' other Po Hwf'), Hkeys. right; exact H.
    + rewrite (contains_absent P HP self other Po Hwf H).
      apply (contains_absent P HP self' other Po Hwf').
      intros H'. apply Hkeys in H'. destruct H'; contradiction.
Qed.

Lemma X14_lookup_after_insert_witness :
  insert demo_tree (VInt 35) = (fst (insert demo_tree (VInt 35)), Return true) /\
  __contains__ (fst (insert demo_tree (VInt 35))) (VInt 35) = Return true /\
  (exists L R height,
     search (fst (insert demo_tree (VInt 35))) (VInt 35)
       = (fst (insert demo_tree (VInt 35)), Return (Node (VInt 35) L R height))) /\
  (forall other, is_int other -> other <> VInt 35 ->
     __contains__ (fst (insert demo_tree (VInt 35))) other
       = __contains__ demo_tree other).
Proof.
  assert (E : insert demo_tree (VInt 35)
              = (fst (insert demo_tree (VInt 35)), Return true)) by reflexivity.
  split; [exact E|].
  exact (X14_lookup_after_insert is_int demo_tree _ (VInt 35) true
           ints_ordered (is_int_VInt 35) demo_tree_ok E).
Defined.

(** X15. Delete, then look up.  After a call of [delete(key)] on a
    well-formed tree, whether it returned [True] or [False], [key in tree]
    is [False] and [search(key)] returns [None]; and for every other key of
    the ordered set [in] answers as it did before the call. *)
Theorem X15_lookup_after_delete
    (P : value -> Prop) (self self' : AVLTree) (key : value) (deleted : bool) :
  ordered_keys P ->
  P key ->
  tree_ok P self ->
  delete self key = (self', Return deleted) ->
  __contains__ self' key = Return false /\
  search self' key = (self', Return Absent) /\
  (forall other, P other -> other <> key ->
     __contains__ self' other = __contains__ self other).
Proof.
  intros HP Pk Hok E.
  destruct (delete_preserves P HP self self' key _ Pk Hok E) as ([Hwf' _] & _).
  pose proof (delete_returns_keys P HP self self' key deleted Pk Hok E) as Hkeys.
  assert (Hin : ~ In key (keys (root self'))).
  { intros H. apply Hkeys in H. destruct H as [H _]. apply H. reflexivity. }
  split; [exact (contains_absent P HP self' key Pk Hwf' Hin)|]. split.
  - unfold search. rewrite (validate_key_ok P HP key Pk).
    destruct (search_unlocked_spec P HP key (root self') Pk Hwf') as [_ Hnot].
    rewrite (Hnot Hin). reflexivity.
  - intros other Po Hne. destruct Hok as [Hwf _].
    destruct (in_keys_dec P HP other (keys (root self)) Po (proj2 (proj2 Hwf)))
      as [H|H].
    + rewrite (contains_present P HP self other Po Hwf H).
      apply (contains_present P HP self' other Po Hwf'), Hkeys.
      split; assumption.
    + rewrite (contains_absent P HP self other Po Hwf H).
      apply (contains_absent P HP self' other Po Hwf').
      intros H'. apply Hkeys in H'. destruct H'; contradiction.
Qed.

Lemma X15_lookup_after_delete_witness :
  delete demo_tree (VInt 20) = (demo_tree_without_20, Return true) /\
  __contains__ demo_tree_without_20 (VInt 20) = Return false /\
  search demo_tree_without_20 (VInt 20) = (demo_tree_without_20, Return Absent) /\
  (forall other, is_int other -> other <> VInt 20 ->
     __contains__ demo_tree_without_20 other = __contains__ demo_tree other).
Proof.
  assert (E : delete demo_tree (VInt 20) = (demo_tree_without_20, Return true))
    by reflexivity.
  split; [exact E|].
  exact (X15_lookup_after_delete is_int demo_tree demo_tree_without_20 (VInt 20)
           true ints_ordered (is_int_VInt 20) demo_tree_ok E).
Defined.

(** X16. Insert, then delete.  On a well-formed tree below its two limits,
    [insert] of a key that is not in the tree followed by [delete] of that
    key returns [True] twice and leaves a well-formed tree with the in-order
    export and the size it had at the start. *)
Theorem X16_insert_then_delete_restores
    (P : value -> Prop) (self : AVLTree) (key : value) :
  ordered_keys P ->
  P key ->
  tree_ok P self ->
  at_capacity self = false ->
  height self < _max_depth self ->
  ~ In key (in_order_traversal self) ->
  exists grown restored,
    insert self key = (grown, Return true) /\
    delete grown key = (restored, Return true) /\
    in_order_traversal restored = in_order_traversal self /\
    size restored = size self /\
    tree_ok P restored.
Proof.
  intros HP Pk [Hwf Hsz] Hc Hd Hin. rewrite in_order_traversal_export in Hin.
  destruct (insert_new P HP self key Pk Hwf Hc Hd Hin)
    as (node & l1 & l2 & E & Hwf' & Hk & Hk' & Hcnt & _).
  set (grown := with_root self node (_size self + 1)) in *.
  assert (Hin' : In key (keys (root grown))).
  { cbn [grown with_root root]. rewrite Hk'. apply in_elt. }
  destruct (delete_present P HP grown key Pk Hwf' Hin')
    as (node2 & m1 & m2 & E2 & Hwf2 & Hm & Hm' & Hcnt2 & _).
  exists grown, (with_root grown node2 (_size grown - 1)).
  split; [exact E|]. split; [exact E2|].
  rewrite !in_order_traversal_export. unfold size, tree_ok.
  cbn [grown with_root root _size] in *.
  split; [|split; [lia|split; [exact Hwf2|lia]]].
  apply (ascending_ext P HP).
  - apply Hwf2.
  - apply Hwf2.
  - apply Hwf.
  - destruct Hwf' as (_ & Hs' & HPs').
    pose proof Hs' as Hs1. pose proof HPs' as HPs1.
    rewrite Hm in Hs1, HPs1.
    pose proof (ascending_not_in P HP m1 m2 key HPs1 Hs1) as Hnot.
    assert (Hsame : forall x, In x (l1 ++ key :: l2) <-> In x (m1 ++ key :: m2))
      by (intros x; rewrite <- Hk', <- Hm; tauto).
    rewrite Hm', Hk. intros x. specialize (Hsame x). rewrite Hk in Hin.
    rewrite !in_app_iff in *. cbn [In] in *.
    split; intros H.
    + assert (key <> x) by (intros <-; tauto). tauto.
    + assert (key <> x) by (intros <-; tauto). tauto.
Qed.

Lemma X16_insert_then_delete_restores_witness :
  ~ In (VInt 35) (in_order_traversal demo_tree) /\
  exists grown restored,
    insert demo_tree (VInt 35) = (grown, Return true) /\
    delete grown (VInt 35) = (restored, Return true) /\
    in_order_traversal restored = in_order_traversal demo_tree /\
    size restored = size demo_tree /\
    tree_ok is_int restored.
Proof.
  assert (Hin : ~ In (VInt 35) (in_order_traversal demo_tree))
    by (vm_compute; intuition discriminate).
  split; [exact Hin|].
  refine (X16_insert_then_delete_restores is_int demo_tree (VInt 35)
            ints_ordered (is_int_VInt 35) demo_tree_ok _ _ Hin).
  - reflexivity.
  - vm_compute. reflexivity.
Defined.

(** ** Loading a list *)

Lemma insert_calls_each (l : list value) :
  forall (self final : AVLTree),
  insert_calls self l = (final, map (fun _ => Return true) l) ->
  insert_each self l = (final, Return tt).
Proof.
  induction l as [|key rest IH]; intros self final E; cbn [insert_calls insert_each map] in *.
  - injection E as <-. reflexivity.
  - destruct (insert self key) as [self' r].
    destruct (insert_calls self' rest) as [f rs] eqn:E'.
    injection E as <- -> ->. apply IH. exact E'.
Qed.

(** The loop of [from_list] up to the call that raises. *)
Lemma insert_each_failure (l : list value) :
  forall (self final : AVLTree) (e : exn),
  avl (root self) -> _size self = count (root self) ->
  insert_each self l = (final, Raise e) ->
  exists before bad after,
    l = before ++ bad :: after /\
    insert_each self before = (final, Return tt) /\
    insert final bad = (final, Raise e).
Proof.
  induction l as [|key rest IH]; intros self final e Havl Hsz E;
    cbn [insert_each] in E; [discriminate|].
  destruct (insert self key) as [self' [b|e']] eqn:Ei.
  - destruct (insert_any_key self self' key _ Havl Hsz Ei) as (Havl' & Hsz' & _).
    destruct (IH self' final e Havl' Hsz' E) as (before & bad & after & -> & E' & Eb).
    exists (key :: before), bad, after. cbn [app insert_each]. rewrite Ei.
    repeat split; assumption.
  - injection E as <- <-.
    destruct (insert_any_key self self' key _ Havl Hsz Ei)
      as (_ & _ & _ & _ & Hsame & _).
    rewrite (Hsame e' eq_refl) in *.
    exists [], key, rest. repeat split. exact Ei.
Qed.

(** The keys a run of the loop can leave in the tree. *)
Lemma insert_each_keys (l : list value) :
  forall (self final : AVLTree) (result : outcome unit),
  avl (root self) -> _size self = count (root self) ->
  insert_each self l = (final, result) ->
  forall x, In x (keys (root final)) -> In x l \/ In x (keys (root self)).
Proof.
  induction l as [|key rest IH]; intros self final result Havl Hsz E x Hx;
    cbn [insert_each] in E.
  - injection E as <- _. right; exact Hx.
  - destruct (insert self key) as [self' r] eqn:Ei.
    destruct (insert_any_key self self' key _ Havl Hsz Ei)
      as (Havl' & Hsz' & _ & _ & Hraise & Hfalse & Htrue).
    assert (Hstep : forall y, In y (keys (root self')) ->
                              y = key \/ In y (keys (root self))).
    { destruct r as [[|]|e'].
      - destruct (Htrue eq_refl) as (l1 & l2 & Hk & Hk').
        rewrite !in_order_traversal_export in *. rewrite Hk, Hk'.
        intros y. rewrite !in_app_iff. cbn [In]. intuition auto.
      - rewrite (Hfalse eq_refl). auto.
      - rewrite (Hraise e' eq_refl). auto. }
    assert (Hfinal : In x rest \/ In x (keys (root self'))).
    { destruct r as [b|e'].
      - exact (IH self' final result Havl' Hsz' E x Hx).
      - injection E as <- _. right; exact Hx. }
    destruct Hfinal as [H|H]; [left; right; exact H|].
    destruct (Hstep x H) as [->|H']; [left; left; reflexivity|right; exact H'].
Qed.

Section LoadingAnyList.

Variable P : value -> Prop.
Hypothesis HP : ordered_keys P.

(** Loading keys of a totally ordered set, in any order and with
    repetitions, into a tree without [max_size]. *)
Lemma insert_each_loads (l : list value) :
  forall (self : AVLTree),
  tree_ok P self -> Forall P l -> _max_size self = None ->
  count (root self) + Z.of_nat (List.length l) < 2 ^ (_max_depth self / 2) ->
  exists final,
    insert_each self l = (final, Return tt) /\
    tree_ok P final /\
    (forall x, In x (keys (root final)) <-> In x l \/ In x (keys (root self))).
Proof.
  induction l as [|key rest IH]; intros self Hok HPs Hms Hdepth.
  - exists self. split; [reflexivity|]. split; [exact Hok|].
    intros x. cbn [In]. tauto.
  - inversion HPs as [|? ? Pk HPs']; subst. cbn [List.length] in Hdepth.
    pose proof Hok as [Hwf Hsz].
    assert (Hc : at_capacity self = false)
      by (unfold at_capacity; rewrite Hms; reflexivity).
    assert (Hd : height self < _max_depth self).
    { apply height_below_max_depth; [apply Hwf|lia]. }
    assert (Ei : exists self' b,
               insert self key = (self', Return b) /\
               count (root self') <= count (root self) + 1).
    { destruct (in_keys_dec P HP key (keys (root self)) Pk (proj2 (proj2 Hwf)))
        as [Hin|Hin].
      - exists self, false.
        split; [exact (insert_present P HP self key Pk Hwf Hc Hd Hin)|lia].
      - destruct (insert_new P HP self key Pk Hwf Hc Hd Hin)
          as (node & l1 & l2 & E & _ & _ & _ & Hcnt & _).
        exists (with_root self node (_size self + 1)), true.
        split; [exact E|]. cbn [with_root root]. lia. }
    destruct Ei as (self' & b & Ei & Hcnt).
    destruct (insert_preserves P HP self self' key _ Pk Hok Ei) as (Hok' & Hms' & Hmd').
    pose proof (insert_returns_keys P HP self self' key b Pk Hok Ei) as Hkeys.
    destruct (IH self' Hok' HPs') as (final & E & Hokf & Hkeysf).
    + rewrite Hms'. exact Hms.
    + rewrite Hmd'. lia.
    + exists final. cbn [insert_each]. rewrite Ei.
      split; [exact E|]. split; [exact Hokf|].
      intros x. rewrite Hkeysf, Hkeys. cbn [In]. split.
      * intros [H|[H|H]]; auto.
      * intros [[H|H]|H]; auto.
Qed.

End LoadingAnyList.

(** X17. [from_list] sorts and removes repetitions.  On a tree object
    without [max_size] and with the default [max_depth], whatever it held,
    [from_list(keys)] with keys of a totally ordered set, in any order and
    with any repetitions, returns; [to_list()] is then the strictly
    ascending list of the keys that occur in [keys], the only such list, and
    [size] is its length. *)
Theorem X17_from_list_sorts_and_deduplicates
    (P : value -> Prop) (self : AVLTree) (new_keys : list value) :
  ordered_keys P ->
  Forall P new_keys ->
  python_list new_keys ->
  _max_size self = None ->
  _max_depth self = default_max_depth ->
  exists final,
    from_list self new_keys = (final, Return tt) /\
    ascending (to_list final) /\
    (forall x, In x (to_list final) <-> In x new_keys) /\
    size final = Z.of_nat (List.length (to_list final)) /\
    (forall sorted_keys,
       ascending sorted_keys ->
       (forall x, In x sorted_keys <-> In x new_keys) ->
       to_list final = sorted_keys).
Proof.
  intros HP HPs Hlen Hms Hmd. unfold python_list in Hlen.
  pose proof sys_maxsize_below_default_depth as Hbound.
  unfold from_list, to_list. rewrite Hms, Hmd.
  destruct (insert_each_loads P HP new_keys
              (mkAVLTree Absent 0 None default_max_depth))
    as (final & E & [Hwf Hsz] & Hkeys).
  - repeat split; cbn; constructor.
  - exact HPs.
  - reflexivity.
  - cbn [root count _max_depth]. lia.
  - exists final. rewrite in_order_traversal_export, keys_length_count.
    cbn [root keys In] in Hkeys.
    split; [exact E|]. split; [apply Hwf|].
    split; [intros x; rewrite Hkeys; tauto|]. split; [exact Hsz|].
    intros sorted_keys Hs Hsame.
    apply (ascending_ext P HP); [apply Hwf|apply Hwf|exact Hs|].
    intros x. rewrite Hkeys, Hsame. tauto.
Qed.

Lemma X17_from_list_sorts_and_deduplicates_witness :
  exists final,
    from_list score_tree (map VInt [3; 1; 3; 2]) = (final, Return tt) /\
    ascending (to_list final) /\
    (forall x, In x (to_list final) <-> In x (map VInt [3; 1; 3; 2])) /\
    size final = Z.of_nat (List.length (to_list final)) /\
    (forall sorted_keys,
       ascending sorted_keys ->
       (forall x, In x sorted_keys <-> In x (map VInt [3; 1; 3; 2])) ->
       to_list final = sorted_keys).
Proof.
  apply (X17_from_list_sorts_and_deduplicates is_int score_tree
           (map VInt [3; 1; 3; 2]) ints_ordered).
  - repeat constructor; apply is_int_VInt.
  - vm_compute. discriminate.
  - reflexivity.
  - reflexivity.
Defined.

(** X18. [from_list] beyond [max_size].  On a tree object with
    [max_size = N] and the default [max_depth], [from_list] of a list that
    starts with [N] pairwise distinct keys and goes on with at least one more
    key raises the capacity error at that key, new or not, and leaves the
    tree holding the first [N] keys. *)
Theorem X18_from_list_beyond_max_size
    (P : value -> Prop) (self : AVLTree) (N : Z)
    (first : list value) (next : value) (others : list value) :
  ordered_keys P ->
  Forall P first ->
  P next ->
  NoDup first ->
  Z.of_nat (List.length first) = N ->
  python_list first ->
  _max_size self = Some N ->
  _max_depth self = default_max_depth ->
  exists full,
    from_list self (first ++ next :: others) = (full, Raise AVLTreeCapacityError) /\
    from_list self first = (full, Return tt) /\
    size full = N /\
    Permutation first (to_list full) /\
    ascending (to_list full).
Proof.
  intros HP HPs Pn Hnd Hlen HN Hms Hmd. unfold python_list in HN.
  pose proof sys_maxsize_below_default_depth as Hbound.
  unfold from_list, to_list, size. rewrite Hms, Hmd.
  destruct (insert_calls_fresh P first HP
              (mkAVLTree Absent 0 (Some N) default_max_depth))
    as (full & E & [Hwf Hsz] & Hms' & _ & Hperm & Hcnt).
  - repeat split; cbn; constructor.
  - exact HPs.
  - exact Hnd.
  - intros k _ [].
  - unfold below_max_size. cbn [root count _max_size]. lia.
  - cbn [root count _max_depth]. lia.
  - exists full. cbn [root count keys _max_size] in Hms', Hcnt, Hperm.
    rewrite app_nil_r in Hperm.
    pose proof (insert_calls_each first _ full E) as Eeach.
    assert (Ecap : insert full next = (full, Raise AVLTreeCapacityError)).
    { apply (insert_at_capacity P HP full next Pn).
      unfold at_capacity. rewrite Hms'. apply Z.geb_le. lia. }
    rewrite insert_each_app, Eeach. cbn [insert_each]. rewrite Ecap.
    rewrite in_order_traversal_export.
    split; [reflexivity|]. split; [reflexivity|]. split; [lia|].
    split; [exact Hperm|apply Hwf].
Qed.

Lemma X18_from_list_beyond_max_size_witness :
  exists full,
    from_list full_tree (map VInt [4] ++ VInt 4 :: map VInt [6])
      = (full, Raise AVLTreeCapacityError) /\
    from_list full_tree (map VInt [4]) = (full, Return tt) /\
    size full = 1 /\
    Permutation (map VInt [4]) (to_list full) /\
    ascending (to_list full).
Proof.
  apply (X18_from_list_beyond_max_size is_int full_tree
           1 (map VInt [4]) (VInt 4) (map VInt [6]) ints_ordered).
  - repeat constructor; apply is_int_VInt.
  - apply is_int_VInt.
  - repeat constructor; cbn; intuition discriminate.
  - reflexivity.
  - vm_compute. discriminate.
  - reflexivity.
  - reflexivity.
Defined.

(** X19. [from_list] is not all-or-nothing.  Whatever the tree held and
    whatever the list holds, when [from_list(keys)] raises, it does so at
    the first key whose [insert] raises, with that exception; the tree then
    holds what [from_list] of the keys before that one leaves, keys of the
    list only: the content the tree had before the call is gone. *)
Theorem X19_from_list_failure_is_partial
    (self final : AVLTree) (new_keys : list value) (e : exn) :
  from_list self new_keys = (final, Raise e) ->
  exists before bad after,
    new_keys = before ++ bad :: after /\
    from_list self before = (final, Return tt) /\
    insert final bad = (final, Raise e) /\
    (forall x, In x (to_list final) -> In x before).
Proof.
  unfold from_list, to_list. intros E.
  destruct (insert_each_failure new_keys
              (mkAVLTree Absent 0 (_max_size self) (_max_depth self)) final e
              I eq_refl E)
    as (before & bad & after & -> & Eb & Ebad).
  exists before, bad, after. repeat split; try assumption.
  intros x Hx. rewrite in_order_traversal_export in Hx.
  destruct (insert_each_keys before
              (mkAVLTree Absent 0 (_max_size self) (_max_depth self)) final _
              I eq_refl Eb x Hx) as [H|[]].
  exact H.
Qed.

Lemma X19_from_list_failure_is_partial_witness :
  from_list demo_tree [VInt 8; VInt 7; VNone; VInt 9]
    = (fst (from_list demo_tree [VInt 8; VInt 7]), Raise AVLTreeKeyError) /\
  exists before bad after,
    [VInt 8; VInt 7; VNone; VInt 9] = before ++ bad :: after /\
    from_list demo_tree before
      = (fst (from_list demo_tree [VInt 8; VInt 7]), Return tt) /\
    insert (fst (from_list demo_tree [VInt 8; VInt 7])) bad
      = (fst (from_list demo_tree [VInt 8; VInt 7]), Raise AVLTreeKeyError) /\
    (forall x, In x (to_list (fst (from_list demo_tree [VInt 8; VInt 7]))) ->
       In x before).
Proof.
  assert (E : from_list demo_tree [VInt 8; VInt 7; VNone; VInt 9]
              = (fst (from_list demo_tree [VInt 8; VInt 7]), Raise AVLTreeKeyError))
    by reflexivity.
  split; [exact E|].
  exact (X19_from_list_failure_is_partial demo_tree _ _ _ E).
Defined.

(** ** Rotations *)



(** X21. [_rebalance] restores the balance.  On a node whose two subtrees
    are balanced, with heights that differ by at most two and a cached
    height that is right (the state in which [_insert_recursive] and
    [_delete_recursive] call it), [_rebalance] returns without raising a
    balanced subtree with the same keys in the same in-order sequence and
    as many nodes, of the same height or one less; a node that was in
    balance is returned as it is. *)
Theorem X21_rebalance_restores_balance
    (val : value) (L R : AVLNode) (height : Z) :
  avl L -> avl R ->
  -2 <= _get_height L - _get_height R <= 2 ->
  height = 1 + Z.max (_get_height L) (_get_height R) ->
  exists node,
    _rebalance (Node val L R height) = Return node /\
    avl node /\
    -1 <= _get_balance_factor node <= 1 /\
    keys node = keys (Node val L R height) /\
    count node = count (Node val L R height) /\
    (_get_height node = height \/ _get_height node = height - 1) /\
    (-1 <= _get_balance_factor (Node val L R height) <= 1 ->
     node = Node val L R height).
Proof.
  intros HL HR Hb Hh.
  destruct (rebalance_spec val L R height HL HR Hb Hh)
    as (node & E & Havl & Hk & Hc & Hhn & Hsame).
  exists node. cbn [keys count _get_balance_factor].
  split; [exact E|]. split; [exact Havl|]. split.
  - destruct node as [|v l r h]; cbn [_get_balance_factor avl] in *; [lia|].
    apply Havl.
  - repeat split; assumption.
Qed.

Lemma X21_rebalance_restores_balance_witness :
  exists node,
    _rebalance (Node (VInt 1) Absent
                  (Node (VInt 2) Absent (AVLNode_init (VInt 3)) 2) 3)
      = Return node /\
    avl node /\
    -1 <= _get_balance_factor node <= 1 /\
    keys node
      = keys (Node (VInt 1) Absent
                (Node (VInt 2) Absent (AVLNode_init (VInt 3)) 2) 3) /\
    count node
      = count (Node (VInt 1) Absent
                 (Node (VInt 2) Absent (AVLNode_init (VInt 3)) 2) 3) /\
    (_get_height node = 3 \/ _get_height node = 3 - 1) /\
    (-1 <= _get_balance_factor
             (Node (VInt 1) Absent
                (Node (VInt 2) Absent (AVLNode_init (VInt 3)) 2) 3) <= 1 ->
     node = Node (VInt 1) Absent
              (Node (VInt 2) Absent (AVLNode_init (VInt 3)) 2) 3).
Proof.
  apply (X21_rebalance_restores_balance (VInt 1) Absent
           (Node (VInt 2) Absent (AVLNode_init (VInt 3)) 2) 3).
  - exact I.
  - cbn. intuition lia.
  - cbn. lia.
  - reflexivity.
Defined.

(** ** The validator on integer keys *)

Lemma int_bound_decided (k b : value) :
  is_int k -> is_bound b ->
  (exists c, py_le k b = Return c) /\ (exists c, py_ge k b = Return c).
Proof. intros [n ->] [[m ->]|[p ->]]; split; eexists; reflexivity. Qed.

Lemma int_le_false (a b : value) :
  is_int a -> is_int b -> (py_le a b = Return false <-> key_lt b a).
Proof.
  intros [m ->] [n ->]. unfold key_lt, py_le, py_lt. cbn.
  split; intros H; injection H as H; f_equal.
  - apply Z.ltb_lt. apply Z.leb_gt in H. exact H.
  - apply Z.leb_gt. apply Z.ltb_lt in H. exact H.
Qed.

Lemma int_ge_false (a b : value) :
  is_int a -> is_int b -> (py_ge a b = Return false <-> key_lt a b).
Proof.
  intros [m ->] [n ->]. unfold key_lt, py_ge, py_lt. cbn. rewrite Z.geb_leb.
  split; intros H; injection H as H; f_equal.
  - apply Z.ltb_lt. apply Z.leb_gt in H. exact H.
  - apply Z.leb_gt. apply Z.ltb_lt in H. exact H.
Qed.

Lemma below_bound_trans (a b hi : value) :
  is_int a -> is_int b -> is_bound hi ->
  key_lt a b -> py_ge b hi = Return false -> py_ge a hi = Return false.
Proof.
  intros [m ->] [n ->] [[k ->]|[p ->]]; unfold key_lt, py_lt, py_ge; cbn;
    [|trivial].
  rewrite !Z.geb_leb. intros H1 H2. injection H1 as H1. injection H2 as H2.
  f_equal. apply Z.leb_gt. apply Z.ltb_lt in H1. apply Z.leb_gt in H2. lia.
Qed.

Lemma above_bound_trans (a b lo : value) :
  is_int a -> is_int b -> is_bound lo ->
  key_lt a b -> py_le a lo = Return false -> py_le b lo = Return false.
Proof.
  intros [m ->] [n ->] [[k ->]|[p ->]]; unfold key_lt, py_lt, py_le; cbn;
    [|trivial].
  intros H1 H2. injection H1 as H1. injection H2 as H2.
  f_equal. apply Z.leb_gt. apply Z.ltb_lt in H1. apply Z.leb_gt in H2. lia.
Qed.

(** The bounds passed to the two recursive calls say as much as the bounds
    of the call and the order of the keys. *)
Lemma between_node (lo hi val : value) (l1 l2 : list value) :
  is_int val -> Forall is_int l1 -> Forall is_int l2 ->
  is_bound lo -> is_bound hi ->
  between lo hi val ->
  (ascending (l1 ++ val :: l2) /\ Forall (between lo hi) (l1 ++ val :: l2) <->
   (ascending l1 /\ Forall (between lo val) l1) /\
   (ascending l2 /\ Forall (between val hi) l2)).
Proof.
  intros Pv H1 H2 Hlo Hhi [Hvlo Hvhi].
  rewrite ascending_mid, Forall_app, Forall_cons_iff, !Forall_forall.
  rewrite Forall_forall in H1, H2. unfold between.
  split.
  - intros ((Hs1 & Hs2 & Hx & Hy & _) & HL & _ & HR).
    split; (split; [assumption|]); intros k Hk.
    + split; [apply HL, Hk|]. apply int_ge_false; auto.
    + split; [|apply HR, Hk]. apply int_le_false; auto.
  - intros ((Hs1 & HL) & (Hs2 & HR)).
    assert (Hx : forall x, In x l1 -> key_lt x val).
    { intros x Hx. apply int_ge_false; auto. apply HL, Hx. }
    assert (Hy : forall y, In y l2 -> key_lt val y).
    { intros y Hy. apply int_le_false; auto. apply HR, Hy. }
    split; [repeat split; try assumption|split; [|split]].
    + intros x y Hx' Hy'.
      exact (ok_trans ints_ordered (H1 x Hx') Pv (H2 y Hy') (Hx x Hx') (Hy y Hy')).
    + intros k Hk. split; [apply HL, Hk|].
      exact (below_bound_trans k val hi (H1 k Hk) Pv Hhi (Hx k Hk) Hvhi).
    + split; assumption.
    + intros k Hk. split; [|apply HR, Hk].
      exact (above_bound_trans val k lo Pv (H2 k Hk) Hlo (Hy k Hk) Hvlo).
Qed.

(** On integer keys [_validate_avl] returns, and returns [True] exactly on
    the balanced search trees whose keys lie between the two bounds. *)
Lemma validate_avl_decides (node : AVLNode) :
  forall (lo hi : value),
  Forall is_int (keys node) -> is_bound lo -> is_bound hi ->
  exists valid,
    _validate_avl node lo hi = Return valid /\
    (valid = true <->
     avl node /\ ascending (keys node) /\ Forall (between lo hi) (keys node)).
Proof.
  induction node as [|val L IHL R IHR height]; intros lo hi Hint Hlo Hhi.
  - exists true. split; [reflexivity|]. split; [intros _|reflexivity].
    repeat split; constructor.
  - cbn [keys] in Hint. pose proof Hint as Hint0.
    rewrite Forall_app, Forall_cons_iff in Hint0. destruct Hint0 as (HiL & Pv & HiR).
    cbn [_validate_avl _get_balance_factor keys avl].
    destruct (int_bound_decided val lo Pv Hlo) as [[c1 E1] _].
    destruct (int_bound_decided val hi Pv Hhi) as [_ [c2 E2]].
    rewrite E1. cbn [bind]. destruct c1.
    { exists false. split; [reflexivity|]. split; [discriminate|].
      intros (_ & _ & HF). rewrite Forall_app, Forall_cons_iff in HF.
      destruct HF as (_ & [H _] & _). congruence. }
    rewrite E2. cbn [bind]. destruct c2.
    { exists false. split; [reflexivity|]. split; [discriminate|].
      intros (_ & _ & HF). rewrite Forall_app, Forall_cons_iff in HF.
      destruct HF as (_ & [_ H] & _). congruence. }
    destruct (Z.gtb_spec (Z.abs (_get_height L - _get_height R)) 1) as [Hb|Hb].
    { exists false. split; [reflexivity|]. split; [discriminate|].
      intros ((_ & _ & _ & Hb') & _). lia. }
    destruct (Z.eqb_spec height (1 + Z.max (_get_height L) (_get_height R)))
      as [Hh|Hh]; cbn [negb].
    2:{ exists false. split; [reflexivity|]. split; [discriminate|].
        intros ((_ & _ & Hh' & _) & _). contradiction. }
    destruct (IHL lo val HiL Hlo (or_introl Pv)) as (bL & EL & HbL).
    destruct (IHR val hi HiR (or_introl Pv) Hhi) as (bR & ER & HbR).
    pose proof (between_node lo hi val (keys L) (keys R) Pv HiL HiR Hlo Hhi
                  (conj E1 E2)) as Hnode.
    rewrite EL. cbn [bind]. destruct bL.
    + rewrite ER. exists bR. split; [reflexivity|].
      destruct HbL as [HbL _]. specialize (HbL eq_refl).
      rewrite HbR. split.
      * intros (HaR & HsR & HFR).
        destruct (proj2 Hnode) as [Hs HF]; [tauto|].
        repeat split; try assumption; try tauto; lia.
      * intros ((_ & HaR & _) & Hs & HF).
        destruct (proj1 Hnode (conj Hs HF)) as [_ [HsR HFR]].
        repeat split; assumption.
    + exists false. split; [reflexivity|]. split; [discriminate|].
      intros ((HaL & _) & Hs & HF).
      destruct (proj1 Hnode (conj Hs HF)) as [[HsL HFL] _].
      apply HbL. repeat split; assumption.
Qed.

(** X22. On a tree object whose keys are integers, well formed or not,
    [is_valid_avl()] returns, and returns [True] exactly when the invariant
    of the data model holds at every node: keys below on the left and above
    on the right, cached height one more than the larger child height, child
    heights that differ by at most one. *)
Theorem X22_is_valid_avl_decides_the_invariant (self : AVLTree) :
  Forall is_int (keys (root self)) ->
  exists valid,
    is_valid_avl self = Return valid /\
    (valid = true <-> every_node node_invariant (root self)).
Proof.
  intros Hint. unfold is_valid_avl.
  destruct (validate_avl_decides (root self) (VFloatInf false) (VFloatInf true)
              Hint) as (valid & E & Hv).
  - right. eexists. reflexivity.
  - right. eexists. reflexivity.
  - exists valid. split; [exact E|]. rewrite Hv. split.
    + intros (Havl & Hs & _).
      apply (wf_every_node is_int _ ints_ordered). repeat split; assumption.
    + intros Hinv.
      destruct (every_node_wf is_int _ ints_ordered Hint Hinv) as (Havl & Hs & _).
      repeat split; try assumption.
      rewrite Forall_forall in *. intros k Hk.
      destruct (Hint k Hk) as [n ->]. split; reflexivity.
Qed.

Lemma X22_is_valid_avl_decides_the_invariant_witness :
  Forall is_int (keys (root misordered_tree)) /\
  is_valid_avl misordered_tree = Return false /\
  exists valid,
    is_valid_avl misordered_tree = Return valid /\
    (valid = true <-> every_node node_invariant (root misordered_tree)).
Proof.
  assert (Hint : Forall is_int (keys (root misordered_tree)))
    by (repeat constructor; apply is_int_VInt).
  split; [exact Hint|]. split; [reflexivity|].
  exact (X22_is_valid_avl_decides_the_invariant misordered_tree Hint).
Defined.

(** * The score tracker *)

(** ** Dictionaries *)

Section Dict.

Context {V : Type}.

Lemma dict_get_In (d : dict V) (k : string) (v : V) :
  dict_get d k = Some v -> In (k, v) d.
Proof.
  induction d as [|[k' v'] d IH]; cbn [dict_get]; [discriminate|].
  destruct (String.eqb_spec k k') as [->|Hne].
  - intros E. injection E as ->. left; reflexivity.
  - intros E. right. exact (IH E).
Qed.

Lemma dict_get_None (d : dict V) (k : string) :
  dict_get d k = None <-> ~ In k (map fst d).
Proof.
  induction d as [|[k' v'] d IH]; cbn [dict_get map fst In]; [tauto|].
  destruct (String.eqb_spec k k') as [->|Hne].
  - split; [discriminate|tauto].
  - rewrite IH. split; [intros H [E|H']; [congruence|tauto]|tauto].
Qed.

Lemma In_dict_get (d : dict V) (k : string) (v : V) :
  NoDup (map fst d) -> In (k, v) d -> dict_get d k = Some v.
Proof.
  induction d as [|[k' v'] d IH]; cbn [dict_get map fst]; intros Hnd Hin;
    [destruct Hin|].
  inversion Hnd as [|? ? Hk Hnd']; subst.
  destruct Hin as [E|Hin].
  - injection E as -> ->. rewrite String.eqb_refl. reflexivity.
  - destruct (String.eqb_spec k k') as [->|Hne]; [|exact (IH Hnd' Hin)].
    exfalso. apply Hk. change k' with (fst (k', v)). apply in_map. exact Hin.
Qed.

Lemma dict_contains_true (d : dict V) (k : string) :
  dict_contains d k = true <-> In k (map fst d).
Proof.
  unfold dict_contains. destruct (dict_get d k) as [v|] eqn:E.
  - split; [intros _|reflexivity].
    change k with (fst (k, v)). apply in_map, dict_get_In, E.
  - apply dict_get_None in E. split; [discriminate|contradiction].
Qed.

(** In a dictionary without the key, [d[k] = v] adds the item at the end. *)
Lemma dict_set_new (d : dict V) (k : string) (v : V) :
  dict_get d k = None -> dict_set d k v = d ++ [(k, v)].
Proof.
  induction d as [|[k' v'] d IH]; cbn [dict_get dict_set app]; [reflexivity|].
  destruct (String.eqb k k'); [discriminate|]. intros E. now rewrite IH.
Qed.

Lemma dict_set_keys (d : dict V) (k : string) (v v0 : V) :
  dict_get d k = Some v0 -> map fst (dict_set d k v) = map fst d.
Proof.
  induction d as [|[k' v'] d IH]; cbn [dict_get dict_set]; [discriminate|].
  destruct (String.eqb k k'); [reflexivity|]. intros E.
  cbn [map]. f_equal. exact (IH E).
Qed.

Lemma dict_set_In (d : dict V) (k k' : string) (v v' : V) :
  NoDup (map fst d) ->
  In (k', v') (dict_set d k v) ->
  (k' = k /\ v' = v) \/ (k' <> k /\ In (k', v') d).
Proof.
  induction d as [|[k0 v0] d IH]; cbn [dict_set map fst]; intros Hnd Hin.
  - destruct Hin as [E|[]]. injection E as <- <-. left; split; reflexivity.
  - inversion Hnd as [|? ? Hk Hnd']; subst.
    destruct (String.eqb_spec k k0) as [->|Hne].
    + destruct Hin as [E|Hin].
      * injection E as <- <-. left; split; reflexivity.
      * right. split; [|right; exact Hin].
        intros ->. apply Hk. change k0 with (fst (k0, v')). apply in_map, Hin.
    + destruct Hin as [E|Hin].
      * injection E as <- <-. right. split; [congruence|left; reflexivity].
      * destruct (IH Hnd' Hin) as [H|[H1 H2]]; [left; exact H|].
        right. split; [exact H1|right; exact H2].
Qed.

Lemma dict_del_In (d : dict V) (k k' : string) (v' : V) :
  NoDup (map fst d) ->
  (In (k', v') (dict_del d k) <-> k' <> k /\ In (k', v') d).
Proof.
  induction d as [|[k0 v0] d IH]; cbn [dict_del map fst]; intros Hnd.
  - cbn. tauto.
  - inversion Hnd as [|? ? Hk Hnd']; subst.
    destruct (String.eqb_spec k k0) as [->|Hne].
    + split.
      * intros Hin. split; [|right; exact Hin].
        intros ->. apply Hk. change k0 with (fst (k0, v')). apply in_map, Hin.
      * intros [Hne [E|Hin]]; [congruence|exact Hin].
    + cbn [In]. rewrite (IH Hnd'). split.
      * intros [E|[H1 H2]]; [|tauto].
        injection E as <- <-. split; [congruence|left; reflexivity].
      * intros [H1 [E|H2]]; [left; exact E|right; tauto].
Qed.

Lemma dict_del_keys (d : dict V) (k : string) :
  NoDup (map fst d) -> NoDup (map fst (dict_del d k)).
Proof.
  induction d as [|[k0 v0] d IH]; cbn [dict_del map fst]; intros Hnd;
    [constructor|].
  inversion Hnd as [|? ? Hk Hnd']; subst.
  destruct (String.eqb k k0); [exact Hnd'|].
  cbn [map fst]. constructor; [|exact (IH Hnd')].
  intros Hin. apply Hk. apply in_map_iff in Hin. destruct Hin as ([k1 v1] & E & Hin).
  cbn in E. subst k1. apply (dict_del_In d k k0 v1 Hnd') in Hin.
  change k0 with (fst (k0, v1)). apply in_map, Hin.
Qed.

Lemma dict_del_length (d : dict V) (k : string) (v : V) :
  dict_get d k = Some v ->
  List.length d = S (List.length (dict_del d k)).
Proof.
  induction d as [|[k0 v0] d IH]; cbn [dict_get dict_del List.length];
    [discriminate|].
  destruct (String.eqb k k0); [reflexivity|].
  intros E. cbn [List.length]. now rewrite (IH E).
Qed.

Lemma dict_del_get (d : dict V) (k k' : string) :
  NoDup (map fst d) ->
  dict_get (dict_del d k) k' = if String.eqb k' k then None else dict_get d k'.
Proof.
  intros Hnd. destruct (String.eqb_spec k' k) as [->|Hne].
  - apply dict_get_None. intros Hin. apply in_map_iff in Hin.
    destruct Hin as ([k1 v1] & E & Hin). cbn in E. subst k1.
    apply (dict_del_In d k k v1 Hnd) in Hin. tauto.
  - destruct (dict_get d k') as [v|] eqn:E.
    + apply (In_dict_get _ _ _ (dict_del_keys d k Hnd)).
      apply (dict_del_In d k k' v Hnd). split; [exact Hne|].
      apply dict_get_In, E.
    + apply dict_get_None. apply dict_get_None in E. intros Hin. apply E.
      apply in_map_iff in Hin. destruct Hin as ([k1 v1] & E1 & Hin).
      cbn in E1. subst k1. apply (dict_del_In d k k' v1 Hnd) in Hin.
      change k' with (fst (k', v1)). apply in_map, Hin.
Qed.

End Dict.

(** ** The trees of a tracker *)

Lemma NoDup_map_on {A B : Type} (f : A -> B) (l : list A) :
  NoDup l ->
  (forall x y, In x l -> In y l -> f x = f y -> x = y) ->
  NoDup (map f l).
Proof.
  induction 1 as [|a l Ha Hnd IH]; intros Hinj; cbn [map]; [constructor|].
  constructor.
  - intros Hin. apply in_map_iff in Hin. destruct Hin as (b & E & Hb).
    apply Ha. rewrite <- (Hinj b a (or_intror Hb) (or_introl eq_refl) E). exact Hb.
  - apply IH. intros x y Hx Hy. apply Hinj; right; assumption.
Qed.

Lemma is_score_key_pair (n : Z) (id : string) :
  is_score_key (VTuple [VInt n; VStr id]).
Proof. exists n, id. reflexivity. Qed.

Section TrackerTrees.

Variable candidates : dict CandidateScore.
Hypothesis Hids : NoDup (map fst candidates).

Variable score_of : CandidateScore -> option value.

Lemma filed_unique (c1 c2 : CandidateScore) :
  filed candidates c1 -> filed candidates c2 ->
  candidate_id c1 = candidate_id c2 -> c1 = c2.
Proof.
  unfold filed. intros H1 H2 E. rewrite E in H1.
  apply (In_dict_get _ _ _ Hids) in H1, H2. congruence.
Qed.

(** A tree of the tracker holds at most one key for each record. *)
Lemma tree_filed_count (tree : AVLTree) :
  tree_ok is_score_key tree ->
  tree_filed candidates score_of tree ->
  count (root tree) <= Z.of_nat (List.length candidates).
Proof.
  intros [(_ & Hs & HPs) _] Hfiled.
  rewrite <- keys_length_count, <- (length_map key_id), <- (length_map fst candidates).
  apply Nat2Z.inj_le, NoDup_incl_length.
  - apply NoDup_map_on.
    + exact (ascending_NoDup is_score_key _ score_keys_ordered HPs Hs).
    + intros x y Hx Hy E.
      destruct (Hfiled x Hx) as (c1 & s1 & F1 & E1 & ->).
      destruct (Hfiled y Hy) as (c2 & s2 & F2 & E2 & ->).
      cbn [key_id] in E. rewrite (filed_unique c1 c2 F1 F2 E) in *. congruence.
  - intros id Hin. apply in_map_iff in Hin. destruct Hin as (key & <- & Hkey).
    destruct (Hfiled key Hkey) as (c & s & F & _ & ->). cbn [key_id].
    change (candidate_id c) with (fst (candidate_id c, c)). apply in_map, F.
Qed.

(** No key of a record that is not in the dictionary. *)
Lemma tree_filed_fresh (tree : AVLTree) (id : string) (s : value) :
  tree_filed candidates score_of tree ->
  dict_get candidates id = None ->
  ~ In (VTuple [s; VStr id]) (keys (root tree)).
Proof.
  intros Hfiled Hnone Hin.
  destruct (Hfiled _ Hin) as (c & s' & F & _ & E). injection E as _ ->.
  apply dict_get_None in Hnone. apply Hnone.
  change (candidate_id c) with (fst (candidate_id c, c)). apply in_map, F.
Qed.

(** Below [max_candidates] records, [insert] of the key of a new record
    returns [True]. *)
Lemma tracker_insert_returns (m n : Z) (tree : AVLTree) (id : string) :
  tracker_tree_ok m tree ->
  tree_filed candidates score_of tree ->
  dict_get candidates id = None ->
  Z.of_nat (List.length candidates) < m ->
  m <= sys_maxsize ->
  exists tree' l1 l2,
    insert tree (VTuple [VInt n; VStr id]) = (tree', Return true) /\
    keys (root tree) = l1 ++ l2 /\
    keys (root tree') = l1 ++ VTuple [VInt n; VStr id] :: l2.
Proof.
  intros (Hok & Hms & Hmd) Hfiled Hnone Hlen Hm.
  pose proof (tree_filed_count tree Hok Hfiled) as Hcount.
  pose proof Hok as [Hwf Hsz].
  pose proof sys_maxsize_below_default_depth as Hbound.
  destruct (insert_new is_score_key score_keys_ordered tree
              (VTuple [VInt n; VStr id]) (is_score_key_pair n id) Hwf)
    as (node & l1 & l2 & E & _ & Hk & Hk' & _).
  - unfold at_capacity. rewrite Hms.
    destruct (Z.geb_spec (_size tree) m); [lia|reflexivity].
  - rewrite Hmd. apply height_below_max_depth; [apply Hwf|lia].
  - exact (tree_filed_fresh tree id (VInt n) Hfiled Hnone).
  - exists (with_root tree node (_size tree + 1)), l1, l2.
    split; [exact E|]. split; assumption.
Qed.

End TrackerTrees.

(** A call of [insert] with the key of a record of the dictionary leaves a
    tree of the tracker, whatever it returns or raises. *)
Lemma tracker_insert_filed
    (candidates : dict CandidateScore) (score_of : CandidateScore -> option value)
    (m n : Z) (tree tree' : AVLTree) (c : CandidateScore) (r : outcome bool) :
  tracker_tree_ok m tree ->
  tree_filed candidates score_of tree ->
  filed candidates c ->
  score_of c = Some (VInt n) ->
  insert tree (VTuple [VInt n; VStr (candidate_id c)]) = (tree', r) ->
  tracker_tree_ok m tree' /\ tree_filed candidates score_of tree'.
Proof.
  intros (Hok & Hms & Hmd) Hfiled Hc Hs E.
  destruct (insert_preserves is_score_key score_keys_ordered tree tree' _ r
              (is_score_key_pair n (candidate_id c)) Hok E) as (Hok' & Hms' & Hmd').
  split; [split; [exact Hok'|split; congruence]|].
  destruct Hok as [Hwf Hsz].
  destruct (insert_any_key tree tree' _ r (proj1 Hwf) Hsz E)
    as (_ & _ & _ & _ & Hraise & Hfalse & Htrue).
  destruct r as [[|]|e].
  - destruct (Htrue eq_refl) as (l1 & l2 & Hk & Hk').
    rewrite !in_order_traversal_export in *.
    intros key Hin. rewrite Hk' in Hin. apply in_app_or in Hin.
    destruct Hin as [Hin|[<-|Hin]].
    + apply Hfiled. rewrite Hk. apply in_or_app. left; exact Hin.
    + exists c, (VInt n). repeat split; assumption.
    + apply Hfiled. rewrite Hk. apply in_or_app. right; exact Hin.
  - rewrite (Hfalse eq_refl). exact Hfiled.
  - rewrite (Hraise e eq_refl). exact Hfiled.
Qed.

(** The records stay in the dictionary when a new one is put in. *)
Lemma filed_dict_set (candidates : dict CandidateScore) (id : string)
    (c c' : CandidateScore) :
  dict_get candidates id = None ->
  filed candidates c' -> filed (dict_set candidates id c) c'.
Proof.
  intros Hnone. unfold filed. rewrite (dict_set_new _ _ _ Hnone).
  intros H. apply in_or_app. left; exact H.
Qed.

Lemma tree_filed_dict_set (candidates : dict CandidateScore)
    (score_of : CandidateScore -> option value) (tree : AVLTree)
    (id : string) (c : CandidateScore) :
  dict_get candidates id = None ->
  tree_filed candidates score_of tree ->
  tree_filed (dict_set candidates id c) score_of tree.
Proof.
  intros Hnone Hfiled key Hin.
  destruct (Hfiled key Hin) as (c' & s & F & Es & E).
  exists c', s. split; [exact (filed_dict_set _ _ _ _ Hnone F)|split; assumption].
Qed.

(** A call of [delete] with the key of a record takes the key out, and the
    tree is then one of the tracker without the record. *)
Lemma tracker_delete
    (candidates : dict CandidateScore) (score_of : CandidateScore -> option value)
    (m n : Z) (tree : AVLTree) (c : CandidateScore) :
  NoDup (map fst candidates) ->
  tracker_tree_ok m tree ->
  tree_filed candidates score_of tree ->
  filed candidates c ->
  score_of c = Some (VInt n) ->
  exists tree' deleted,
    delete tree (VTuple [VInt n; VStr (candidate_id c)]) = (tree', Return deleted) /\
    tracker_tree_ok m tree' /\
    tree_filed (dict_del candidates (candidate_id c)) score_of tree' /\
    (forall x, In x (keys (root tree')) <->
               x <> VTuple [VInt n; VStr (candidate_id c)] /\ In x (keys (root tree))).
Proof.
  intros Hids (Hok & Hms & Hmd) Hfiled Hc Hs.
  set (key := VTuple [VInt n; VStr (candidate_id c)]).
  assert (Pk : is_score_key key) by apply is_score_key_pair.
  assert (E : exists tree' deleted, delete tree key = (tree', Return deleted)).
  { destruct (in_keys_dec is_score_key score_keys_ordered key (keys (root tree)) Pk
                (proj2 (proj2 (proj1 Hok)))) as [Hin|Hin].
    - destruct (delete_present is_score_key score_keys_ordered tree key Pk
                  (proj1 Hok) Hin) as (node & _ & _ & E & _).
      eexists _, _. exact E.
    - eexists _, _.
      exact (delete_absent is_score_key score_keys_ordered tree key Pk (proj1 Hok) Hin). }
  destruct E as (tree' & deleted & E). exists tree', deleted.
  destruct (delete_preserves is_score_key score_keys_ordered tree tree' key _ Pk Hok E)
    as (Hok' & Hms' & Hmd').
  pose proof (delete_returns_keys is_score_key score_keys_ordered tree tree' key
                deleted Pk Hok E) as Hkeys.
  split; [exact E|]. split; [split; [exact Hok'|split; congruence]|].
  split; [|exact Hkeys].
  intros x Hx. apply Hkeys in Hx. destruct Hx as [Hne Hx].
  destruct (Hfiled x Hx) as (c' & s & F & Es & ->).
  exists c', s. split; [|split; [exact Es|reflexivity]].
  apply (dict_del_In candidates (candidate_id c) (candidate_id c') c' Hids).
  split; [|exact F].
  intros Eid. apply Hne. rewrite (filed_unique candidates Hids c' c F Hc Eid) in *.
  unfold key. congruence.
Qed.

(** A tree that holds no key of the record. *)
Lemma tracker_no_key
    (candidates : dict CandidateScore) (score_of : CandidateScore -> option value)
    (tree : AVLTree) (c : CandidateScore) :
  NoDup (map fst candidates) ->
  tree_filed candidates score_of tree ->
  filed candidates c ->
  score_of c = None ->
  tree_filed (dict_del candidates (candidate_id c)) score_of tree.
Proof.
  intros Hids Hfiled Hc Hs x Hx.
  destruct (Hfiled x Hx) as (c' & s & F & Es & ->).
  exists c', s. split; [|split; [exact Es|reflexivity]].
  apply (dict_del_In candidates (candidate_id c) (candidate_id c') c' Hids).
  split; [|exact F].
  intros Eid. rewrite (filed_unique candidates Hids c' c F Hc Eid) in *. congruence.
Qed.

Lemma filed_dict_del (candidates : dict CandidateScore) (id : string)
    (c : CandidateScore) :
  NoDup (map fst candidates) ->
  filed (dict_del candidates id) c -> filed candidates c.
Proof.
  intros Hids F. apply (dict_del_In candidates id _ c Hids) in F. apply F.
Qed.

Lemma tree_filed_dict_del (candidates : dict CandidateScore)
    (score_of : CandidateScore -> option value) (tree : AVLTree) (id : string) :
  NoDup (map fst candidates) ->
  tree_filed (dict_del candidates id) score_of tree ->
  tree_filed candidates score_of tree.
Proof.
  intros Hids Hfiled key Hin.
  destruct (Hfiled key Hin) as (c & s & F & Es & E).
  exists c, s. split; [exact (filed_dict_del _ _ _ Hids F)|split; assumption].
Qed.

(** ** The two loops over the domain scores *)

Section DomainLoops.

Variable m : Z.
Variable candidates : dict CandidateScore.
Hypothesis Hids : NoDup (map fst candidates).
Variable c : CandidateScore.

(** The loop of [add_candidate]: [c] is the new record, [candidates] the
    dictionary before it was put in. *)
Lemma insert_domain_scores_ok (items : list (string * value)) :
  forall (trees trees' : dict AVLTree) (r : outcome unit),
  dict_get candidates (candidate_id c) = None ->
  NoDup (map fst items) ->
  (forall d s, In (d, s) items -> is_int s /\ in_domain d c = Some s) ->
  NoDup (map fst trees) ->
  (forall d D, In (d, D) trees ->
     tracker_tree_ok m D /\
     tree_filed (dict_set candidates (candidate_id c) c) (in_domain d) D /\
     (In d (map fst items) -> tree_filed candidates (in_domain d) D)) ->
  insert_domain_scores trees items (candidate_id c) = (trees', r) ->
  map fst trees' = map fst trees /\
  (forall d D, In (d, D) trees' ->
     tracker_tree_ok m D /\
     tree_filed (dict_set candidates (candidate_id c) c) (in_domain d) D) /\
  (Z.of_nat (List.length candidates) < m -> m <= sys_maxsize -> r = Return tt).
Proof.
  induction items as [|[d s] items IH]; intros trees trees' r Hnone Hnd Hitems Htn Hinv E;
    cbn [insert_domain_scores] in E.
  - injection E as <- <-. split; [reflexivity|]. split; [|reflexivity].
    intros d D Hin. destruct (Hinv d D Hin) as (H1 & H2 & _). split; assumption.
  - cbn [map fst] in Hnd. inversion Hnd as [|? ? Hd Hnd']; subst.
    assert (Hitems' : forall d0 s0, In (d0, s0) items ->
                                    is_int s0 /\ in_domain d0 c = Some s0)
      by (intros d0 s0 H; apply Hitems; right; exact H).
    destruct (dict_get trees d) as [D|] eqn:Eg.
    + destruct (Hitems d s (or_introl eq_refl)) as [[n ->] Hs].
      pose proof (dict_get_In _ _ _ Eg) as HD.
      destruct (Hinv d D HD) as (HokD & HfiledD & HoldD).
      assert (Fc : filed (dict_set candidates (candidate_id c) c) c).
      { unfold filed. rewrite (dict_set_new _ _ _ Hnone).
        apply in_or_app. right; left; reflexivity. }
      destruct (insert D (VTuple [VInt n; VStr (candidate_id c)])) as [D' r0] eqn:Ei.
      destruct (tracker_insert_filed _ _ m n D D' c r0 HokD HfiledD Fc Hs Ei)
        as [HokD' HfiledD'].
      assert (Hinv' : forall d0 D0, In (d0, D0) (dict_set trees d D') ->
                tracker_tree_ok m D0 /\
                tree_filed (dict_set candidates (candidate_id c) c) (in_domain d0) D0 /\
                (In d0 (map fst items) -> tree_filed candidates (in_domain d0) D0)).
      { intros d0 D0 Hin.
        destruct (dict_set_In trees d d0 D' D0 Htn Hin) as [[-> ->]|[Hne Hin0]].
        - split; [exact HokD'|]. split; [exact HfiledD'|]. intros H. contradiction.
        - destruct (Hinv d0 D0 Hin0) as (H1 & H2 & H3).
          split; [exact H1|]. split; [exact H2|]. intros H. apply H3. right; exact H. }
      assert (Hret : Z.of_nat (List.length candidates) < m -> m <= sys_maxsize ->
                     exists b, r0 = Return b).
      { intros Hlen Hm.
        destruct (tracker_insert_returns candidates Hids (in_domain d) m n D
                    (candidate_id c) HokD (HoldD (or_introl eq_refl)) Hnone Hlen Hm)
          as (D1 & _ & _ & E1 & _).
        rewrite E1 in Ei. injection Ei as _ <-. eexists; reflexivity. }
      destruct r0 as [b|e].
      * destruct (IH (dict_set trees d D') trees' r Hnone Hnd' Hitems')
          as (Hk & Hall & Hr); try assumption.
        { rewrite (dict_set_keys _ _ _ _ Eg). exact Htn. }
        split; [rewrite Hk; exact (dict_set_keys _ _ _ _ Eg)|].
        split; assumption.
      * injection E as <- <-.
        split; [exact (dict_set_keys _ _ _ _ Eg)|]. split.
        -- intros d0 D0 Hin. destruct (Hinv' d0 D0 Hin) as (H1 & H2 & _).
           split; assumption.
        -- intros Hlen Hm. destruct (Hret Hlen Hm) as [b Hb]. discriminate.
    + apply (IH trees trees' r Hnone Hnd' Hitems' Htn); [|exact E].
      intros d0 D0 Hin. destruct (Hinv d0 D0 Hin) as (H1 & H2 & H3).
      split; [exact H1|]. split; [exact H2|]. intros H. apply H3. right; exact H.
Qed.

(** The loop of [remove_candidate]: [c] is the record that is removed,
    [candidates] the dictionary that still holds it. *)
Lemma delete_domain_scores_ok (items : list (string * value)) :
  forall (trees : dict AVLTree),
  filed candidates c ->
  NoDup (map fst items) ->
  (forall d s, In (d, s) items -> is_int s /\ in_domain d c = Some s) ->
  NoDup (map fst trees) ->
  (forall d D, In (d, D) trees ->
     tracker_tree_ok m D /\
     tree_filed candidates (in_domain d) D /\
     (~ In d (map fst items) ->
      tree_filed (dict_del candidates (candidate_id c)) (in_domain d) D)) ->
  exists trees',
    delete_domain_scores trees items (candidate_id c) = (trees', Return tt) /\
    map fst trees' = map fst trees /\
    (forall d D, In (d, D) trees' ->
       tracker_tree_ok m D /\
       tree_filed (dict_del candidates (candidate_id c)) (in_domain d) D).
Proof.
  induction items as [|[d s] items IH]; intros trees Fc Hnd Hitems Htn Hinv;
    cbn [delete_domain_scores].
  - exists trees. split; [reflexivity|]. split; [reflexivity|].
    intros d D Hin. destruct (Hinv d D Hin) as (H1 & _ & H3).
    split; [exact H1|]. apply H3. intros [].
  - cbn [map fst] in Hnd. inversion Hnd as [|? ? Hd Hnd']; subst.
    assert (Hitems' : forall d0 s0, In (d0, s0) items ->
                                    is_int s0 /\ in_domain d0 c = Some s0)
      by (intros d0 s0 H; apply Hitems; right; exact H).
    destruct (dict_get trees d) as [D|] eqn:Eg.
    + destruct (Hitems d s (or_introl eq_refl)) as [[n ->] Hs].
      pose proof (dict_get_In _ _ _ Eg) as HD.
      destruct (Hinv d D HD) as (HokD & HfiledD & _).
      destruct (tracker_delete candidates (in_domain d) m n D c Hids HokD HfiledD Fc Hs)
        as (D' & b & Ed & HokD' & HfiledD' & _).
      rewrite Ed.
      destruct (IH (dict_set trees d D') Fc Hnd' Hitems') as (trees' & E & Hk & Hall).
      { rewrite (dict_set_keys _ _ _ _ Eg). exact Htn. }
      { intros d0 D0 Hin.
        destruct (dict_set_In trees d d0 D' D0 Htn Hin) as [[-> ->]|[Hne Hin0]].
        - split; [exact HokD'|].
          split; [exact (tree_filed_dict_del _ _ _ _ Hids HfiledD')|].
          intros _. exact HfiledD'.
        - destruct (Hinv d0 D0 Hin0) as (H1 & H2 & H3).
          split; [exact H1|]. split; [exact H2|]. intros H. apply H3.
          cbn [map fst In]. intros [E0|H0]; [congruence|contradiction]. }
      exists trees'. split; [exact E|]. split; [|exact Hall].
      rewrite Hk. exact (dict_set_keys _ _ _ _ Eg).
    + apply (IH trees Fc Hnd' Hitems' Htn).
      intros d0 D0 Hin. destruct (Hinv d0 D0 Hin) as (H1 & H2 & H3).
      split; [exact H1|]. split; [exact H2|]. intros H. apply H3.
      cbn [map fst In]. intros [E0|H0]; [|contradiction]. subst d0.
      apply dict_get_None in Eg. apply Eg.
      change d with (fst (d, D0)). apply in_map, Hin.
Qed.

End DomainLoops.

(** The domain scores of a record, as the two loops meet them. *)
Lemma domain_scores_items (c : CandidateScore) :
  Forall (fun item => is_int (snd item)) (domain_scores c) ->
  NoDup (map fst (domain_scores c)) ->
  forall d s, In (d, s) (domain_scores c) -> is_int s /\ in_domain d c = Some s.
Proof.
  intros Hint Hnd d s Hin. split.
  - rewrite Forall_forall in Hint. exact (Hint (d, s) Hin).
  - exact (In_dict_get _ _ _ Hnd Hin).
Qed.

(** ** The invariant of the tracker *)

Lemma NoDup_snoc {A : Type} (l : list A) (a : A) :
  NoDup l -> ~ In a l -> NoDup (l ++ [a]).
Proof.
  intros Hnd Hin.
  apply (Permutation_NoDup (Permutation_cons_append l a)).
  constructor; assumption.
Qed.

Lemma tracker_ok_init (threshold : value) (m : Z) :
  tracker_ok (CandidateScoreTracker_init threshold m).
Proof.
  assert (Hempty : tracker_tree_ok m (AVLTree_init (Some m) default_max_depth)).
  { repeat split; cbn; constructor. }
  unfold tracker_ok. cbn [CandidateScoreTracker_init _candidates _score_tree
    _domain_trees max_candidates passing_threshold map fst].
  split; [constructor|]. split; [intros id c []|]. split; [exact Hempty|].
  split; [intros key []|]. split.
  - unfold DOMAINS. cbn [map fst].
    repeat constructor; cbn [In]; intuition discriminate.
  - split; [|intros id c []].
    intros d D Hin. apply in_map_iff in Hin. destruct Hin as (d0 & E & _).
    injection E as <- <-. split; [exact Hempty|intros key []].
Qed.

(** [add_candidate] keeps the invariant, whatever it returns or raises. *)
Lemma add_candidate_ok (self self' : CandidateScoreTracker)
    (id nm : string) (n : Z) (ds : dict value) (now : Z)
    (r : result CandidateScore) :
  tracker_ok self ->
  Forall (fun item => is_int (snd item)) ds ->
  NoDup (map fst ds) ->
  add_candidate self id nm (VInt n) ds now = (self', r) ->
  tracker_ok self'.
Proof.
  intros Hok Hds Hdsn. pose proof Hok as Hok0.
  destruct Hok as (Hids & Hrec & Htree & Hfiled & Hdn & Hdom & Hpass).
  unfold add_candidate.
  destruct (dict_contains (_candidates self) id) eqn:Ec.
  { intros E. injection E as <- _. exact Hok0. }
  assert (Hnone : dict_get (_candidates self) id = None).
  { unfold dict_contains in Ec. destruct (dict_get (_candidates self) id);
      [discriminate|reflexivity]. }
  destruct (py_ge (VInt n) (passing_threshold self)) as [p|e] eqn:Ep.
  2:{ intros E. injection E as <- _. exact Hok0. }
  set (c := mkCandidateScore id nm (VInt n) ds now p).
  set (candidates' := dict_set (_candidates self) id c).
  assert (Fc : filed candidates' c).
  { unfold filed, candidates'. rewrite (dict_set_new _ _ _ Hnone).
    apply in_or_app. right; left; reflexivity. }
  assert (Hids' : NoDup (map fst candidates')).
  { unfold candidates'. rewrite (dict_set_new _ _ _ Hnone), map_app.
    apply NoDup_snoc; [exact Hids|]. apply dict_get_None, Hnone. }
  assert (Hnew : forall id0 c0, In (id0, c0) candidates' ->
                 In (id0, c0) (_candidates self) \/ (id0 = id /\ c0 = c)).
  { unfold candidates'. rewrite (dict_set_new _ _ _ Hnone).
    intros id0 c0 Hin. apply in_app_or in Hin.
    destruct Hin as [Hin|[E|[]]]; [left; exact Hin|].
    injection E as <- <-. right; split; reflexivity. }
  assert (Hrec' : forall id0 c0, In (id0, c0) candidates' -> record_ok id0 c0).
  { intros id0 c0 Hin. destruct (Hnew id0 c0 Hin) as [H|[-> ->]]; [exact (Hrec _ _ H)|].
    repeat split; try assumption. apply is_int_VInt. }
  assert (Hpass' : forall id0 c0, In (id0, c0) candidates' ->
                   py_ge (score c0) (passing_threshold self) = Return (passed c0)).
  { intros id0 c0 Hin. destruct (Hnew id0 c0 Hin) as [H|[-> ->]]; [exact (Hpass _ _ H)|].
    exact Ep. }
  assert (Hdom' : forall d D, In (d, D) (_domain_trees self) ->
            tracker_tree_ok (max_candidates self) D /\
            tree_filed candidates' (in_domain d) D).
  { intros d D Hin. destruct (Hdom d D Hin) as [H1 H2].
    split; [exact H1|exact (tree_filed_dict_set _ _ _ _ _ Hnone H2)]. }
  destruct (insert (_score_tree self) (VTuple [VInt n; VStr id])) as [tree r0] eqn:Ei.
  destruct (tracker_insert_filed candidates' overall (max_candidates self) n
              (_score_tree self) tree c r0 Htree
              (tree_filed_dict_set _ _ _ _ _ Hnone Hfiled) Fc eq_refl Ei)
    as [Htree' Hfiled'].
  destruct r0 as [b|e].
  2:{ intros E. injection E as <- _. unfold tracker_ok.
      cbn [_candidates _score_tree _domain_trees max_candidates passing_threshold].
      repeat (split; [assumption|]). assumption. }
  destruct (insert_domain_scores (_domain_trees self) ds id) as [trees r1] eqn:El.
  destruct (insert_domain_scores_ok (max_candidates self) (_candidates self) Hids c
              ds (_domain_trees self) trees r1 Hnone Hdsn
              (domain_scores_items c Hds Hdsn) Hdn)
    as (Hk & Hall & _).
  { intros d D Hin. destruct (Hdom d D Hin) as [H1 H2].
    split; [exact H1|]. split; [|intros _; exact H2].
    exact (tree_filed_dict_set _ _ _ _ _ Hnone H2). }
  { exact El. }
  assert (Hdn' : NoDup (map fst trees)) by (rewrite Hk; exact Hdn).
  destruct r1 as [[]|e]; intros E; injection E as <- _; unfold tracker_ok;
    cbn [_candidates _score_tree _domain_trees max_candidates passing_threshold];
    repeat (split; [assumption|]); assumption.
Qed.

(** [remove_candidate] of a record that is there. *)
Lemma remove_candidate_present (self : CandidateScoreTracker) (id : string)
    (c : CandidateScore) :
  tracker_ok self ->
  dict_get (_candidates self) id = Some c ->
  exists tree trees deleted,
    remove_candidate self id =
      (mkCandidateScoreTracker (passing_threshold self) (max_candidates self)
         tree (dict_del (_candidates self) id) trees, Ok true) /\
    delete (_score_tree self) (score_key c) = (tree, Return deleted) /\
    (forall x, In x (keys (root tree)) <->
               x <> score_key c /\ In x (keys (root (_score_tree self)))) /\
    tracker_ok
      (mkCandidateScoreTracker (passing_threshold self) (max_candidates self)
         tree (dict_del (_candidates self) id) trees).
Proof.
  intros (Hids & Hrec & Htree & Hfiled & Hdn & Hdom & Hpass) Eg.
  pose proof (dict_get_In _ _ _ Eg) as Hin.
  destruct (Hrec id c Hin) as (Eid & [n En] & Hds & Hdsn).
  assert (Fc : filed (_candidates self) c) by (unfold filed; rewrite Eid; exact Hin).
  destruct (tracker_delete (_candidates self) overall (max_candidates self) n
              (_score_tree self) c Hids Htree Hfiled Fc)
    as (tree & deleted & Ed & Htree' & Hfiled' & Hkeys).
  { unfold overall. rewrite En. reflexivity. }
  destruct (delete_domain_scores_ok (max_candidates self) (_candidates self) Hids c
              (domain_scores c) (_domain_trees self) Fc Hdsn
              (domain_scores_items c Hds Hdsn) Hdn)
    as (trees & El & Hk & Hall).
  { intros d D HD. destruct (Hdom d D HD) as [H1 H2].
    split; [exact H1|]. split; [exact H2|]. intros Hno.
    apply (tracker_no_key _ _ _ c Hids H2 Fc).
    unfold in_domain. apply dict_get_None. exact Hno. }
  rewrite Eid in *. unfold score_key. rewrite En, Eid in *.
  exists tree, trees, deleted. unfold remove_candidate.
  rewrite Eg, En, Ed, El.
  split; [reflexivity|]. split; [reflexivity|]. split; [exact Hkeys|].
  unfold tracker_ok.
  cbn [_candidates _score_tree _domain_trees max_candidates passing_threshold].
  split; [exact (dict_del_keys _ _ Hids)|].
  split; [intros id0 c0 H0; apply (dict_del_In _ _ _ _ Hids) in H0; apply Hrec, H0|].
  split; [exact Htree'|]. split; [exact Hfiled'|].
  split; [rewrite Hk; exact Hdn|]. split; [exact Hall|].
  intros id0 c0 H0. apply (dict_del_In _ _ _ _ Hids) in H0. apply (Hpass id0), H0.
Qed.

Lemma remove_candidate_ok (self self' : CandidateScoreTracker) (id : string)
    (r : result bool) :
  tracker_ok self -> remove_candidate self id = (self', r) -> tracker_ok self'.
Proof.
  intros Hok E. destruct (dict_get (_candidates self) id) as [c|] eqn:Eg.
  - destruct (remove_candidate_present self id c Hok Eg)
      as (tree & trees & deleted & E' & _ & _ & Hok').
    rewrite E' in E. injection E as <- _. exact Hok'.
  - unfold remove_candidate in E. rewrite Eg in E. injection E as <- _. exact Hok.
Qed.

Lemma tracker_reachable_ok (threshold : value) (m : Z)
    (self : CandidateScoreTracker) :
  tracker_reachable threshold m self ->
  tracker_ok self /\ passing_threshold self = threshold /\ max_candidates self = m.
Proof.
  induction 1 as [|self self' id nm n ds now r _ IH Hds Hdsn E|self self' id r _ IH E].
  - split; [apply tracker_ok_init|split; reflexivity].
  - destruct IH as (Hok & Ht & Hm).
    split; [exact (add_candidate_ok self self' id nm n ds now r Hok Hds Hdsn E)|].
    unfold add_candidate in E.
    destruct (dict_contains (_candidates self) id);
      [injection E as <- _; split; assumption|].
    destruct (py_ge (VInt n) (passing_threshold self));
      [|injection E as <- _; split; assumption].
    destruct (insert (_score_tree self) _) as [tree [b|e]];
      [|injection E as <- _; split; assumption].
    destruct (insert_domain_scores _ _ _) as [trees [[]|e]];
      injection E as <- _; split; assumption.
  - destruct IH as (Hok & Ht & Hm).
    split; [exact (remove_candidate_ok self self' id r Hok E)|].
    unfold remove_candidate in E.
    destruct (dict_get (_candidates self) id) as [c|];
      [|injection E as <- _; split; assumption].
    destruct (delete (_score_tree self) _) as [tree [b|e]];
      [|injection E as <- _; split; assumption].
    destruct (delete_domain_scores _ _ _) as [trees [[]|e]];
      injection E as <- _; split; assumption.
Qed.

(** ** Where the loop of [add_candidate] leaves the keys *)






(** ** Ranks and listings *)

Lemma find_rank_absent (id : string) (l : list value) :
  forall (i : Z),
  (forall key, In key l ->
     exists s id', key = VTuple [s; VStr id'] /\ id' <> id) ->
  find_rank l id i = Ok None.
Proof.
  induction l as [|key l IH]; intros i Hall; [reflexivity|].
  destruct (Hall key (or_introl eq_refl)) as (s & id' & -> & Hne).
  cbn [find_rank unpack_pair py_eq].
  destruct (String.eqb_spec id' id) as [E|_]; [contradiction|].
  apply IH. intros key Hk. apply Hall. right; exact Hk.
Qed.

Lemma find_rank_found (id : string) (s : value) (l1 l2 : list value) :
  forall (i : Z),
  (forall key, In key l1 ->
     exists s' id', key = VTuple [s'; VStr id'] /\ id' <> id) ->
  find_rank (l1 ++ VTuple [s; VStr id] :: l2) id i
    = Ok (Some (i + Z.of_nat (List.length l1) + 1)).
Proof.
  induction l1 as [|key l1 IH]; intros i Hall.
  - cbn [app find_rank unpack_pair py_eq List.length]. rewrite String.eqb_refl.
    f_equal. f_equal. lia.
  - destruct (Hall key (or_introl eq_refl)) as (s' & id' & -> & Hne).
    cbn [app find_rank unpack_pair py_eq].
    destruct (String.eqb_spec id' id) as [E|_]; [contradiction|].
    rewrite IH by (intros key Hk; apply Hall; right; exact Hk).
    cbn [List.length]. f_equal. f_equal. lia.
Qed.

Lemma slice_to_firstn {A : Type} (l : list A) (n : Z) :
  exists k,
    slice_to l n = firstn k l /\
    Z.of_nat (Nat.min k (List.length l))
      = if n <? 0 then Z.max 0 (Z.of_nat (List.length l) + n)
        else Z.min n (Z.of_nat (List.length l)).
Proof.
  unfold slice_to. destruct (Z.ltb_spec n 0).
  - eexists. split; [reflexivity|]. lia.
  - eexists. split; [reflexivity|]. lia.
Qed.

Lemma In_firstn {A : Type} (k : nat) (l : list A) (x : A) :
  In x (firstn k l) -> In x l.
Proof.
  intros H. rewrite <- (firstn_skipn k l). apply in_or_app. left; exact H.
Qed.

Lemma ascending_firstn (k : nat) (l : list value) :
  ascending l -> ascending (firstn k l).
Proof.
  intros H. rewrite <- (firstn_skipn k l) in H. apply ascending_app in H. apply H.
Qed.

Lemma ascending_skipn (k : nat) (l : list value) :
  ascending l -> ascending (skipn k l).
Proof.
  intros H. rewrite <- (firstn_skipn k l) in H. apply ascending_app in H. apply H.
Qed.

(** The two comprehensions of the listings, on keys of records of the
    dictionary. *)
Lemma listing_of_keys (candidates : dict CandidateScore) (l : list value) :
  NoDup (map fst candidates) ->
  (forall key, In key l -> exists c, filed candidates c /\ key = score_key c) ->
  exists ids listed,
    second_items l = Ok ids /\
    candidates_of candidates ids = Ok listed /\
    map score_key listed = l /\
    Forall (filed candidates) listed.
Proof.
  intros Hids. induction l as [|key l IH]; intros Hall.
  - exists [], []. repeat split; constructor.
  - destruct (Hall key (or_introl eq_refl)) as (c & F & ->).
    destruct IH as (ids & listed & E1 & E2 & E3 & E4).
    { intros key Hk. apply Hall. right; exact Hk. }
    exists (VStr (candidate_id c) :: ids), (c :: listed).
    cbn [second_items candidates_of candidates_getitem]. unfold score_key at 1.
    cbn [unpack_pair]. rewrite E1, (In_dict_get _ _ _ Hids F), E2.
    repeat split; [cbn [map]; f_equal; exact E3|].
    constructor; assumption.
Qed.



Lemma filter_partition_length {A : Type} (f : A -> bool) (l : list A) :
  (List.length (filter f l) + List.length (filter (fun x => negb (f x)) l)
   = List.length l)%nat.
Proof.
  induction l as [|a l IH]; [reflexivity|].
  cbn [filter]. destruct (f a); cbn [negb List.length]; lia.
Qed.

Lemma tracker_keys_filed (self : CandidateScoreTracker) (key : value) :
  tracker_ok self ->
  In key (keys (root (_score_tree self))) ->
  exists c, filed (_candidates self) c /\ key = score_key c.
Proof.
  intros (_ & _ & _ & Hfiled & _) Hin.
  destruct (Hfiled key Hin) as (c & s & F & Es & ->).
  injection Es as <-. exists c. split; [exact F|reflexivity].
Qed.

(** ** The properties of the tracker *)

(** X23. In every tracker reached from [CandidateScoreTracker(threshold,
    max_candidates)] by calls of [add_candidate] with integer scores and of
    [remove_candidate], whether they return or raise: every key of the score
    tree and of every domain tree is the key of a record that
    [get_candidate] finds under the id in the key, so no tree lists a
    removed or unknown candidate; every record is stored under its own id,
    with [passed] telling whether its score is at least the threshold; the
    score tree has at most [total_candidates] keys and satisfies the
    invariant of the tree module; and [passing_count] and [failing_count]
    add up to [total_candidates]. *)
Theorem X23_tracker_trees_list_filed_records_only
    (threshold : value) (m : Z) (self : CandidateScoreTracker) :
  tracker_reachable threshold m self ->
  (forall key, In key (in_order_traversal (_score_tree self)) ->
     exists c, get_candidate self (key_id key) = Some c /\ key = score_key c) /\
  (forall domain tree key,
     In (domain, tree) (_domain_trees self) ->
     In key (in_order_traversal tree) ->
     exists c s,
       get_candidate self (key_id key) = Some c /\
       dict_get (domain_scores c) domain = Some s /\
       key = VTuple [s; VStr (candidate_id c)]) /\
  (forall id c, get_candidate self id = Some c ->
     candidate_id c = id /\ py_ge (score c) threshold = Return (passed c)) /\
  size (_score_tree self) <= total_candidates self /\
  every_node node_invariant (root (_score_tree self)) /\
  passing_count self + failing_count self = total_candidates self.
Proof.
  intros Hr.
  destruct (tracker_reachable_ok threshold m self Hr) as (Hok & Ht & Hm).
  pose proof Hok as (Hids & Hrec & Htree & Hfiled & Hdn & Hdom & Hpass).
  unfold get_candidate. split; [|split; [|split; [|split; [|split]]]].
  - intros key Hin. rewrite in_order_traversal_export in Hin.
    destruct (tracker_keys_filed self key Hok Hin) as (c & F & ->).
    exists c. split; [|reflexivity]. exact (In_dict_get _ _ _ Hids F).
  - intros d D key HD Hin. rewrite in_order_traversal_export in Hin.
    destruct (Hdom d D HD) as [_ HfD].
    destruct (HfD key Hin) as (c & s & F & Es & ->).
    exists c, s. split; [exact (In_dict_get _ _ _ Hids F)|]. split; [exact Es|reflexivity].
  - intros id c Eg. apply dict_get_In in Eg. rewrite <- Ht.
    split; [apply (Hrec id c Eg)|exact (Hpass id c Eg)].
  - unfold size, total_candidates. destruct Htree as ([Hwf Hsz] & _). rewrite Hsz.
    exact (tree_filed_count _ Hids overall _ (conj Hwf Hsz) Hfiled).
  - apply (wf_every_node is_score_key _ score_keys_ordered). apply Htree.
  - unfold passing_count, failing_count, total_candidates.
    rewrite <- Nat2Z.inj_add. f_equal.
    exact (filter_partition_length (fun item => passed (snd item)) (_candidates self)).
Qed.

Lemma demo_tracker_reachable : tracker_reachable (VInt 70) 2 demo_tracker.
Proof.
  unfold demo_tracker, demo_tracker_two.
  eapply tracker_reach_add;
    [eapply tracker_reach_add;
       [eapply tracker_reach_add; [apply tracker_reach_init| | |]| | |]| | |];
    try (apply surjective_pairing);
    repeat constructor; try (apply is_int_VInt); intros [].
Qed.

Lemma X23_tracker_trees_list_filed_records_only_witness :
  tracker_reachable (VInt 70) 2 demo_tracker /\
  in_order_traversal (_score_tree demo_tracker)
    = [VTuple [VInt 60; VStr "C002"]; VTuple [VInt 85; VStr "C001"]] /\
  total_candidates demo_tracker = 3 /\
  size (_score_tree demo_tracker) <= total_candidates demo_tracker /\
  passing_count demo_tracker + failing_count demo_tracker
    = total_candidates demo_tracker.
Proof.
  split; [exact demo_tracker_reachable|]. split; [reflexivity|]. split; [reflexivity|].
  destruct (X23_tracker_trees_list_filed_records_only (VInt 70) 2 demo_tracker
              demo_tracker_reachable) as (_ & _ & _ & H1 & _ & H2).
  split; [exact H1|exact H2].
Defined.






(** X26. [remove_candidate] on a tracker that satisfies its invariant.  For
    an id that is not stored it returns [False] and changes nothing.  For a
    stored id it returns [True]; [get_candidate] then finds nothing under
    the id and the other ids as before, [total_candidates] is one less, the
    score tree holds the keys it held except the key of the record, the
    candidate has no rank, and the invariant holds again. *)
Theorem X26_remove_candidate
    (self : CandidateScoreTracker) (id : string) :
  tracker_ok self ->
  (get_candidate self id = None -> remove_candidate self id = (self, Ok false)) /\
  (forall c, get_candidate self id = Some c ->
   exists self',
     remove_candidate self id = (self', Ok true) /\
     tracker_ok self' /\
     get_candidate self' id = None /\
     (forall other, other <> id ->
        get_candidate self' other = get_candidate self other) /\
     total_candidates self' = total_candidates self - 1 /\
     (forall key, In key (in_order_traversal (_score_tree self')) <->
                  key <> score_key c /\
                  In key (in_order_traversal (_score_tree self))) /\
     get_rank self' id = Ok None).
Proof.
  intros Hok. unfold get_candidate. split.
  - intros Eg. unfold remove_candidate. rewrite Eg. reflexivity.
  - intros c Eg. pose proof Hok as (Hids & _).
    destruct (remove_candidate_present self id c Hok Eg)
      as (tree & trees & deleted & E & _ & Hkeys & Hok').
    eexists. split; [exact E|].
    cbn [_candidates _score_tree]. rewrite !in_order_traversal_export.
    split; [exact Hok'|].
    split; [rewrite (dict_del_get _ _ _ Hids), String.eqb_refl; reflexivity|].
    split.
    { intros other Hne. rewrite (dict_del_get _ _ _ Hids).
      destruct (String.eqb_spec other id); [contradiction|reflexivity]. }
    split.
    { unfold total_candidates. cbn [_candidates].
      rewrite (dict_del_length _ _ _ Eg). lia. }
    split; [exact Hkeys|].
    unfold get_rank, dict_contains. cbn [_candidates].
    rewrite (dict_del_get _ _ _ Hids), String.eqb_refl. reflexivity.
Qed.

Lemma X26_remove_candidate_witness :
  (get_candidate demo_tracker "C003" = None ->
   remove_candidate demo_tracker "C003" = (demo_tracker, Ok false)) /\
  (forall c, get_candidate demo_tracker "C003" = Some c ->
   exists self',
     remove_candidate demo_tracker "C003" = (self', Ok true) /\
     tracker_ok self' /\
     get_candidate self' "C003" = None /\
     (forall other, other <> "C003"%string ->
        get_candidate self' other = get_candidate demo_tracker other) /\
     total_candidates self' = total_candidates demo_tracker - 1 /\
     (forall key, In key (in_order_traversal (_score_tree self')) <->
                  key <> score_key c /\
                  In key (in_order_traversal (_score_tree demo_tracker))) /\
     get_rank self' "C003" = Ok None).
Proof.
  apply (X26_remove_candidate demo_tracker "C003").
  exact (proj1 (tracker_reachable_ok (VInt 70) 2 demo_tracker demo_tracker_reachable)).
Defined.

(** X27. Ranks.  On a tracker that satisfies its invariant, a candidate
    whose key is in the score tree has the rank one plus the number of keys
    above its key in the in-order export: rank 1 is the greatest pair
    (score, id).  [get_rank] returns [None] for an id that no key of the
    score tree carries. *)
Theorem X27_get_rank
    (self : CandidateScoreTracker) :
  tracker_ok self ->
  (forall c below above,
     in_order_traversal (_score_tree self) = below ++ score_key c :: above ->
     get_rank self (candidate_id c) = Ok (Some (Z.of_nat (List.length above) + 1))) /\
  (forall id,
     (forall key, In key (in_order_traversal (_score_tree self)) -> key_id key <> id) ->
     get_rank self id = Ok None).
Proof.
  intros Hok. pose proof Hok as (Hids & Hrec & Htree & Hfiled & _).
  split.
  - intros c below above Hk. rewrite in_order_traversal_export in Hk.
    destruct (tracker_keys_filed self (score_key c) Hok) as (c0 & F0 & E0).
    { rewrite Hk. apply in_elt. }
    injection E0 as Es Eid.
    unfold get_rank, dict_contains.
    rewrite Eid, (In_dict_get _ _ _ Hids F0). cbn [negb].
    rewrite in_order_traversal_export, Hk, rev_app_distr. cbn [rev].
    rewrite <- app_assoc. cbn [app]. unfold score_key at 1. rewrite Eid.
    rewrite find_rank_found.
    + rewrite length_rev. reflexivity.
    + intros key Hin. apply in_rev in Hin.
      assert (Hin' : In key (keys (root (_score_tree self))))
        by (rewrite Hk; apply in_or_app; right; right; exact Hin).
      destruct (tracker_keys_filed self key Hok Hin') as (c' & F' & ->).
      exists (score c'), (candidate_id c'). split; [reflexivity|].
      intros E. rewrite (filed_unique _ Hids c' c0 F' F0 E) in *.
      destruct Htree as ([(_ & Hs & HPs) _] & _). rewrite Hk in Hs, HPs.
      apply (ascending_not_in is_score_key score_keys_ordered below above _ HPs Hs).
      apply in_or_app. right.
      replace (score_key c) with (score_key c0); [exact Hin|].
      unfold score_key. congruence.
  - intros id Hno. unfold get_rank.
    destruct (negb (dict_contains (_candidates self) id)); [reflexivity|].
    apply find_rank_absent. intros key Hin. apply in_rev in Hin.
    pose proof (Hno key Hin) as Hne. rewrite in_order_traversal_export in Hin.
    destruct (tracker_keys_filed self key Hok Hin) as (c' & F' & ->).
    exists (score c'), (candidate_id c'). split; [reflexivity|exact Hne].
Qed.

Lemma X27_get_rank_witness :
  tracker_ok demo_tracker /\
  get_rank demo_tracker "C001" = Ok (Some 1) /\
  get_rank demo_tracker "C002" = Ok (Some 2) /\
  (forall c below above,
     in_order_traversal (_score_tree demo_tracker) = below ++ score_key c :: above ->
     get_rank demo_tracker (candidate_id c)
       = Ok (Some (Z.of_nat (List.length above) + 1))) /\
  (forall id,
     (forall key, In key (in_order_traversal (_score_tree demo_tracker)) ->
                  key_id key <> id) ->
     get_rank demo_tracker id = Ok None).
Proof.
  assert (Hok : tracker_ok demo_tracker)
    by exact (proj1 (tracker_reachable_ok (VInt 70) 2 demo_tracker
                       demo_tracker_reachable)).
  split; [exact Hok|]. split; [reflexivity|]. split; [reflexivity|].
  exact (X27_get_rank demo_tracker Hok).
Defined.

(** X28. The two listings.  On a tracker that satisfies its invariant,
    [get_top_candidates(n)] and [get_bottom_candidates(n)] return without
    raising; the keys (score, id) of the records they return are the slice
    [[:n]] of the in-order export of the score tree, reversed for the top
    listing: descending for the top, ascending for the bottom.  For [n] not
    negative they return [min(n, size)] records; for a negative [n] they
    return all but the last [-n] of the listing, not an empty list. *)
Theorem X28_top_and_bottom_listings
    (self : CandidateScoreTracker) (n : Z) :
  tracker_ok self ->
  exists top bottom,
    get_top_candidates self n = Ok top /\
    get_bottom_candidates self n = Ok bottom /\
    map score_key top = slice_to (rev (in_order_traversal (_score_tree self))) n /\
    map score_key bottom = slice_to (in_order_traversal (_score_tree self)) n /\
    Forall (fun c => get_candidate self (candidate_id c) = Some c) (top ++ bottom) /\
    ascending (rev (map score_key top)) /\
    ascending (map score_key bottom) /\
    Z.of_nat (List.length top) = Z.of_nat (List.length bottom) /\
    Z.of_nat (List.length top)
      = if n <? 0 then Z.max 0 (size (_score_tree self) + n)
        else Z.min n (size (_score_tree self)).
Proof.
  intros Hok. pose proof Hok as (Hids & _ & ([(_ & Hs & _) Hsz] & _) & _).
  unfold get_top_candidates, get_bottom_candidates, get_candidate, size.
  rewrite in_order_traversal_export.
  set (l := keys (root (_score_tree self))) in *.
  assert (Hl : forall key, In key l ->
               exists c, filed (_candidates self) c /\ key = score_key c)
    by (intros key Hin; exact (tracker_keys_filed self key Hok Hin)).
  destruct (slice_to_firstn (rev l) n) as (k1 & E1 & Hlen1).
  destruct (slice_to_firstn l n) as (k2 & E2 & Hlen2).
  destruct (listing_of_keys (_candidates self) (slice_to (rev l) n) Hids)
    as (ids1 & top & Ea1 & Eb1 & Ec1 & Ed1).
  { intros key Hin. rewrite E1 in Hin. apply In_firstn, in_rev in Hin. auto. }
  destruct (listing_of_keys (_candidates self) (slice_to l n) Hids)
    as (ids2 & bottom & Ea2 & Eb2 & Ec2 & Ed2).
  { intros key Hin. rewrite E2 in Hin. apply In_firstn in Hin. auto. }
  exists top, bottom. rewrite Ea1, Ea2.
  split; [exact Eb1|]. split; [exact Eb2|].
  split; [exact Ec1|]. split; [exact Ec2|]. split.
  { apply Forall_app. split; [revert Ed1|revert Ed2]; apply Forall_impl;
      intros c F; exact (In_dict_get _ _ _ Hids F). }
  assert (Hcount : Z.of_nat (List.length l) = _size (_score_tree self))
    by (unfold l; rewrite keys_length_count; symmetry; exact Hsz).
  assert (Ht : Z.of_nat (List.length top)
               = if n <? 0 then Z.max 0 (_size (_score_tree self) + n)
                 else Z.min n (_size (_score_tree self))).
  { rewrite <- (length_map score_key top), Ec1, E1, length_firstn, Hlen1, length_rev.
    rewrite Hcount. reflexivity. }
  assert (Hb : Z.of_nat (List.length bottom)
               = if n <? 0 then Z.max 0 (_size (_score_tree self) + n)
                 else Z.min n (_size (_score_tree self))).
  { rewrite <- (length_map score_key bottom), Ec2, E2, length_firstn, Hlen2.
    rewrite Hcount. reflexivity. }
  split; [|split; [|split; [congruence|exact Ht]]].
  - rewrite Ec1, E1, firstn_rev, rev_involutive. apply ascending_skipn. exact Hs.
  - rewrite Ec2, E2. apply ascending_firstn. exact Hs.
Qed.

Lemma X28_top_and_bottom_listings_witness :
  tracker_ok demo_tracker /\
  get_top_candidates demo_tracker 1
    = Ok [mkCandidateScore "C001" "Ann" (VInt 85) [("safety"%string, VInt 90)] 1 true] /\
  get_top_candidates demo_tracker (-1)
    = Ok [mkCandidateScore "C001" "Ann" (VInt 85) [("safety"%string, VInt 90)] 1 true] /\
  exists top bottom,
    get_top_candidates demo_tracker (-1) = Ok top /\
    get_bottom_candidates demo_tracker (-1) = Ok bottom /\
    map score_key top
      = slice_to (rev (in_order_traversal (_score_tree demo_tracker))) (-1) /\
    map score_key bottom
      = slice_to (in_order_traversal (_score_tree demo_tracker)) (-1) /\
    Forall (fun c => get_candidate demo_tracker (candidate_id c) = Some c)
      (top ++ bottom) /\
    ascending (rev (map score_key top)) /\
    ascending (map score_key bottom) /\
    Z.of_nat (List.length top) = Z.of_nat (List.length bottom) /\
    Z.of_nat (List.length top)
      = if -1 <? 0 then Z.max 0 (size (_score_tree demo_tracker) + -1)
        else Z.min (-1) (size (_score_tree demo_tracker)).
Proof.
  assert (Hok : tracker_ok demo_tracker)
    by exact (proj1 (tracker_reachable_ok (VInt 70) 2 demo_tracker
                       demo_tracker_reachable)).
  split; [exact Hok|]. split; [reflexivity|]. split; [reflexivity|].
  exact (X28_top_and_bottom_listings demo_tracker (-1) Hok).
Defined.

(** ** The listings by score *)

Lemma ascending_filter (f : value -> bool) (l : list value) :
  ascending l -> ascending (filter f l).
Proof.
  unfold ascending. induction 1 as [|a l Hs IH Hf]; cbn [filter]; [constructor|].
  destruct (f a); [|exact IH]. constructor; [exact IH|].
  rewrite Forall_forall in *. intros x Hx. apply filter_In in Hx. apply Hf, Hx.
Qed.

Lemma StronglySorted_map {A B : Type} (R : B -> B -> Prop) (f : A -> B) (l : list A) :
  StronglySorted (fun a b => R (f a) (f b)) l -> StronglySorted R (map f l).
Proof.
  induction 1 as [|a l Hs IH Hf]; cbn [map]; constructor; [exact IH|].
  rewrite Forall_forall in *. intros y Hy. apply in_map_iff in Hy.
  destruct Hy as (x & <- & Hx). exact (Hf x Hx).
Qed.

(** On keys made of an integer score and an id, the comprehension with a
    test keeps the ids of the keys that pass. *)
Lemma ids_where_filter (test : value -> outcome bool) (f : Z -> bool)
    (l : list value) :
  (forall s, test (VInt s) = Return (f s)) ->
  Forall is_score_key l ->
  ids_where test l = second_items (filter (fun key => f (key_score key)) l).
Proof.
  intros Htest. induction 1 as [|key l (s & id & ->) _ IH]; [reflexivity|].
  cbn [ids_where unpack_pair filter key_score]. rewrite Htest, IH.
  destruct (f s); cbn [second_items unpack_pair];
    destruct (second_items (filter (fun key => f (key_score key)) l)); reflexivity.
Qed.

Lemma tracker_filtered_listing (self : CandidateScoreTracker)
    (test : value -> outcome bool) (f : Z -> bool) :
  tracker_ok self ->
  (forall s, test (VInt s) = Return (f s)) ->
  exists ids listed,
    ids_where test (in_order_traversal (_score_tree self)) = Ok ids /\
    candidates_of (_candidates self) ids = Ok listed /\
    map score_key listed
      = filter (fun key => f (key_score key))
          (in_order_traversal (_score_tree self)) /\
    Forall (filed (_candidates self)) listed.
Proof.
  intros Hok Htest.
  pose proof Hok as (Hids & _ & ([(_ & _ & HPs) _] & _) & _).
  rewrite in_order_traversal_export.
  rewrite (ids_where_filter test f _ Htest HPs).
  apply (listing_of_keys (_candidates self) _ Hids).
  intros key Hin. apply filter_In in Hin.
  exact (tracker_keys_filed self key Hok (proj1 Hin)).
Qed.

(** X29. [get_candidates_in_range(min_score, max_score)] with integer
    bounds, on a tracker that satisfies its invariant, returns without
    raising the records of the keys of the score tree whose score lies
    between the bounds, both included, in the ascending order of the keys
    (score, id); every record returned is one that [get_candidate]
    finds. *)
Theorem X29_get_candidates_in_range
    (self : CandidateScoreTracker) (min_score max_score : Z) :
  tracker_ok self ->
  exists listed,
    get_candidates_in_range self (VInt min_score) (VInt max_score) = Ok listed /\
    map score_key listed
      = filter (fun key => (min_score <=? key_score key)
                           && (key_score key <=? max_score))
          (in_order_traversal (_score_tree self)) /\
    ascending (map score_key listed) /\
    Forall (fun c => get_candidate self (candidate_id c) = Some c) listed.
Proof.
  intros Hok. pose proof Hok as (Hids & _ & ([(_ & Hs & _) _] & _) & _).
  destruct (tracker_filtered_listing self
              (score_in_range (VInt min_score) (VInt max_score))
              (fun s => (min_score <=? s) && (s <=? max_score)) Hok)
    as (ids & listed & E1 & E2 & E3 & E4).
  { intros s. unfold score_in_range, py_le. cbn [richcmp int_op bind].
    destruct (min_score <=? s); reflexivity. }
  exists listed. unfold get_candidates_in_range. rewrite E1.
  split; [exact E2|]. split; [exact E3|]. split.
  - rewrite E3. apply ascending_filter. rewrite in_order_traversal_export. exact Hs.
  - revert E4. apply Forall_impl. intros c F. exact (In_dict_get _ _ _ Hids F).
Qed.

Lemma X29_get_candidates_in_range_witness :
  tracker_ok demo_tracker /\
  get_candidates_in_range demo_tracker (VInt 60) (VInt 80)
    = Ok [mkCandidateScore "C002" "Bob" (VInt 60) [] 2 false] /\
  exists listed,
    get_candidates_in_range demo_tracker (VInt 60) (VInt 80) = Ok listed /\
    map score_key listed
      = filter (fun key => (60 <=? key_score key) && (key_score key <=? 80))
          (in_order_traversal (_score_tree demo_tracker)) /\
    ascending (map score_key listed) /\
    Forall (fun c => get_candidate demo_tracker (candidate_id c) = Some c) listed.
Proof.
  assert (Hok : tracker_ok demo_tracker)
    by exact (proj1 (tracker_reachable_ok (VInt 70) 2 demo_tracker
                       demo_tracker_reachable)).
  split; [exact Hok|]. split; [reflexivity|].
  exact (X29_get_candidates_in_range demo_tracker 60 80 Hok).
Defined.

(** The sort of the threshold listings, on records with integer scores that
    come in the ascending order of their keys. *)
Lemma key_score_score_key (c : CandidateScore) (n : Z) :
  score c = VInt n -> key_score (score_key c) = n.
Proof. intros E. unfold score_key. rewrite E. reflexivity. Qed.

Lemma insert_by_score_spec (c : CandidateScore) (sorted : list CandidateScore) :
  is_int (score c) ->
  Forall (fun a => is_int (score a)) sorted ->
  StronglySorted (fun a b => listed_before (score_key a) (score_key b)) sorted ->
  (forall a, In a sorted -> key_lt (score_key a) (score_key c)) ->
  exists sorted',
    insert_by_score c sorted = Return sorted' /\
    Permutation sorted' (sorted ++ [c]) /\
    StronglySorted (fun a b => listed_before (score_key a) (score_key b)) sorted'.
Proof.
  intros [n Hn]. induction sorted as [|y sorted IH]; intros Hint Hs Hlt.
  - exists [c]. split; [reflexivity|]. split; [apply Permutation_refl|].
    repeat constructor.
  - inversion Hint as [|? ? [m Hm] Hint']; subst.
    inversion Hs as [|? ? Hs' Hf]; subst.
    cbn [insert_by_score]. rewrite Hm, Hn. unfold py_lt. cbn [richcmp int_op bind].
    rewrite Forall_forall in Hf.
    destruct (Z.ltb_spec m n) as [Hmn|Hmn].
    + exists (c :: y :: sorted). split; [reflexivity|]. split.
      * apply (Permutation_cons_append (y :: sorted) c).
      * constructor; [exact Hs|]. rewrite Forall_forall.
        intros z [<-|Hz]; left;
          rewrite (key_score_score_key c n Hn).
        -- rewrite (key_score_score_key y m Hm). exact Hmn.
        -- destruct (Hf z Hz) as [H|[H _]];
             rewrite (key_score_score_key y m Hm) in H; lia.
    + destruct (IH Hint' Hs') as (sorted' & E & Hperm & Hs1).
      { intros a Ha. apply Hlt. right; exact Ha. }
      rewrite E. cbn [bind]. exists (y :: sorted'). split; [reflexivity|]. split.
      * cbn [app]. apply perm_skip. exact Hperm.
      * constructor; [exact Hs1|]. rewrite Forall_forall. intros z Hz.
        apply (Permutation_in z Hperm) in Hz. apply in_app_or in Hz.
        destruct Hz as [Hz|[<-|[]]]; [exact (Hf z Hz)|].
        unfold listed_before.
        rewrite (key_score_score_key c n Hn), (key_score_score_key y m Hm).
        destruct (Z.eq_dec m n) as [->|Hne].
        -- right. split; [reflexivity|]. apply Hlt. left; reflexivity.
        -- left. lia.
Qed.

Lemma sort_by_score_reverse_spec (candidates : list CandidateScore) :
  forall (sorted : list CandidateScore),
  Forall (fun a => is_int (score a)) (sorted ++ candidates) ->
  StronglySorted (fun a b => listed_before (score_key a) (score_key b)) sorted ->
  (forall a c, In a sorted -> In c candidates ->
               key_lt (score_key a) (score_key c)) ->
  ascending (map score_key candidates) ->
  exists result,
    sort_by_score_reverse candidates sorted = Return result /\
    Permutation result (sorted ++ candidates) /\
    StronglySorted (fun a b => listed_before (score_key a) (score_key b)) result.
Proof.
  induction candidates as [|c candidates IH]; intros sorted Hint Hs Hlt Hasc.
  - exists sorted. rewrite app_nil_r. split; [reflexivity|].
    split; [apply Permutation_refl|exact Hs].
  - cbn [map] in Hasc. apply ascending_cons in Hasc. destruct Hasc as [Hasc Hc].
    pose proof Hint as Hint0. rewrite Forall_app in Hint0.
    destruct Hint0 as [Hint1 Hint2]. inversion Hint2 as [|? ? Hci Hint3]; subst.
    destruct (insert_by_score_spec c sorted Hci Hint1 Hs) as (sorted' & E & Hperm & Hs').
    { intros a Ha. apply Hlt; [exact Ha|left; reflexivity]. }
    cbn [sort_by_score_reverse]. rewrite E. cbn [bind].
    destruct (IH sorted') as (result & Er & Hpr & Hsr).
    + rewrite Forall_app. split; [|exact Hint3].
      rewrite Forall_forall in *. intros a Ha.
      apply (Permutation_in a Hperm) in Ha. apply in_app_or in Ha.
      destruct Ha as [Ha|[<-|[]]]; [exact (Hint1 a Ha)|exact Hci].
    + exact Hs'.
    + intros a c' Ha Hc'.
      apply (Permutation_in a Hperm) in Ha. apply in_app_or in Ha.
      destruct Ha as [Ha|[<-|[]]].
      * apply Hlt; [exact Ha|right; exact Hc'].
      * apply Hc. apply in_map. exact Hc'.
    + exact Hasc.
    + exists result. split; [exact Er|]. split; [|exact Hsr].
      eapply Permutation_trans; [exact Hpr|].
      eapply Permutation_trans; [apply Permutation_app_tail, Hperm|].
      rewrite <- app_assoc. apply Permutation_refl.
Qed.

(** The threshold that counts in the two threshold listings. *)
Lemma effective_threshold (self : CandidateScoreTracker) (threshold : value) :
  is_int (passing_threshold self) ->
  threshold = VNone \/ is_int threshold ->
  exists t,
    VInt t = (if py_truthy threshold then threshold else passing_threshold self) /\
    (threshold = VNone \/ threshold = VInt 0 -> VInt t = passing_threshold self).
Proof.
  intros [p Hp] [->|[n ->]].
  - exists p. cbn [py_truthy]. split; [congruence|intros _; congruence].
  - cbn [py_truthy]. destruct (Z.eqb_spec n 0) as [->|Hne]; cbn [negb].
    + exists p. split; [congruence|intros _; congruence].
    + exists n. split; [reflexivity|].
      intros [H|H]; [discriminate|]. injection H as ->. contradiction.
Qed.

(** A comprehension with a test on the score, the lookup of the records and
    the sort, on a tracker that satisfies its invariant. *)
Lemma tracker_sorted_listing (self : CandidateScoreTracker)
    (test : value -> outcome bool) (f : Z -> bool) :
  tracker_ok self ->
  (forall s, test (VInt s) = Return (f s)) ->
  exists ids candidates listed,
    ids_where test (in_order_traversal (_score_tree self)) = Ok ids /\
    candidates_of (_candidates self) ids = Ok candidates /\
    sort_by_score_reverse candidates [] = Return listed /\
    Permutation (map score_key listed)
      (filter (fun key => f (key_score key))
         (in_order_traversal (_score_tree self))) /\
    StronglySorted listed_before (map score_key listed) /\
    Forall (fun c => get_candidate self (candidate_id c) = Some c) listed.
Proof.
  intros Hok Htest.
  pose proof Hok as (Hids & Hrec & ([(_ & Hs & _) _] & _) & _).
  destruct (tracker_filtered_listing self test f Hok Htest)
    as (ids & cs & E1 & E2 & E3 & E4).
  assert (Hasc : ascending (map score_key cs)).
  { rewrite E3. apply ascending_filter. rewrite in_order_traversal_export. exact Hs. }
  destruct (sort_by_score_reverse_spec cs []) as (listed & Es & Hperm & Hsorted).
  - cbn [app]. revert E4. apply Forall_impl. intros c F.
    apply (Hrec (candidate_id c) c F).
  - constructor.
  - intros a c [].
  - exact Hasc.
  - exists ids, cs, listed. cbn [app] in Hperm.
    split; [exact E1|]. split; [exact E2|]. split; [exact Es|].
    split; [rewrite <- E3; apply Permutation_map; exact Hperm|].
    split; [exact (StronglySorted_map listed_before score_key listed Hsorted)|].
    unfold get_candidate. rewrite Forall_forall in *. intros c Hc.
    apply (In_dict_get _ _ _ Hids), E4, (Permutation_in c Hperm), Hc.
Qed.

(** X30. The two threshold listings, on a tracker that satisfies its
    invariant and has an integer passing threshold, with [threshold] an
    integer or [None]: the threshold that counts is
    [threshold or passing_threshold], so [None] and also 0 stand for the
    passing threshold.  [get_candidates_above_threshold] returns without
    raising the records of the keys of the score tree whose score is at
    least that threshold, [get_candidates_below_threshold] those whose score
    is below it; both in descending order of score and, among equal scores,
    in ascending order of the key (score, id). *)
Theorem X30_threshold_listings
    (self : CandidateScoreTracker) (threshold : value) :
  tracker_ok self ->
  is_int (passing_threshold self) ->
  threshold = VNone \/ is_int threshold ->
  exists above below t,
    get_candidates_above_threshold self threshold = Ok above /\
    get_candidates_below_threshold self threshold = Ok below /\
    VInt t = (if py_truthy threshold then threshold else passing_threshold self) /\
    (threshold = VNone \/ threshold = VInt 0 -> VInt t = passing_threshold self) /\
    Permutation (map score_key above)
      (filter (fun key => key_score key >=? t)
         (in_order_traversal (_score_tree self))) /\
    Permutation (map score_key below)
      (filter (fun key => key_score key <? t)
         (in_order_traversal (_score_tree self))) /\
    StronglySorted listed_before (map score_key above) /\
    StronglySorted listed_before (map score_key below) /\
    Forall (fun c => get_candidate self (candidate_id c) = Some c) (above ++ below).
Proof.
  intros Hok Hp Hth.
  destruct (effective_threshold self threshold Hp Hth) as (t & Et & Ezero).
  destruct (tracker_sorted_listing self (fun item_score => py_ge item_score (VInt t))
              (fun s => s >=? t) Hok) as (ids1 & cs1 & above & A1 & A2 & A3 & A4 & A5 & A6).
  { intros s. reflexivity. }
  destruct (tracker_sorted_listing self (fun item_score => py_lt item_score (VInt t))
              (fun s => s <? t) Hok) as (ids2 & cs2 & below & B1 & B2 & B3 & B4 & B5 & B6).
  { intros s. reflexivity. }
  exists above, below, t.
  split; [unfold get_candidates_above_threshold;
          rewrite <- Et, A1, A2, A3; reflexivity|].
  split; [unfold get_candidates_below_threshold;
          rewrite <- Et, B1, B2, B3; reflexivity|].
  split; [exact Et|]. split; [exact Ezero|].
  split; [exact A4|]. split; [exact B4|]. split; [exact A5|]. split; [exact B5|].
  apply Forall_app. split; assumption.
Qed.

Lemma X30_threshold_listings_witness :
  tracker_ok demo_tracker /\
  get_candidates_above_threshold demo_tracker (VInt 0)
    = Ok [mkCandidateScore "C001" "Ann" (VInt 85) [("safety"%string, VInt 90)] 1 true] /\
  get_candidates_above_threshold demo_tracker (VInt 1)
    = Ok [mkCandidateScore "C001" "Ann" (VInt 85) [("safety"%string, VInt 90)] 1 true;
          mkCandidateScore "C002" "Bob" (VInt 60) [] 2 false] /\
  exists above below t,
    get_candidates_above_threshold demo_tracker (VInt 0) = Ok above /\
    get_candidates_below_threshold demo_tracker (VInt 0) = Ok below /\
    VInt t = (if py_truthy (VInt 0) then VInt 0 else passing_threshold demo_tracker) /\
    (VInt 0 = VNone \/ VInt 0 = VInt 0 -> VInt t = passing_threshold demo_tracker) /\
    Permutation (map score_key above)
      (filter (fun key => key_score key >=? t)
         (in_order_traversal (_score_tree demo_tracker))) /\
    Permutation (map score_key below)
      (filter (fun key => key_score key <? t)
         (in_order_traversal (_score_tree demo_tracker))) /\
    StronglySorted listed_before (map score_key above) /\
    StronglySorted listed_before (map score_key below) /\
    Forall (fun c => get_candidate demo_tracker (candidate_id c) = Some c)
      (above ++ below).
Proof.
  assert (Hok : tracker_ok demo_tracker)
    by exact (proj1 (tracker_reachable_ok (VInt 70) 2 demo_tracker
                       demo_tracker_reachable)).
  split; [exact Hok|]. split; [reflexivity|]. split; [reflexivity|].
  apply (X30_threshold_listings demo_tracker (VInt 0) Hok).
  - apply is_int_VInt.
  - right. apply is_int_VInt.
Defined.
